(** * Point-cloud editor: streaming, selection and edit-session engine

    A shallow embedding of the front-end render modules
    ([render/types.ts], [render/rendering.ts], [render/tilesLoader.ts],
    [render/tools.ts], [render/cameraInit.ts]) together with the
    properties of the engine that the specification states.

    Conventions of the embedding:
    - a JS [number] that holds an integer is a [Z], and so is an element
      of a [Uint8Array]; typed-array element writes use stdpp's list
      insert, which like a typed array ignores an out-of-range index;
      reads use list lookup, [None] standing for [undefined];
    - a 32-bit float read from the wire is kept as its bit pattern; a
      colour component is the exact rational that the code assigns; an
      index assigned to an element of the [Float32Array] [lodIndex] is
      rounded to 32-bit precision ([fround]);
    - a JS [Set] is the list of its elements in insertion order;
    - code that can throw returns a [Completion] next to the state it
      leaves behind. *)

From stdpp Require Import base list strings gmap.
From Stdlib Require Import ZArith QArith Strings.Byte Lia.

Local Open Scope Z_scope.

(* ===================================================================== *)
(** * Part I: the embedding                                               *)
(* ===================================================================== *)

(** ** Values and completions of the runtime *)

(** What a piece of code can throw. *)
Inductive JsError : Type :=
  | UnexpectedTileMagic (magic : Z)  (* [new Error(`Unexpected tile magic 0x..`)] *)
  | RangeError                       (* a [DataView] read outside the buffer *)
  | TypeError                        (* destructuring [undefined] *)
  | Rejected (reason : string).      (* a rejected promise of a collaborator *)

Inductive Completion (A : Type) : Type :=
  | Normal (a : A)
  | Throw (e : JsError).
Arguments Normal {A} a.
Arguments Throw {A} e.

(** A computed [number]: a rational or [NaN]. *)
Inductive JsNum : Type :=
  | NaN
  | Num (q : Q).

(** [Math.max(a, b)] *)
Definition Math_max (a b : JsNum) : JsNum :=
  match a, b with
  | Num p, Num q => if Qle_bool p q then Num q else Num p
  | _, _ => NaN
  end.

(** [v / 255] for an array element [v], [undefined / 255] being [NaN]. *)
Definition div255 (v : option Z) : JsNum :=
  match v with
  | Some n => Num (n # 255)
  | None => NaN
  end.

(** A 32-bit float taken from the wire, kept as its bit pattern. *)
Inductive Float32 : Type := F32bits (bits : Z).

(** What a [Float32Array] element holds after an integer is assigned to
    it: the nearest number with a significand of 24 bits, a tie going to
    the even significand.  Integers up to [2^24] are kept as they are;
    the integers met here are indices into an array, far below the
    largest 32-bit float. *)
Definition fround (n : Z) : Z :=
  let a := Z.abs n in
  if a <? 2 ^ 24 then n
  else
    let e := Z.log2 a - 23 in                 (* the bits that do not fit *)
    let q := Z.shiftr a e in
    let r := a - Z.shiftl q e in
    let half := Z.shiftl 1 (e - 1) in
    let q' := if r <? half then q
              else if half <? r then q + 1
              else if Z.even q then q else q + 1 in
    Z.sgn n * Z.shiftl q' e.

(** Element access of a typed array at an integer index: a read outside the
    array is [undefined], a write outside the array does nothing. *)
Definition elem {A : Type} (arr : list A) (i : Z) : option A :=
  if i <? 0 then None else arr !! Z.to_nat i.

Definition setElem {A : Type} (arr : list A) (i : Z) (v : A) : list A :=
  if i <? 0 then arr else <[Z.to_nat i := v]> arr.

(** ** Set

    A [Set] of numbers, as the list of its elements in insertion order. *)

Module JsSet.
Definition has (s : list Z) (v : Z) : bool := bool_decide (v ∈ s).
Definition add (s : list Z) (v : Z) : list Z := if has s v then s else s ++ [v].
Definition remove (s : list Z) (v : Z) : list Z := filter (λ u, u ≠ v) s.
Definition size (s : list Z) : Z := Z.of_nat (length s).

(** [new Set(values)] *)
Definition of_list (values : list Z) : list Z := foldl add [] values.
End JsSet.

(** ** DataView *)

Module DataView.
Definition byteAt (buffer : list byte) (off : nat) : option Z :=
  (λ b, Z.of_N (Byte.to_N b)) <$> buffer !! off.

Definition getUint8 (buffer : list byte) (off : nat) : Completion Z :=
  match byteAt buffer off with
  | Some b => Normal b
  | None => Throw RangeError
  end.

(** [view.getUint32(off, true)]: four bytes, little-endian. *)
Definition getUint32 (buffer : list byte) (off : nat) : Completion Z :=
  match byteAt buffer off, byteAt buffer (off + 1),
        byteAt buffer (off + 2), byteAt buffer (off + 3) with
  | Some b0, Some b1, Some b2, Some b3 =>
      Normal (Z.lor b0 (Z.lor (Z.shiftl b1 8) (Z.lor (Z.shiftl b2 16) (Z.shiftl b3 24))))
  | _, _, _, _ => Throw RangeError
  end.

(** [view.getFloat32(off, true)] *)
Definition getFloat32 (buffer : list byte) (off : nat) : Completion Float32 :=
  match getUint32 buffer off with
  | Normal bits => Normal (F32bits bits)
  | Throw e => Throw e
  end.
End DataView.

(** ** types/api.ts *)

Module Tile.
Record t : Type := mk
  { id : string;
    z : Z;
    x : Z;
    y : Z;
    uri : string;
    points : Z;
    base_index : Z }.

#[global] Instance eq_dec : EqDecision t.
Proof. solve_decision. Defined.
End Tile.

(** ** Array.prototype.sort

    The sort of the language is stable; it is embedded as an insertion
    sort that puts an element in front of the first element that the
    comparator does not place strictly before it. *)

Section JsSort.
Context {A : Type} (cmp : A → A → Z).

Fixpoint sort_insert (a : A) (l : list A) : list A :=
  match l with
  | [] => [a]
  | b :: r => if cmp b a <? 0 then b :: sort_insert a r else a :: b :: r
  end.

Definition js_sort (l : list A) : list A := foldr sort_insert [] l.
End JsSort.

(** A list is in non-decreasing order of [key]. *)
Definition key_sorted {A : Type} (key : A → Z) (l : list A) : Prop :=
  ∀ i j a b, (i ≤ j)%nat → l !! i = Some a → l !! j = Some b → key a ≤ key b.

(** ** render/types.ts *)

Module Tool.
Inductive t : Type := delete | restore | ml.
End Tool.

Record InternalBuffers : Type := mkBuffers
  { positions : list Float32;
    colors : list JsNum;
    status : list Z;              (* 0 normal, 1 deleted *)
    selections : list Z;          (* 0 none, 1 delete, 2 restore *)
    intensities : option (list Z);
    lodIndex : option (list Z) }.

(** [TOOL_CODE]: a partial record, [TOOL_CODE.ml] is [undefined]. *)
Definition TOOL_CODE (t : Tool.t) : option Z :=
  match t with
  | Tool.delete => Some 1
  | Tool.restore => Some 2
  | Tool.ml => None
  end.

Definition MAX_INDICES_PER_OP : Z := 20000.

(** The enumerations that the byte codes of [status] and [selections] stand for. *)
Inductive Status : Type := Alive | Deleted.
Inductive Selection : Type := SelNone | MarkedDelete | MarkedRestore.

Definition status_code (s : Status) : Z :=
  match s with Alive => 0 | Deleted => 1 end.

Definition selection_code (s : Selection) : Z :=
  match s with SelNone => 0 | MarkedDelete => 1 | MarkedRestore => 2 end.

(** ** render/rendering.ts *)

Module Rendering.
Definition Color : Type := JsNum * JsNum * JsNum.

Definition gray (v : JsNum) : Color := (v, v, v).

(** [[0.2, 0.2, 0.2]] *)
Definition deletedGray : Color := gray (Num (1 # 5)).

(** The literal [map] of [applyBaseColor]; a key outside it is [undefined]. *)
Definition selectionColorMap (code : Z) : option Color :=
  if code =? 0 then Some (Num 1, Num 1, Num 1)
  else if code =? 1 then Some (Num 1, Num (1 # 4), Num (1 # 4))
  else if code =? 2 then Some (Num (1 # 5), Num 1, Num (1 # 5))
  else None.

(** [intensities ? Math.max(intensities[index] / 255, 0.15) : 0.35] *)
Definition baseShade (b : InternalBuffers) (index : Z) : JsNum :=
  match intensities b with
  | Some ints => Math_max (div255 (elem ints index)) (Num (3 # 20))
  | None => Num (7 # 20)
  end.

(** The colour that the three components of point [index] hold. *)
Definition colorAt (b : InternalBuffers) (index : Z) : option Color :=
  match elem (colors b) (index * 3), elem (colors b) (index * 3 + 1),
        elem (colors b) (index * 3 + 2) with
  | Some r, Some g, Some bl => Some (r, g, bl)
  | _, _, _ => None
  end.

(** The three assignments [colors[offset] = r; ...]. *)
Definition writeColor (b : InternalBuffers) (index : Z) (c : Color) : InternalBuffers :=
  let offset := index * 3 in
  let '(r, g, bl) := c in
  {| positions := positions b;
     colors := setElem (setElem (setElem (colors b) offset r) (offset + 1) g) (offset + 2) bl;
     status := status b;
     selections := selections b;
     intensities := intensities b;
     lodIndex := lodIndex b |}.

Definition applyBaseColor (index : Z) (b : InternalBuffers) (useSelectionColors : bool)
    : Completion unit * InternalBuffers :=
  let base := baseShade b index in
  let c0 := gray base in
  let c1 := if bool_decide (elem (status b) index = Some 1) then deletedGray else c0 in
  if useSelectionColors && negb (bool_decide (elem (selections b) index = Some 0)) then
    (* [[r, g, b] = map[selections[index]]] *)
    match elem (selections b) index ≫= selectionColorMap with
    | Some c2 => (Normal (), writeColor b index c2)
    | None => (Throw TypeError, b)
    end
  else (Normal (), writeColor b index c1).

(** [flushColorUpdates]: recolours every index of the dirty set, in
    insertion order, and empties the set; an exception leaves the set as
    it was. *)
Fixpoint applyColorForAll (dirty : list Z) (b : InternalBuffers)
    : Completion unit * InternalBuffers :=
  match dirty with
  | [] => (Normal (), b)
  | idx :: rest =>
      match applyBaseColor idx b true with
      | (Normal _, b') => applyColorForAll rest b'
      | (Throw e, b') => (Throw e, b')
      end
  end.

Definition flushColorUpdates (buffers : option InternalBuffers) (dirty : list Z)
    : Completion unit * option InternalBuffers * list Z :=
  match buffers with
  | None => (Normal (), None, dirty)
  | Some b =>
      match applyColorForAll dirty b with
      | (Normal _, b') => (Normal (), Some b', [])
      | (Throw e, b') => (Throw e, Some b', dirty)
      end
  end.
End Rendering.

(** ** render/tilesLoader.ts: [parseTile] *)

Module TileParser.
Definition MAGIC : Z := 0x50544344.

(** The bounding box is only ever expanded here; it is kept as the points
    it was expanded by, the latest first. *)
Definition Box3 : Type := list (Float32 * Float32 * Float32).

Record PointRecord : Type := mkPoint
  { px : Float32; py : Float32; pz : Float32;
    pr : Z; pg : Z; pb : Z; pintensity : Z }.

(** The seven reads at the head of the loop body. *)
Definition readPoint (buffer : list byte) (offset : nat) : Completion PointRecord :=
  match DataView.getFloat32 buffer offset with
  | Throw e => Throw e | Normal x =>
  match DataView.getFloat32 buffer (offset + 4) with
  | Throw e => Throw e | Normal y =>
  match DataView.getFloat32 buffer (offset + 8) with
  | Throw e => Throw e | Normal z =>
  match DataView.getUint8 buffer (offset + 12) with
  | Throw e => Throw e | Normal r =>
  match DataView.getUint8 buffer (offset + 13) with
  | Throw e => Throw e | Normal g =>
  match DataView.getUint8 buffer (offset + 14) with
  | Throw e => Throw e | Normal b =>
  match DataView.getUint8 buffer (offset + 15) with
  | Throw e => Throw e | Normal intensity =>
      Normal (mkPoint x y z r g b intensity)
  end end end end end end end.

(** [Math.max(Math.max(r, g, b) / 255, 0.35)] *)
Definition rgbShade (p : PointRecord) : JsNum :=
  Math_max (Num (Z.max (Z.max (pr p) (pg p)) (pb p) # 255)) (Num (7 # 20)).

Definition baseColor (b : InternalBuffers) (p : PointRecord) : JsNum :=
  match intensities b with
  | Some _ => if 0 <? pintensity p then Num (pintensity p # 255) else rgbShade p
  | None => rgbShade p
  end.

(** The writes of the loop body for the point of global index [gi]. *)
Definition storePoint (b : InternalBuffers) (gi : Z) (p : PointRecord) : InternalBuffers :=
  let posOffset := gi * 3 in
  let c := baseColor b p in
  {| positions :=
       setElem (setElem (setElem (positions b) posOffset (px p))
                  (posOffset + 1) (py p)) (posOffset + 2) (pz p);
     colors :=
       setElem (setElem (setElem (colors b) posOffset c) (posOffset + 1) c)
         (posOffset + 2) c;
     status := setElem (status b) gi 0;
     selections := setElem (selections b) gi 0;
     intensities := (λ ints, setElem ints gi (pintensity p)) <$> intensities b;
     lodIndex := (λ lod, setElem lod gi (fround gi)) <$> lodIndex b |}.

(** [for (let i = 0; i < count; i += 1) {...}], [n] iterations being left
    and [i] the loop counter. *)
Fixpoint parsePoints (n : nat) (i : Z) (offset : nat) (buffer : list byte) (tile : Tile.t)
    (b : InternalBuffers) (box : Box3) : Completion unit * InternalBuffers * Box3 :=
  match n with
  | O => (Normal (), b, box)
  | S n' =>
      match readPoint buffer offset with
      | Throw e => (Throw e, b, box)
      | Normal p =>
          parsePoints n' (i + 1) (offset + 16) buffer tile
            (storePoint b (Tile.base_index tile + i) p)
            ((px p, py p, pz p) :: box)
      end
  end.

Definition parseTile (buffer : list byte) (tile : Tile.t)
    (buffers : InternalBuffers) (boundingBox : Box3)
    : Completion unit * InternalBuffers * Box3 :=
  match DataView.getUint32 buffer 0 with
  | Throw e => (Throw e, buffers, boundingBox)
  | Normal magic =>
      if bool_decide (magic ≠ MAGIC) then
        (Throw (UnexpectedTileMagic magic), buffers, boundingBox)
      else
        match DataView.getUint32 buffer 6 with
        | Throw e => (Throw e, buffers, boundingBox)
        | Normal count =>
            parsePoints (Z.to_nat count) 0 10 buffer tile buffers boundingBox
        end
  end.
End TileParser.

(** ** render/tilesLoader.ts: the contiguous draw range of [loadTilesEffect] *)

Module TilesLoader.

(** [(a, b) => a.base_index - b.base_index] *)
Definition byBaseIndex (a b : Tile.t) : Z := Tile.base_index a - Tile.base_index b.

(** [const sortedTiles = [...tiles].sort(...)] *)
Definition sortedTiles (tiles : list Tile.t) : list Tile.t := js_sort byBaseIndex tiles.

(** [new Map(sortedTiles.map((t, i) => [t.id, i]))]: a later entry with
    the same key replaces an earlier one. *)
Definition indexById (tiles : list Tile.t) : gmap string nat :=
  foldl (λ m e, <[e.1 := e.2]> m) ∅ (imap (λ i t, (Tile.id t, i)) (sortedTiles tiles)).

(** The mutable part of the closure: [loadedFlags], [headIdx] and the draw
    range of the geometry. *)
Record LoadState : Type := mkLoadState
  { loadedFlags : list bool;
    headIdx : nat;
    drawStart : Z;
    drawCount : Z }.

(** State on entry: the flags are all [false], [headIdx = 0], and the
    editor allocated the geometry with [setDrawRange(0, 0)]. *)
Definition initLoadState (tiles : list Tile.t) : LoadState :=
  {| loadedFlags := replicate (length (sortedTiles tiles)) false;
     headIdx := 0;
     drawStart := 0;
     drawCount := 0 |}.

(** [while (headIdx < sortedTiles.length && loadedFlags[headIdx]) headIdx += 1]
    walks the flags from [headIdx] on; [fl] is the part of the array not
    yet visited. *)
Fixpoint skipLoaded (fl : list bool) (h : nat) : nat :=
  match fl with
  | true :: r => skipLoaded r (S h)
  | _ => h
  end.

Definition updateDrawRangeForContiguousPrefix
    (points_total : Z) (tiles : list Tile.t) (s : LoadState) : LoadState :=
  let h := skipLoaded (drop (headIdx s) (loadedFlags s)) (headIdx s) in
  let contiguousCount :=
    match sortedTiles tiles !! h with
    | Some t => Tile.base_index t
    | None => points_total
    end in
  {| loadedFlags := loadedFlags s; headIdx := h;
     drawStart := 0; drawCount := contiguousCount |}.

(** The tail of [runOne], reached when the tile was fetched and parsed:
    [const idx = indexById.get(tile.id); if (idx !== undefined) {...}]. *)
Definition tileCompleted
    (points_total : Z) (tiles : list Tile.t) (s : LoadState) (tile : Tile.t) : LoadState :=
  match indexById tiles !! Tile.id tile with
  | Some idx =>
      updateDrawRangeForContiguousPrefix points_total tiles
        {| loadedFlags := <[idx := true]> (loadedFlags s); headIdx := headIdx s;
           drawStart := drawStart s; drawCount := drawCount s |}
  | None => s
  end.

(** The state after the tiles of [done] completed, in that order. *)
Definition afterCompletions
    (points_total : Z) (tiles done : list Tile.t) : LoadState :=
  foldl (tileCompleted points_total tiles) (initLoadState tiles) done.

(** What the loader state records about the tiles completed so far. *)
Definition tracks (tiles done : list Tile.t) (s : LoadState) : Prop :=
  (∀ k u, sortedTiles tiles !! k = Some u →
          (loadedFlags s !! k = Some true ↔ u ∈ done))
  ∧ (∀ k, (k < headIdx s)%nat → loadedFlags s !! k = Some true).

Definition published (points_total : Z) (tiles : list Tile.t) (s : LoadState) : Prop :=
  loadedFlags s !! headIdx s ≠ Some true
  ∧ drawStart s = 0
  ∧ drawCount s = match sortedTiles tiles !! headIdx s with
                  | Some t => Tile.base_index t
                  | None => points_total
                  end.

End TilesLoader.

(** ** render/tools.ts *)

Module Tools.
Import Rendering.

(** The part of a [THREE.BufferGeometry] that the tools touch.  Its
    position and colour attributes wrap the very arrays of the buffers
    and are not kept apart from them. *)
Record Geometry : Type := mkGeometry
  { drawRange : Z * Z;            (* start, count *)
    colorNeedsUpdate : bool }.

Inductive WindowEvent : Type :=
  | GeometryCompacted (removed : Z).   (* ["pcd-geometry-compacted"] *)

Inductive ConsoleError : Type :=
  | ApplySelectionError (error : JsError).  (* [console.error("apply.selection.error", error)] *)

(** The refs and React state that the tools read and write. *)
Record Editor : Type := mkEditor
  { buffersRef : option InternalBuffers;
    geometryRef : option Geometry;
    pendingDeleteRef : list Z;
    pendingRestoreRef : list Z;
    deletedSetRef : list Z;
    sessionVersionRef : Z;
    selectedForDelete : Z;
    selectedForRestore : Z;
    consoleErrors : list ConsoleError;   (* latest first *)
    dispatched : list WindowEvent }.     (* latest first *)

Definition withBuffers (e : Editor) (b : option InternalBuffers) : Editor :=
  mkEditor b (geometryRef e) (pendingDeleteRef e) (pendingRestoreRef e) (deletedSetRef e)
    (sessionVersionRef e) (selectedForDelete e) (selectedForRestore e)
    (consoleErrors e) (dispatched e).

Definition withGeometry (e : Editor) (g : option Geometry) : Editor :=
  mkEditor (buffersRef e) g (pendingDeleteRef e) (pendingRestoreRef e) (deletedSetRef e)
    (sessionVersionRef e) (selectedForDelete e) (selectedForRestore e)
    (consoleErrors e) (dispatched e).

Definition withPending (e : Editor) (pd pr : list Z) : Editor :=
  mkEditor (buffersRef e) (geometryRef e) pd pr (deletedSetRef e)
    (sessionVersionRef e) (selectedForDelete e) (selectedForRestore e)
    (consoleErrors e) (dispatched e).

Definition withDeletedSet (e : Editor) (ds : list Z) : Editor :=
  mkEditor (buffersRef e) (geometryRef e) (pendingDeleteRef e) (pendingRestoreRef e) ds
    (sessionVersionRef e) (selectedForDelete e) (selectedForRestore e)
    (consoleErrors e) (dispatched e).

Definition withSessionVersion (e : Editor) (v : Z) : Editor :=
  mkEditor (buffersRef e) (geometryRef e) (pendingDeleteRef e) (pendingRestoreRef e)
    (deletedSetRef e) v (selectedForDelete e) (selectedForRestore e)
    (consoleErrors e) (dispatched e).

Definition withCounters (e : Editor) (nd nr : Z) : Editor :=
  mkEditor (buffersRef e) (geometryRef e) (pendingDeleteRef e) (pendingRestoreRef e)
    (deletedSetRef e) (sessionVersionRef e) nd nr (consoleErrors e) (dispatched e).

Definition logError (e : Editor) (err : ConsoleError) : Editor :=
  mkEditor (buffersRef e) (geometryRef e) (pendingDeleteRef e) (pendingRestoreRef e)
    (deletedSetRef e) (sessionVersionRef e) (selectedForDelete e) (selectedForRestore e)
    (err :: consoleErrors e) (dispatched e).

Definition dispatchEvent (e : Editor) (ev : WindowEvent) : Editor :=
  mkEditor (buffersRef e) (geometryRef e) (pendingDeleteRef e) (pendingRestoreRef e)
    (deletedSetRef e) (sessionVersionRef e) (selectedForDelete e) (selectedForRestore e)
    (consoleErrors e) (ev :: dispatched e).

(** [colorAttr.needsUpdate = true], when the geometry is there. *)
Definition markColorsDirty (e : Editor) : Editor :=
  withGeometry e ((λ g, mkGeometry (drawRange g) true) <$> geometryRef e).

Definition withSelections (b : InternalBuffers) (sel : list Z) : InternalBuffers :=
  mkBuffers (positions b) (colors b) (status b) sel (intensities b) (lodIndex b).

Definition withStatus (b : InternalBuffers) (st : list Z) : InternalBuffers :=
  mkBuffers (positions b) (colors b) st (selections b) (intensities b) (lodIndex b).

(** The editor after the allocation effect of [PointCloudEditor] for a
    dataset of [totalPoints] points: zero-filled arrays without
    intensities, an empty draw range, empty sets and counters at zero. *)
Definition allocateBuffers (totalPoints : nat) : InternalBuffers :=
  {| positions := replicate (totalPoints * 3) (F32bits 0);
     colors := replicate (totalPoints * 3) (Num 0);
     status := replicate totalPoints 0;
     selections := replicate totalPoints 0;
     intensities := None;
     lodIndex := Some (replicate totalPoints 0) |}.

Definition allocatedEditor (totalPoints : nat) (version : Z) : Editor :=
  {| buffersRef := Some (allocateBuffers totalPoints);
     geometryRef := Some (mkGeometry (0, 0) false);
     pendingDeleteRef := [];
     pendingRestoreRef := [];
     deletedSetRef := [];
     sessionVersionRef := version;
     selectedForDelete := 0;
     selectedForRestore := 0;
     consoleErrors := [];
     dispatched := [] |}.

(** The pending sets agree with the selection codes: an index is pending
    for deletion exactly when its code is 1, pending for restoration
    exactly when its code is 2, and never both. *)
Definition consistent (pd pr : list Z) (b : InternalBuffers) : Prop :=
  ∀ i : Z,
    (i ∈ pd ↔ elem (selections b) i = Some (selection_code MarkedDelete))
    ∧ (i ∈ pr ↔ elem (selections b) i = Some (selection_code MarkedRestore))
    ∧ ¬ (i ∈ pd ∧ i ∈ pr).

Definition editor_consistent (e : Editor) : Prop :=
  ∀ b, buffersRef e = Some b → consistent (pendingDeleteRef e) (pendingRestoreRef e) b.

(** *** The brush *)

(** [updateSelection(index, toolCode, buffers)], on the two pending sets
    and the buffers. *)
Definition updateSelection (index : Z) (toolCode : option Z)
    (pd pr : list Z) (b : InternalBuffers) : list Z * list Z * InternalBuffers :=
  match toolCode with
  | None => (pd, pr, b)
  | Some code =>
      if (index <? 0) || (Z.of_nat (length (selections b)) <=? index) then (pd, pr, b)
      else if bool_decide (Some code = TOOL_CODE Tool.delete) then
        (JsSet.add pd index, JsSet.remove pr index,
         withSelections b (setElem (selections b) index 1))
      else if bool_decide (Some code = TOOL_CODE Tool.restore) then
        (JsSet.remove pd index, JsSet.add pr index,
         withSelections b (setElem (selections b) index 2))
      else (pd, pr, b)
  end.

Definition colorPoint (index : Z) (b : InternalBuffers) : Completion unit * InternalBuffers :=
  applyBaseColor index b true.

(** [indices.forEach((index) => { updateSelection(...); colorPoint(...); })] *)
Fixpoint brushEach (indices : list Z) (toolCode : option Z)
    (pd pr : list Z) (b : InternalBuffers)
    : Completion unit * (list Z * list Z * InternalBuffers) :=
  match indices with
  | [] => (Normal (), (pd, pr, b))
  | index :: rest =>
      let '(pd1, pr1, b1) := updateSelection index toolCode pd pr b in
      match colorPoint index b1 with
      | (Normal _, b2) => brushEach rest toolCode pd1 pr1 b2
      | (Throw err, b2) => (Throw err, (pd1, pr1, b2))
      end
  end.

(** [applyBrush(intersections, activeTool)]; an intersection carries the
    index of the point that was hit, or none. *)
Definition applyBrush (intersections : list (option Z)) (activeTool : Tool.t) (e : Editor)
    : Completion unit * Editor :=
  match buffersRef e with
  | None => (Normal (), e)
  | Some b =>
      let indices := JsSet.of_list (omap id intersections) in
      if bool_decide (intersections = []) || bool_decide (indices = []) then (Normal (), e)
      else
        match TOOL_CODE activeTool with
        | None => (Normal (), e)
        | Some code =>
            match brushEach indices (Some code) (pendingDeleteRef e) (pendingRestoreRef e) b with
            | (Throw err, (pd, pr, b')) => (Throw err, withBuffers (withPending e pd pr) (Some b'))
            | (Normal _, (pd, pr, b')) =>
                let e1 := withBuffers (withPending e pd pr) (Some b') in
                let e2 := withCounters e1 (JsSet.size pd) (JsSet.size pr) in
                (Normal (), markColorsDirty e2)
            end
        end
  end.

(** *** [resetSelection] *)

(** [rebaseColor]: the point gets its base shade, whatever its status,
    and its selection code goes back to 0. *)
Definition rebaseColor (b : InternalBuffers) (idx : Z) : InternalBuffers :=
  withSelections (writeColor b idx (gray (baseShade b idx))) (setElem (selections b) idx 0).

Definition resetSelection (e : Editor) : Editor :=
  match buffersRef e with
  | None => withCounters (withPending e [] []) 0 0
  | Some b =>
      let b1 := foldl rebaseColor b (pendingDeleteRef e) in
      let b2 := foldl rebaseColor b1 (pendingRestoreRef e) in
      markColorsDirty (withCounters (withPending (withBuffers e (Some b2)) [] []) 0 0)
  end.

(** *** [compactBuffersAfterApply] *)

(** The quiet-NaN pattern, what a float array holds after [undefined] was
    assigned to an element. *)
Definition f32NaN : Float32 := F32bits 0x7fc00000.

(** [for (let i = 0; i < N; i++) if (buffers.status[i] === 0) keepIdx.push(i)] *)
Definition keepIdx (b : InternalBuffers) (N : nat) : list nat :=
  filter (λ i, status b !! i = Some 0) (seq 0 N).

(** One round of the copy loop: source point [i] goes to slot [j]. *)
Definition copyPoint (src : InternalBuffers) (dst : InternalBuffers) (i j : nat)
    : InternalBuffers :=
  let offS := (i * 3)%nat in
  let offD := (j * 3)%nat in
  let rd {A} (dflt : A) (arr : list A) (k : nat) : A := default dflt (arr !! k) in
  {| positions :=
       <[(offD + 2)%nat := rd f32NaN (positions src) (offS + 2)%nat]>
         (<[(offD + 1)%nat := rd f32NaN (positions src) (offS + 1)%nat]>
            (<[offD := rd f32NaN (positions src) offS]> (positions dst)));
     colors :=
       <[(offD + 2)%nat := rd NaN (colors src) (offS + 2)%nat]>
         (<[(offD + 1)%nat := rd NaN (colors src) (offS + 1)%nat]>
            (<[offD := rd NaN (colors src) offS]> (colors dst)));
     status := <[j := 0]> (status dst);
     selections := <[j := 0]> (selections dst);
     intensities :=
       match intensities src, intensities dst with
       | Some ints, Some newInt => Some (<[j := rd 0 ints i]> newInt)
       | _, d => d
       end;
     lodIndex := (λ newLod, <[j := fround (Z.of_nat j)]> newLod) <$> lodIndex dst |}.

(** [for (let k = 0; k < keepIdx.length; k++) { ...; j++ }] *)
Fixpoint copyLoop (src : InternalBuffers) (keep : list nat) (j : nat) (dst : InternalBuffers)
    : InternalBuffers :=
  match keep with
  | [] => dst
  | i :: rest => copyLoop src rest (S j) (copyPoint src dst i j)
  end.

(** The freshly allocated, zero-filled arrays for [newCount] points. *)
Definition freshArrays (src : InternalBuffers) (newCount : nat) : InternalBuffers :=
  {| positions := replicate (newCount * 3) (F32bits 0);
     colors := replicate (newCount * 3) (Num 0);
     status := replicate newCount 0;
     selections := replicate newCount 0;
     intensities := (λ _, replicate newCount 0) <$> intensities src;
     lodIndex := (λ _, replicate newCount 0) <$> lodIndex src |}.

(** [compactBuffersAfterApply(buffersRef, geometryRef)]: the number of
    points removed, and the editor afterwards.  [positions] holds three
    numbers a point, so [N] is a whole number. *)
Definition compactBuffersAfterApply (e : Editor) : Z * Editor :=
  match buffersRef e, geometryRef e with
  | Some b, Some geom =>
      let N := (length (positions b) / 3)%nat in
      let keep := keepIdx b N in
      let newCount := length keep in
      if bool_decide (newCount = N) then (0, e)
      else
        let b' := copyLoop b keep 0 (freshArrays b newCount) in
        let geom' := mkGeometry (0, Z.of_nat newCount) true in
        (Z.of_nat N - Z.of_nat newCount,
         withGeometry (withBuffers e (Some b')) (Some geom'))
  | _, _ => (0, e)
  end.

(** The selection codes after the indices of [l] were set back to 0. *)
Definition clearedAt (sel : list Z) (l : list Z) : list Z :=
  foldl (λ s idx, setElem s idx 0) sel l.

(** The arrays hold [n] points. *)
Definition holds_points (b : InternalBuffers) (n : nat) : Prop :=
  length (positions b) = (n * 3)%nat
  ∧ length (colors b) = (n * 3)%nat
  ∧ length (status b) = n
  ∧ length (selections b) = n
  ∧ (∀ ints, intensities b = Some ints → length ints = n)
  ∧ (∀ lod, lodIndex b = Some lod → length lod = n).

(** What the arrays hold of point [i]: its coordinates, its colour and
    its intensity. *)
Definition pointData (b : InternalBuffers) (i : nat)
    : list (option Float32) * list (option JsNum) * option (option Z) :=
  ([positions b !! (i * 3)%nat; positions b !! (i * 3 + 1)%nat; positions b !! (i * 3 + 2)%nat],
   [colors b !! (i * 3)%nat; colors b !! (i * 3 + 1)%nat; colors b !! (i * 3 + 2)%nat],
   (λ ints, ints !! i) <$> intensities b).

(** The copy loop seen from one array of three numbers a point, and from
    one array of one number a point. *)
Fixpoint copy3 {A : Type} (dflt : A) (src : list A) (keep : list nat) (j : nat)
    (dst : list A) : list A :=
  match keep with
  | [] => dst
  | i :: rest =>
      copy3 dflt src rest (S j)
        (<[(j * 3 + 2)%nat := default dflt (src !! (i * 3 + 2)%nat)]>
           (<[(j * 3 + 1)%nat := default dflt (src !! (i * 3 + 1)%nat)]>
              (<[(j * 3)%nat := default dflt (src !! (i * 3)%nat)]> dst)))
  end.

Fixpoint copy1 {A : Type} (value : nat → nat → A) (keep : list nat) (j : nat)
    (dst : list A) : list A :=
  match keep with
  | [] => dst
  | i :: rest => copy1 value rest (S j) (<[j := value i j]> dst)
  end.

(** *** [applySelection] *)

Record Op : Type := mkOp { action : string; indices : list Z }.

Record AppendRequest : Type := mkAppendRequest
  { sessionId : string; baseVersion : Z; ops : list Op }.

(** What the submission of the chunks leaves behind. *)
Record Submission (Srv : Type) : Type := mkSubmission
  { outcome : Completion unit;
    currentVersion : Z;
    server : Srv;
    calls : list AppendRequest }.    (* in the order they were made *)
Arguments mkSubmission {Srv}.
Arguments outcome {Srv}.
Arguments currentVersion {Srv}.
Arguments server {Srv}.
Arguments calls {Srv}.

Section Commit.
(** The collaborator behind [appendOps]: it takes a request in some
    state and resolves or rejects. *)
Context {Srv : Type} (appendOps : Srv → AppendRequest → Completion unit * Srv).
(** The chunk size, [MAX_INDICES_PER_OP] in [applySelection]. *)
Context (maxIndices : nat).

(** [for (let i = 0; i < op.indices.length; i += MAX_INDICES_PER_OP)]
    for one operation, [fuel] bounding the number of rounds; [None]
    when the rounds are used up before the loop ends. *)
Fixpoint submitChunks (fuel : nat) (sid : string) (op : Op) (i : nat)
    (cur : Z) (srv : Srv) (made : list AppendRequest) : option (Submission Srv) :=
  if bool_decide (i < length (indices op))%nat then
    match fuel with
    | O => None
    | S fuel' =>
        let chunk := take maxIndices (drop i (indices op)) in
        let req := mkAppendRequest sid cur [mkOp (action op) chunk] in
        match appendOps srv req with
        | (Throw err, srv') => Some (mkSubmission (Throw err) cur srv' (made ++ [req]))
        | (Normal _, srv') =>
            submitChunks fuel' sid op (i + maxIndices) (cur + 1) srv' (made ++ [req])
        end
    end
  else Some (mkSubmission (Normal ()) cur srv made).

(** [for (const op of ops) {...}] *)
Fixpoint submitOps (sid : string) (pending : list Op)
    (cur : Z) (srv : Srv) (made : list AppendRequest) : option (Submission Srv) :=
  match pending with
  | [] => Some (mkSubmission (Normal ()) cur srv made)
  | op :: rest =>
      match submitChunks (length (indices op)) sid op 0 cur srv made with
      | None => None
      | Some sub =>
          match outcome sub with
          | Throw _ => Some sub
          | Normal _ => submitOps sid rest (currentVersion sub) (server sub) (calls sub)
          end
      end
  end.

(** The operations of a commit: one for each pending set that is not
    empty, the deletions first. *)
Definition buildOps (pd pr : list Z) : list Op :=
  (if bool_decide (pd = []) then [] else [mkOp "delete" pd])
  ++ (if bool_decide (pr = []) then [] else [mkOp "restore" pr]).

(** [pendingDeleteRef.current.forEach((idx) => {...})] *)
Definition markDeleted (st : list Z * InternalBuffers) (idx : Z) : list Z * InternalBuffers :=
  let '(ds, b) := st in
  let b1 := withStatus b (setElem (status b) idx 1) in
  let b2 := withSelections b1 (setElem (selections b1) idx 0) in
  (JsSet.add ds idx, writeColor b2 idx deletedGray).

(** [pendingRestoreRef.current.forEach((idx) => {...})] *)
Definition markRestored (st : list Z * InternalBuffers) (idx : Z) : list Z * InternalBuffers :=
  let '(ds, b) := st in
  let b1 := withStatus b (setElem (status b) idx 0) in
  let b2 := withSelections b1 (setElem (selections b1) idx 0) in
  (JsSet.remove ds idx, writeColor b2 idx (gray (baseShade b2 idx))).

(** What follows the loops inside the [try] block. *)
Definition applyLocally (e : Editor) : Editor :=
  let e1 :=
    match buffersRef e with
    | None => e
    | Some b =>
        let st1 := foldl markDeleted (deletedSetRef e, b) (pendingDeleteRef e) in
        let st2 := foldl markRestored st1 (pendingRestoreRef e) in
        withBuffers (withDeletedSet e st2.1) (Some st2.2)
    end in
  let e2 := markColorsDirty (withCounters (withPending e1 [] []) 0 0) in
  let '(removed, e3) := compactBuffersAfterApply e2 in
  if 0 <? removed then dispatchEvent e3 (GeometryCompacted removed) else e3.

(** *** The commit as the specification words it

    An index list of length [L] gives [ceil(L / maxIndices)] requests,
    the [k]-th carrying the indices from [k * maxIndices] on, at most
    [maxIndices] of them, and a [baseVersion] that grows by one from
    request to request; the deletions go before the restorations. *)
Definition ceilDiv (a b : nat) : nat := ((a + b - 1) / b)%nat.

Fixpoint chunkRequestsFrom (sid : string) (act : string) (l : list Z)
    (k count : nat) (v : Z) : list AppendRequest :=
  match count with
  | O => []
  | S count' =>
      mkAppendRequest sid v [mkOp act (take maxIndices (drop (k * maxIndices) l))]
      :: chunkRequestsFrom sid act l (S k) count' (v + 1)
  end.

Definition chunkRequests (sid : string) (v : Z) (act : string) (l : list Z)
    : list AppendRequest :=
  chunkRequestsFrom sid act l 0 (ceilDiv (length l) maxIndices) v.

Definition commitPlan (sid : string) (v : Z) (pd pr : list Z) : list AppendRequest :=
  chunkRequests sid v "delete" pd
  ++ chunkRequests sid (v + Z.of_nat (ceilDiv (length pd) maxIndices)) "restore" pr.

(** The collaborator answering the requests of a plan one after the
    other, up to the first one that it rejects. *)
Fixpoint serve (plan : list AppendRequest) (cur : Z) (srv : Srv)
    (made : list AppendRequest) : Submission Srv :=
  match plan with
  | [] => mkSubmission (Normal ()) cur srv made
  | req :: rest =>
      match appendOps srv req with
      | (Throw err, srv') => mkSubmission (Throw err) cur srv' (made ++ [req])
      | (Normal _, srv') => serve rest (cur + 1) srv' (made ++ [req])
      end
  end.

(** What a call of [applySelection] leaves behind: how the promise
    settled, the editor, the collaborator and the requests made. *)
Record Commit : Type := mkCommit
  { settled : Completion unit;
    editor : Editor;
    backend : Srv;
    requests : list AppendRequest }.

Definition applySelectionWith (session : option string) (srv : Srv) (e : Editor)
    : option Commit :=
  match session with
  | None => Some (mkCommit (Normal ()) e srv [])
  | Some sid =>
      if bool_decide (pendingDeleteRef e = []) && bool_decide (pendingRestoreRef e = [])
      then Some (mkCommit (Normal ()) e srv [])
      else
        let pending := buildOps (pendingDeleteRef e) (pendingRestoreRef e) in
        match submitOps sid pending (sessionVersionRef e) srv [] with
        | None => None
        | Some sub =>
            (* [sessionVersionRef.current = currentVersion] after each accepted chunk *)
            let e1 := withSessionVersion e (currentVersion sub) in
            match outcome sub with
            | Normal _ =>
                Some (mkCommit (Normal ()) (applyLocally e1) (server sub) (calls sub))
            | Throw err =>
                (* [catch (error) { console.error("apply.selection.error", error); }] *)
                Some (mkCommit (Normal ()) (logError e1 (ApplySelectionError err))
                        (server sub) (calls sub))
            end
        end
  end.
End Commit.

Definition applySelection {Srv : Type}
    (appendOps : Srv → AppendRequest → Completion unit * Srv)
    (session : option string) (srv : Srv) (e : Editor) : option (Commit (Srv := Srv)) :=
  applySelectionWith appendOps (Z.to_nat MAX_INDICES_PER_OP) session srv e.

(** An example of a collaborator: a session log under optimistic
    concurrency, whose state is the version of the session.  A request is
    accepted, and the version advanced by one, exactly when its
    [baseVersion] is the version of the session. *)
Definition versionedLog (version : Z) (req : AppendRequest) : Completion unit * Z :=
  if baseVersion req =? version then (Normal (), version + 1)
  else (Throw (Rejected "version conflict"), version).
End Tools.

(** ** render/cameraInit.ts: the sampling of [tryInitializeCameraPose] *)

Module CameraInit.
(** [x | 0] *)
Definition toInt32 (x : Z) : Z := (x + 2 ^ 31) mod 2 ^ 32 - 2 ^ 31.

Definition maxSamples : Z := 120000.

(** [Math.max(1, Math.floor(count / maxSamples))] *)
Definition strideFor (count : Z) : Z := Z.max 1 (count / maxSamples).

(** What one round pushes on [xs], [ys] and [zs]. *)
Definition Sample : Type := option Float32 * option Float32 * option Float32.

Definition sampleAt (positions : list Float32) (i : Z) : Sample :=
  let off := i * 3 in
  (elem positions off, elem positions (off + 1), elem positions (off + 2)).

(** [for (let i = 0; i < count; i += stride) {...}], [fuel] bounding the
    number of rounds; [None] when the rounds are used up before the loop
    ends. *)
Fixpoint sampleLoop (fuel : nat) (i count stride : Z) (positions : list Float32)
    : option (list Sample) :=
  if i <? count then
    match fuel with
    | O => None
    | S fuel' =>
        (λ rest, sampleAt positions i :: rest)
          <$> sampleLoop fuel' (i + stride) count stride positions
    end
  else Some [].

Inductive Sampling : Type :=
  | NotReady                          (* [return false] before the sampling *)
  | Sampled (points : list Sample).

(** [tryInitializeCameraPose] up to the end of the sampling loop;
    [cameraAndControls] tells whether both refs are set. *)
Definition cameraSamples (poseInitialized : bool) (buffers : option InternalBuffers)
    (geometry : option Tools.Geometry) (cameraAndControls : bool) : option Sampling :=
  if poseInitialized then Some NotReady
  else
    match buffers, geometry with
    | Some b, Some geom =>
        if negb cameraAndControls then Some NotReady
        else
          let count := toInt32 (Tools.drawRange geom).2 in
          if count <? 20000 then Some NotReady
          else
            Sampled <$> sampleLoop (Z.to_nat count) 0 count (strideFor count) (positions b)
    | _, _ => Some NotReady
    end.
End CameraInit.

(** ** Data of the scenarios *)

Module Examples.
(** Three tiles of 1000 points each. *)
Definition t0 : Tile.t := Tile.mk "tile0" 0 0 0 "tiles/0" 1000 0.
Definition t1 : Tile.t := Tile.mk "tile1" 0 1 0 "tiles/1" 1000 1000.
Definition t2 : Tile.t := Tile.mk "tile2" 0 2 0 "tiles/2" 1000 2000.

(** A store of five points, the second and the fourth deleted. *)
Definition fivePoints : Tools.Editor :=
  Tools.withBuffers (Tools.allocatedEditor 5 0)
    (Some (mkBuffers (F32bits <$> seqZ 100 15) ((λ v, Num (v # 1)) <$> seqZ 0 15)
             [0; 1; 0; 1; 0] [0; 0; 0; 0; 0] (Some [10; 11; 12; 13; 14])
             (Some [0; 1; 2; 3; 4]))).
End Examples.

(* ===================================================================== *)
(** * Part I, continued: the code around the engine                       *)
(* ===================================================================== *)

(** ** Views of the store used to state what [parseTile] writes *)

Module StoreView.
Import TileParser.

(** The lengths of the six arrays. *)
Definition shape (b : InternalBuffers)
    : nat * nat * nat * nat * option nat * option nat :=
  (length (positions b), length (colors b), length (status b), length (selections b),
   length <$> intensities b, length <$> lodIndex b).

(** Everything the arrays hold about the point of global index [gi]. *)
Definition slot (b : InternalBuffers) (gi : Z)
    : (option Float32 * option Float32 * option Float32)
      * (option JsNum * option JsNum * option JsNum)
      * option Z * option Z * option (option Z) * option (option Z) :=
  ((elem (positions b) (gi * 3), elem (positions b) (gi * 3 + 1),
    elem (positions b) (gi * 3 + 2)),
   (elem (colors b) (gi * 3), elem (colors b) (gi * 3 + 1), elem (colors b) (gi * 3 + 2)),
   elem (status b) gi, elem (selections b) gi,
   (λ a, elem a gi) <$> intensities b, (λ a, elem a gi) <$> lodIndex b).

(** The slot of a point right after the loop body of [parseTile] stored
    the record [p] at [gi]. *)
Definition storedSlot (b : InternalBuffers) (gi : Z) (p : PointRecord) :=
  let c := baseColor b p in
  ((Some (px p), Some (py p), Some (pz p)),
   (Some c, Some c, Some c),
   Some 0, Some 0,
   (λ _ : list Z, Some (pintensity p)) <$> intensities b,
   (λ _ : list Z, Some (fround gi)) <$> lodIndex b).

(** The point count that the header declares, 0 when the header is cut
    short. *)
Definition declaredCount (buffer : list byte) : Z :=
  match DataView.getUint32 buffer 6 with
  | Normal c => c
  | Throw _ => 0
  end.
End StoreView.

(** ** Data of the scenarios, continued *)

Module Payloads.
(** The header of a tile, ["DCTP"], a version and a count of 2, and the
    record of one point: three floats, three colour bytes, an intensity. *)
Definition header2 : list byte :=
  [x44; x43; x54; x50; x01; x00; x02; x00; x00; x00].

Definition record1 : list byte :=
  [x00; x00; x80; x3f; x00; x00; x00; x40; x00; x00; x40; x40; x10; x20; x30; x80].

Definition record2 : list byte :=
  [x00; x00; x80; x40; x00; x00; xa0; x40; x00; x00; xc0; x40; xff; x00; x00; x00].

(** A complete tile of two points, and the same tile cut in its second
    record. *)
Definition twoPoints : list byte := header2 ++ record1 ++ record2.
Definition cutShort : list byte := header2 ++ record1 ++ take 7 record2.

Definition tileAt1 : Tile.t := Tile.mk "tile1" 0 1 0 "tiles/1" 2 1.
End Payloads.

(** ** render/tilesLoader.ts: [loadTilesEffect] and [runOne] *)

Module LoadTiles.
Import TileParser TilesLoader.

(** [tiles.map((tile) => tile.id).join("|")] *)
Definition signature (tiles : list Tile.t) : string :=
  String.concat "|" (Tile.id <$> tiles).

(** A payload that [parseTile] reads to the end: the magic, a count and
    as many records of sixteen bytes as the count says. *)
Definition wellFormed (buffer : list byte) : bool :=
  match DataView.getUint32 buffer 0, DataView.getUint32 buffer 6 with
  | Normal magic, Normal count =>
      bool_decide (magic = MAGIC)
      && bool_decide (10 + 16 * Z.to_nat count ≤ length buffer)%nat
  | _, _ => false
  end.

(** What the two [await]s of [runOne] end in: a rejected [fetch] or a
    response that is not [ok], or the bytes of the tile. *)
Inductive Fetched : Type :=
  | FetchFailed (error : JsError)
  | Payload (buffer : list byte).

(** One tile coming back from the network: the tile, what was fetched,
    and what [tryInitializeCameraPose] does if [runOne] gets to call it. *)
Record Arrival : Type := mkArrival
  { ofTile : Tile.t;
    fetched : Fetched;
    poseAttempt : Completion bool }.

(** [console.error("tile.load.error", tile, error)] *)
Inductive TileLoadError : Type := mkTileLoadError (tile : Tile.t) (error : JsError).

(** The variables that the closures of one call of [loadTilesEffect]
    share.  [store] is the object that [buffersRef] held when the effect
    ran; the draw range of [progress] is the one of the geometry.  The
    update ranges for the GPU are not kept. *)
Record Loader : Type := mkLoader
  { cancelled : bool;
    store : InternalBuffers;
    boundingBox : Box3;
    totalLoaded : Z;
    lastSetCount : Z;
    loadedPointCount : Z;         (* what [setLoadedPointCount] set last *)
    poseInitialized : bool;       (* [poseInitializedRef.current] *)
    progress : LoadState;
    tileErrors : list TileLoadError }.   (* latest first *)

Definition withStore (l : Loader) (b : InternalBuffers) (box : Box3) : Loader :=
  mkLoader (cancelled l) b box (totalLoaded l) (lastSetCount l) (loadedPointCount l)
    (poseInitialized l) (progress l) (tileErrors l).

Definition withCounts (l : Loader) (total lastSet shown : Z) : Loader :=
  mkLoader (cancelled l) (store l) (boundingBox l) total lastSet shown
    (poseInitialized l) (progress l) (tileErrors l).

Definition withPose (l : Loader) (p : bool) : Loader :=
  mkLoader (cancelled l) (store l) (boundingBox l) (totalLoaded l) (lastSetCount l)
    (loadedPointCount l) p (progress l) (tileErrors l).

Definition withProgress (l : Loader) (s : LoadState) : Loader :=
  mkLoader (cancelled l) (store l) (boundingBox l) (totalLoaded l) (lastSetCount l)
    (loadedPointCount l) (poseInitialized l) s (tileErrors l).

(** [catch (error) { if (!cancelled) console.error(...) }] *)
Definition catchTileError (l : Loader) (t : Tile.t) (e : JsError) : Loader :=
  if cancelled l then l
  else mkLoader (cancelled l) (store l) (boundingBox l) (totalLoaded l) (lastSetCount l)
         (loadedPointCount l) (poseInitialized l) (progress l)
         (mkTileLoadError t e :: tileErrors l).

(** The cleanup that the effect returns: [cancelled = true]. *)
Definition cleanup (l : Loader) : Loader :=
  mkLoader true (store l) (boundingBox l) (totalLoaded l) (lastSetCount l)
    (loadedPointCount l) (poseInitialized l) (progress l) (tileErrors l).

(** [runOne(tile)] from the point where its [await]s are over; the rest
    of its body runs without interruption. *)
Definition runOne (points_total : Z) (tiles : list Tile.t) (a : Arrival) (l : Loader)
    : Loader :=
  match fetched a with
  | FetchFailed e => catchTileError l (ofTile a) e
  | Payload buffer =>
      if cancelled l then l
      else
        let '(parsed, b', box') := parseTile buffer (ofTile a) (store l) (boundingBox l) in
        let l1 := withStore l b' box' in
        match parsed with
        | Throw e => catchTileError l1 (ofTile a) e
        | Normal _ =>
            let total := totalLoaded l1 + Tile.points (ofTile a) in
            let l2 :=
              if bool_decide (total ≠ lastSetCount l1) then withCounts l1 total total total
              else withCounts l1 total (lastSetCount l1) (loadedPointCount l1) in
            let posed :=
              if poseInitialized l2 then Normal l2
              else
                match poseAttempt a with
                | Normal r => Normal (withPose l2 r)
                | Throw e => Throw e
                end in
            match posed with
            | Throw e => catchTileError l2 (ofTile a) e
            | Normal l3 =>
                withProgress l3 (tileCompleted points_total tiles (progress l3) (ofTile a))
            end
        end
  end.

(** What happens to a load after it started: tiles come back, in any
    order, and the effect may be cleaned up in between. *)
Inductive LoadEvent : Type :=
  | Arrives (a : Arrival)
  | Cleanup.

Definition loadStep (points_total : Z) (tiles : list Tile.t) (l : Loader) (ev : LoadEvent)
    : Loader :=
  match ev with
  | Arrives a => runOne points_total tiles a l
  | Cleanup => cleanup l
  end.

Definition loadRun (points_total : Z) (tiles : list Tile.t) (evs : list LoadEvent)
    (l : Loader) : Loader :=
  foldl (loadStep points_total tiles) l evs.

(** The tile that an arrival delivers: the payload was fetched and is
    well formed. *)
Definition delivered (a : Arrival) : option Tile.t :=
  match fetched a with
  | Payload buffer => if wellFormed buffer then Some (ofTile a) else None
  | FetchFailed _ => None
  end.

(** The tiles whose payload parsed, in the order of their arrival, up to
    the cleanup of the effect. *)
Fixpoint deliveries (evs : list LoadEvent) : list Tile.t :=
  match evs with
  | [] => []
  | Cleanup :: _ => []
  | Arrives a :: rest =>
      match delivered a with
      | Some t => t :: deliveries rest
      | None => deliveries rest
      end
  end.

(** The sum of the sizes that the tile list gives for the tiles of [l]. *)
Definition listedPoints (l : list Tile.t) : Z := foldr Z.add 0 (Tile.points <$> l).

(** [buffers.status.fill(0); buffers.selections.fill(0)] *)
Definition clearCodes (b : InternalBuffers) : InternalBuffers :=
  mkBuffers (positions b) (colors b) (replicate (length (status b)) 0)
    (replicate (length (selections b)) 0) (intensities b) (lodIndex b).

(** The closure variables as [loadTilesEffect] sets them up, for the
    store, the geometry and the pose flag that the refs hold; [shown] is
    the loaded count of the component state, which the effect leaves. *)
Definition initialLoader (tiles : list Tile.t) (b : InternalBuffers) (g : Tools.Geometry)
    (shown : Z) (poseInitializedRef : bool) : Loader :=
  {| cancelled := false;
     store := clearCodes b;
     boundingBox := [];
     totalLoaded := 0;
     lastSetCount := -1;
     loadedPointCount := shown;
     poseInitialized := poseInitializedRef;
     progress :=
       {| loadedFlags := replicate (length (sortedTiles tiles)) false;
          headIdx := 0;
          drawStart := (Tools.drawRange g).1;
          drawCount := (Tools.drawRange g).2 |};
     tileErrors := [] |}.

Record Started : Type := mkStarted
  { editorAfter : Tools.Editor;
    signatureAfter : string;      (* [tilesSignatureRef.current] *)
    loader : Loader }.

(** [loadTilesEffect] up to the start of the workers; [None] when it
    returns without starting a load.  [dataset] tells whether the
    dataset is there. *)
Definition loadTilesEffect (dataset : bool) (tiles : list Tile.t) (e : Tools.Editor)
    (tilesSignatureRef : string) (shown : Z) (poseInitializedRef : bool)
    : option Started :=
  if negb dataset || bool_decide (tiles = []) then None
  else
    match Tools.buffersRef e, Tools.geometryRef e with
    | Some b, Some g =>
        if bool_decide (signature tiles = tilesSignatureRef) then None
        else
          Some {| editorAfter := Tools.withBuffers e (Some (clearCodes b));
                  signatureAfter := signature tiles;
                  loader := initialLoader tiles b g shown poseInitializedRef |}
    | _, _ => None
    end.
End LoadTiles.


(** ** render/cameraControls.ts: the flags of the orbit controls *)

Module CameraControls.
Inductive Mode : Type := pan | rotate.

#[global] Instance Mode_eq_dec : EqDecision Mode.
Proof. solve_decision. Defined.
















End CameraControls.

(** ** render/tools.ts: the pointer handlers of [setupBrushInteractions] *)

Module BrushInteractions.
Import Tools.

(** A pointer event on the canvas; [hits] is the [index] of each
    intersection that the raycast finds for it. *)
Record PointerEvent : Type := mkPointerEvent
  { button : Z;
    buttons : Z;
    shiftKey : bool;
    ctrlKey : bool;
    metaKey : bool;
    altKey : bool;
    pointerId : Z;
    hits : list (option Z) }.

(** [new Event("pcd-brush-start")] and [new Event("pcd-brush-end")] *)
Inductive WindowSignal : Type := BrushStart | BrushEnd.

(** The variables of the closure, the pointers that the canvas has
    captured, the window with its listeners, and the editor. *)
Record Brush (W : Type) : Type := mkBrush
  { selectionDirty : bool;
    brushActive : bool;
    activePointerId : option Z;
    captured : list Z;
    window : W;
    editor : Editor }.
Arguments mkBrush {W}.
Arguments selectionDirty {W}.
Arguments brushActive {W}.
Arguments activePointerId {W}.
Arguments captured {W}.
Arguments window {W}.
Arguments editor {W}.

Inductive Pointer : Type :=
  | PointerDown (ev : PointerEvent)
  | PointerMove (ev : PointerEvent)
  | PointerUp (ev : PointerEvent)
  | PointerCancel (ev : PointerEvent)
  | PointerLeave (ev : PointerEvent).

Definition isMl (t : Tool.t) : bool :=
  match t with Tool.ml => true | _ => false end.

Section Handlers.
(** What the listeners of the window do with a signal. *)
Context {W : Type} (dispatchEvent : WindowSignal → W → W).
(** Whether there is an edit session, and the tool of this setup. *)
Context (session : bool) (tool : Tool.t).

Definition withEditor (s : Brush W) (e : Editor) : Brush W :=
  mkBrush (selectionDirty s) (brushActive s) (activePointerId s) (captured s) (window s) e.

Definition withDirty (s : Brush W) (d : bool) : Brush W :=
  mkBrush d (brushActive s) (activePointerId s) (captured s) (window s) (editor s).

Definition finishBrush (ev : PointerEvent) (s : Brush W) : Brush W :=
  if brushActive s then
    mkBrush (selectionDirty s) false None (JsSet.remove (captured s) (pointerId ev))
      (dispatchEvent BrushEnd (window s)) (editor s)
  else s.

(** [applyBrush(intersections, tool)] from a handler. *)
Definition brushWith (ev : PointerEvent) (s : Brush W) : Completion unit * Brush W :=
  let '(c, e') := applyBrush (hits ev) tool (editor s) in (c, withEditor s e').

Definition handlePointerDown (ev : PointerEvent) (s : Brush W) : Completion unit * Brush W :=
  if negb session || isMl tool then (Normal (), s)
  else if negb (button ev =? 0) then (Normal (), s)
  else if shiftKey ev || ctrlKey ev || metaKey ev || altKey ev then (Normal (), s)
  else
    let s1 :=
      mkBrush (selectionDirty s) (brushActive s) (Some (pointerId ev))
        (JsSet.add (captured s) (pointerId ev)) (window s) (editor s) in
    let s2 :=
      if brushActive s1 then s1
      else mkBrush (selectionDirty s1) true (activePointerId s1) (captured s1)
             (dispatchEvent BrushStart (window s1)) (editor s1) in
    match brushWith ev s2 with
    | (Throw err, s3) => (Throw err, s3)
    | (Normal _, s3) => (Normal (), withDirty s3 true)
    end.

Definition handlePointerMove (ev : PointerEvent) (s : Brush W) : Completion unit * Brush W :=
  if negb session || isMl tool then (Normal (), s)
  else if negb (buttons ev =? 1) && negb (brushActive s) then (Normal (), s)
  else if selectionDirty s && (buttons ev =? 1) then brushWith ev s
  else (Normal (), s).

Definition handlePointerUp (ev : PointerEvent) (s : Brush W) : Completion unit * Brush W :=
  (Normal (), finishBrush ev (withDirty s false)).

Definition handlePointerCancel (ev : PointerEvent) (s : Brush W) : Completion unit * Brush W :=
  (Normal (), finishBrush ev (withDirty s false)).

Definition handlePointerLeave (ev : PointerEvent) (s : Brush W) : Completion unit * Brush W :=
  (Normal (), finishBrush ev (withDirty s false)).

(** The listeners that the setup adds to the canvas; none with the tool
    [ml]. *)
Definition listener (p : Pointer) (s : Brush W) : Completion unit * Brush W :=
  if isMl tool then (Normal (), s)
  else
    match p with
    | PointerDown ev => handlePointerDown ev s
    | PointerMove ev => handlePointerMove ev s
    | PointerUp ev => handlePointerUp ev s
    | PointerCancel ev => handlePointerCancel ev s
    | PointerLeave ev => handlePointerLeave ev s
    end.

(** A sequence of pointer events; an exception that leaves a listener
    does not keep the later events from being handled. *)
Definition interact (ps : list Pointer) (s : Brush W) : Brush W :=
  foldl (λ s p, (listener p s).2) s ps.
End Handlers.

(** The closure right after the setup. *)
Definition idle {W : Type} (w : W) (e : Editor) : Brush W :=
  mkBrush false false None [] w e.

(** A window that only records the signals, the latest first. *)
Definition record (sig : WindowSignal) (trace : list WindowSignal) : list WindowSignal :=
  sig :: trace.





End BrushInteractions.

(** ** The counters of the selection *)

Module SelectionCounts.
Import Tools.

(** The number of points whose selection code is that of [sel]. *)
Definition marked (sel : Selection) (b : InternalBuffers) : Z :=
  Z.of_nat (length (filter (λ c, c = selection_code sel) (selections b))).

(** The two counters that the editor shows are the numbers of points
    marked for deletion and for restoration. *)
Definition countersAgree (e : Editor) : Prop :=
  ∀ b, buffersRef e = Some b →
    selectedForDelete e = marked MarkedDelete b
    ∧ selectedForRestore e = marked MarkedRestore b.

(** The selection is in order: sets and codes agree, no index is kept
    twice, and the counters are right. *)
Definition wellKept (e : Editor) : Prop :=
  editor_consistent e
  ∧ NoDup (pendingDeleteRef e) ∧ NoDup (pendingRestoreRef e)
  ∧ countersAgree e.
End SelectionCounts.

(** ** render/rendering.ts: [createRenderHelpers], and the overlay effect
    of the editor that uses them *)

Module RenderLoop.
Import Rendering.

(** The refs that the helpers share with the editor, the flag of their
    closure, and what the page has seen of them: the animation frames
    requested and not yet run, and the calls of [renderer.render]. *)
Record Renderer : Type := mkRenderer
  { buffersRef : option InternalBuffers;
    geometryRef : option Tools.Geometry;
    sceneReady : bool;                (* renderer, scene and camera are set *)
    dirtyColorIndicesRef : list Z;
    colorAttrNeedsSyncRef : bool;
    renderPendingRef : bool;
    frameRequests : nat;
    rendered : nat;
    prevOverlayRef : list Z }.

Definition withColors (r : Renderer) (b : option InternalBuffers) (dirty : list Z)
    (sync : bool) : Renderer :=
  mkRenderer b (geometryRef r) (sceneReady r) dirty sync (renderPendingRef r)
    (frameRequests r) (rendered r) (prevOverlayRef r).

(** [flushColorUpdates()] *)
Definition flushColorUpdates (r : Renderer) : Completion unit * Renderer :=
  match buffersRef r with
  | None => (Normal (), r)
  | Some b =>
      if bool_decide (dirtyColorIndicesRef r = []) then (Normal (), r)
      else
        match applyColorForAll (dirtyColorIndicesRef r) b with
        | (Normal _, b') => (Normal (), withColors r (Some b') [] true)
        | (Throw e, b') =>
            (Throw e, withColors r (Some b') (dirtyColorIndicesRef r)
                        (colorAttrNeedsSyncRef r))
        end
  end.

(** [renderScene()] *)
Definition renderScene (r : Renderer) : Completion unit * Renderer :=
  if negb (sceneReady r) then (Normal (), r)
  else
    match flushColorUpdates r with
    | (Throw e, r1) => (Throw e, r1)
    | (Normal _, r1) =>
        let r2 :=
          if colorAttrNeedsSyncRef r1 then
            mkRenderer (buffersRef r1)
              ((λ g, Tools.mkGeometry (Tools.drawRange g) true) <$> geometryRef r1)
              (sceneReady r1) (dirtyColorIndicesRef r1) false (renderPendingRef r1)
              (frameRequests r1) (rendered r1) (prevOverlayRef r1)
          else r1 in
        (Normal (),
         mkRenderer (buffersRef r2) (geometryRef r2) (sceneReady r2) (dirtyColorIndicesRef r2)
           (colorAttrNeedsSyncRef r2) (renderPendingRef r2) (frameRequests r2)
           (S (rendered r2)) (prevOverlayRef r2))
    end.

(** [scheduleRender()] *)
Definition scheduleRender (r : Renderer) : Renderer :=
  if renderPendingRef r then r
  else
    mkRenderer (buffersRef r) (geometryRef r) (sceneReady r) (dirtyColorIndicesRef r)
      (colorAttrNeedsSyncRef r) true (S (frameRequests r)) (rendered r) (prevOverlayRef r).

(** The page runs a requested animation frame:
    [renderPendingRef.current = false; renderScene()]. *)
Definition animationFrame (r : Renderer) : Completion unit * Renderer :=
  match frameRequests r with
  | O => (Normal (), r)
  | S n =>
      renderScene
        (mkRenderer (buffersRef r) (geometryRef r) (sceneReady r) (dirtyColorIndicesRef r)
           (colorAttrNeedsSyncRef r) false n (rendered r) (prevOverlayRef r))
  end.

(** [markColorDirty(index)] *)
Definition markColorDirty (index : Z) (r : Renderer) : Renderer :=
  mkRenderer (buffersRef r) (geometryRef r) (sceneReady r)
    (JsSet.add (dirtyColorIndicesRef r) index) (colorAttrNeedsSyncRef r)
    (renderPendingRef r) (frameRequests r) (rendered r) (prevOverlayRef r).

(** [[0.2, 0.6, 1.0]] *)
Definition overlayColor : Color := (Num (1 # 5), Num (3 # 5), Num 1).

(** The loop of the overlay effect: an index outside the store is
    skipped, the others are tinted and collected in [setLocal]. *)
Definition tintOne (st : InternalBuffers * list Z) (idx : Z) : InternalBuffers * list Z :=
  let '(b, setLocal) := st in
  if (idx <? 0) || (Z.of_nat (length (positions b)) <=? idx * 3) then st
  else (writeColor b idx overlayColor, JsSet.add setLocal idx).

(** The effect of the editor on [mlOverlayVisible] and
    [mlOverlayIndices]. *)
Definition overlayEffect (mlOverlayVisible : bool) (mlOverlayIndices : option (list Z))
    (r : Renderer) : Renderer :=
  match buffersRef r, geometryRef r with
  | Some b, Some _ =>
      let r1 :=
        if bool_decide (prevOverlayRef r = []) then r
        else
          let marked := foldl (λ acc idx, markColorDirty idx acc) r (prevOverlayRef r) in
          mkRenderer (buffersRef marked) (geometryRef marked) (sceneReady marked)
            (dirtyColorIndicesRef marked) (colorAttrNeedsSyncRef marked)
            (renderPendingRef marked) (frameRequests marked) (rendered marked) [] in
      match mlOverlayIndices with
      | Some (idx0 :: rest) =>
          if negb mlOverlayVisible then scheduleRender r1
          else
            let '(b', setLocal) := foldl tintOne (b, []) (idx0 :: rest) in
            scheduleRender
              (mkRenderer (Some b') (geometryRef r1) (sceneReady r1)
                 (dirtyColorIndicesRef r1) true (renderPendingRef r1)
                 (frameRequests r1) (rendered r1) setLocal)
      | _ => scheduleRender r1
      end
  | _, _ => r
  end.

(** What happens to the helpers over time. *)
Inductive RenderEvent : Type :=
  | ScheduleRender
  | AnimationFrame
  | MarkColorDirty (index : Z)
  | Overlay (visible : bool) (indices : option (list Z)).

Definition renderStep (r : Renderer) (ev : RenderEvent) : Renderer :=
  match ev with
  | ScheduleRender => scheduleRender r
  | AnimationFrame => (animationFrame r).2
  | MarkColorDirty index => markColorDirty index r
  | Overlay visible indices => overlayEffect visible indices r
  end.

Definition renderRun (evs : list RenderEvent) (r : Renderer) : Renderer :=
  foldl renderStep r evs.

(** The helpers right after [createRenderHelpers]. *)
Definition fresh (b : option InternalBuffers) (g : option Tools.Geometry) (ready : bool)
    : Renderer :=
  mkRenderer b g ready [] false false 0 0 [].

(** The arrays of [b'] are those of [b], up to the values of the
    colours. *)
Definition sameButColors (b' b : InternalBuffers) : Prop :=
  positions b' = positions b ∧ status b' = status b ∧ selections b' = selections b
  ∧ intensities b' = intensities b ∧ lodIndex b' = lodIndex b
  ∧ length (colors b') = length (colors b).

(** The point [index] lies in the store and its codes are known ones. *)
Definition paintable (b : InternalBuffers) (index : Z) : Prop :=
  0 ≤ index ∧ index * 3 + 2 < Z.of_nat (length (colors b))
  ∧ (∃ st, elem (status b) index = Some st)
  ∧ (∃ sel, elem (selections b) index = Some (selection_code sel)).
End RenderLoop.

(** ** pages/DatasetDetail.tsx: the classes and the mask of the ML preview *)

Module DatasetDetail.

(** [DETECTABLE_CLASSES.map((opt) => opt.value)] *)
Definition CLASS_ORDER : list string :=
  ["car"; "person"; "vegetation"; "wire"; "pole"; "ground"; "other"].

(** [normaliseClasses(values)]: membership in [new Set(values)] is
    membership in [values]. *)
Definition normaliseClasses (values : list string) : list string :=
  filter (λ value, value ∈ values) CLASS_ORDER.

(** [for (let i = 0; i < a.length; i++) if (a[i] !== b[i]) return false],
    [rounds] iterations being left. *)
Fixpoint arraysEqualFrom (a b : list string) (i rounds : nat) : bool :=
  match rounds with
  | O => true
  | S rounds' =>
      if bool_decide (a !! i ≠ b !! i) then false else arraysEqualFrom a b (S i) rounds'
  end.

Definition arraysEqual (a b : list string) : bool :=
  if bool_decide (length a ≠ length b) then false
  else arraysEqualFrom a b 0 (length a).

Definition DEFAULT_CLASS_SELECTION : list string :=
  normaliseClasses ["car"; "person"; "vegetation"; "wire"; "pole"].

(** [toggleDetectClass(value, checked)], on the previous selection. *)
Definition toggleDetectClass (value : string) (checked : bool) (prev : list string)
    : list string :=
  let next := remove_dups prev in
  normaliseClasses
    (if checked then (if bool_decide (value ∈ next) then next else next ++ [value])
     else filter (λ u, u ≠ value) next).

(** api/ml.ts: [PreviewDetail] *)
Record PreviewDetail : Type := mkPreviewDetail
  { num_points : Z;
    labels : list string;
    clusters : list (list Z);
    selected_classes : option (list string) }.

(** The loop of [mlOverlayIndices] over the labels, [i] being the index
    of the first label of the list and [aggregated] the set so far. *)
Fixpoint aggregateFrom (ls : list string) (i : nat) (cs : list (list Z))
    (allowed : list string) (aggregated : list Z) : list Z :=
  match ls with
  | [] => aggregated
  | label :: rest =>
      aggregateFrom rest (S i) cs allowed
        (if bool_decide (label ∈ allowed)
         then foldl JsSet.add aggregated (default [] (cs !! i))   (* [clusters[i] || []] *)
         else aggregated)
  end.

(** The memo [mlOverlayIndices]. *)
Definition mlOverlayIndices (mlDetail : option PreviewDetail) (mlOverlayClasses : list string)
    : list Z :=
  match mlDetail with
  | None => []
  | Some detail =>
      if bool_decide (mlOverlayClasses = []) then []
      else
        js_sort (λ a b, a - b)
          (aggregateFrom (labels detail) 0 (clusters detail) mlOverlayClasses [])
  end.

Record Session : Type := mkSession { session_id : string; version : Z }.

Inductive MaskLog : Type :=
  | MaskSessionError (error : JsError)   (* [console.error("ml.delete-mask.session", error)] *)
  | MaskError (error : JsError).         (* [console.error("ml.delete-mask", error)] *)

(** What a call of [handleApplyMask] leaves behind. *)
Record MaskRun (Srv : Type) : Type := mkMaskRun
  { sent : list Tools.AppendRequest;
    backendAfter : Srv;
    logged : list MaskLog }.
Arguments mkMaskRun {Srv}.
Arguments sent {Srv}.
Arguments backendAfter {Srv}.
Arguments logged {Srv}.

(** [handleApplyMask()]; [createSession] stands for
    [handleCreateSession], [None] for a loop that runs out of rounds. *)
Definition handleApplyMask {Srv : Type}
    (appendOps : Srv → Tools.AppendRequest → Completion unit * Srv)
    (createSession : Srv → Completion Session * Srv)
    (mlDetail : option PreviewDetail) (mlOverlayClasses : list string)
    (activeSession : option Session) (srv : Srv) : option (MaskRun Srv) :=
  let sortedIndices := mlOverlayIndices mlDetail mlOverlayClasses in
  match mlDetail with
  | None => Some (mkMaskRun [] srv [])
  | Some _ =>
      if bool_decide (mlOverlayClasses = []) || bool_decide (sortedIndices = [])
      then Some (mkMaskRun [] srv [])
      else
        let '(created, srv1) :=
          match activeSession with
          | Some s => (Normal s, srv)
          | None => createSession srv
          end in
        match created with
        | Throw error => Some (mkMaskRun [] srv1 [MaskSessionError error])
        | Normal sessionToUse =>
            match Tools.submitChunks appendOps (Z.to_nat MAX_INDICES_PER_OP)
                    (length sortedIndices) (session_id sessionToUse)
                    (Tools.mkOp "delete" sortedIndices) 0 (version sessionToUse) srv1 [] with
            | None => None
            | Some sub =>
                Some (mkMaskRun (Tools.calls sub) (Tools.server sub)
                        match Tools.outcome sub with
                        | Throw error => [MaskError error]
                        | Normal _ => []
                        end)
            end
        end
  end.
End DatasetDetail.

(** ** Data of the scenarios: a load with a failure *)

Module LoadScenario.
Import LoadTiles.

(** A tile of one point, ahead of the tile of two points and followed by
    a second tile of one point: four points in all. *)
Definition tileAt0 : Tile.t := Tile.mk "tile0" 0 0 0 "tiles/0" 1 0.
Definition tileAt3 : Tile.t := Tile.mk "tile3" 0 2 0 "tiles/3" 1 3.
Definition threeTiles : list Tile.t := [tileAt0; Payloads.tileAt1; tileAt3].

Definition header1 : list byte :=
  [x44; x43; x54; x50; x01; x00; x01; x00; x00; x00].
Definition onePoint : list byte := header1 ++ Payloads.record1.

(** The last tile arrives first, the fetch of the middle tile fails, the
    first tile arrives last. *)
Definition arrival3 : Arrival := mkArrival tileAt3 (Payload onePoint) (Normal false).
Definition failure1 : Arrival :=
  mkArrival Payloads.tileAt1 (FetchFailed (Rejected "Failed to load tile")) (Normal false).
Definition arrival0 : Arrival := mkArrival tileAt0 (Payload onePoint) (Normal false).

Definition lossyRun : list LoadEvent := [Arrives arrival3; Arrives failure1; Arrives arrival0].

(** The same arrivals with the middle tile delivered in the end. *)
Definition arrival1 : Arrival :=
  mkArrival Payloads.tileAt1 (Payload Payloads.twoPoints) (Normal false).

Definition fullRun : list LoadEvent := lossyRun ++ [Arrives arrival1].

Definition emptyGeometry : Tools.Geometry := Tools.mkGeometry (0, 0) false.

(** Helpers whose dirty set names point 4 when the store holds only
    three points. *)
Definition staleRenderer : RenderLoop.Renderer :=
  RenderLoop.mkRenderer (Some (Tools.allocateBuffers 3)) (Some emptyGeometry) true
    [1; 4] false false 0 0 [].

(** Helpers whose dirty set names two points of a store of three. *)
Definition tidyRenderer : RenderLoop.Renderer :=
  RenderLoop.mkRenderer (Some (Tools.allocateBuffers 3)) (Some emptyGeometry) true
    [2; 1] false false 0 0 [].

Definition freshLoader : Loader :=
  initialLoader threeTiles (Tools.allocateBuffers 4) emptyGeometry 0 false.

(** An editor of four points in which point 1 is marked for deletion. *)
Definition markedEditor : Tools.Editor :=
  (Tools.applyBrush [Some 1] Tool.delete (Tools.allocatedEditor 4 0)).2.
End LoadScenario.

(** ** The sets that a tool marks and unmarks *)

Module Stroke.
Import Tools.

(** The pending set that the tool adds to, and the one it removes from. *)
Definition marks (tool : Tool.t) (e : Editor) : list Z :=
  match tool with
  | Tool.restore => pendingRestoreRef e
  | _ => pendingDeleteRef e
  end.

Definition unmarks (tool : Tool.t) (e : Editor) : list Z :=
  match tool with
  | Tool.restore => pendingDeleteRef e
  | _ => pendingRestoreRef e
  end.
End Stroke.

(** ** Data of the scenarios: a tile list that changes *)

Module ReloadScenario.
(** The tile list of a store of four points while its last tile is not
    listed yet; [LoadScenario.threeTiles] is the list once it is. *)
Definition twoTiles : list Tile.t := [LoadScenario.tileAt0; Payloads.tileAt1].
End ReloadScenario.

(** ** Data of the scenarios: a stroke of the brush *)

Module BrushScenario.
Import BrushInteractions.

(** The left button goes down on point 1, the pointer is dragged over the
    points 2 and 1, and the button is released. *)
Definition press : PointerEvent := mkPointerEvent 0 1 false false false false 7 [Some 1; None].
Definition drag : PointerEvent := mkPointerEvent 0 1 false false false false 7 [Some 2; Some 1].
Definition release : PointerEvent := mkPointerEvent 0 0 false false false false 7 [].

Definition stroke : list Pointer := [PointerDown press; PointerMove drag; PointerUp release].
End BrushScenario.

(* ===================================================================== *)
(** * Part II: properties                                                 *)
(* ===================================================================== *)

(** ** The sort *)

Section JsSortFacts.
Context {A : Type} (key : A → Z).
Let cmp (a b : A) : Z := key a - key b.

Lemma sort_insert_perm a l : sort_insert cmp a l ≡ₚ a :: l.
Proof.
  induction l as [|b r IH]; simpl; [done|].
  destruct (cmp b a <? 0); [|done].
  rewrite IH. apply Permutation_swap.
Qed.

Lemma js_sort_perm l : js_sort cmp l ≡ₚ l.
Proof.
  induction l as [|a l IH]; simpl; [done|].
  by rewrite sort_insert_perm, IH.
Qed.

Lemma key_sorted_cons a l :
  key_sorted key (a :: l) ↔ (∀ b, b ∈ l → key a ≤ key b) ∧ key_sorted key l.
Proof.
  split.
  - intros H. split.
    + intros b [j Hj]%list_elem_of_lookup.
      apply (H 0%nat (S j) a b); [lia|done|done].
    + intros i j x y' Hij Hi Hj. apply (H (S i) (S j)); [lia|done|done].
  - intros [Hhd Htl] i j x y' Hij Hi Hj.
    destruct i as [|i], j as [|j]; simpl in *; simplify_eq; try lia.
    + apply Hhd. by eapply list_elem_of_lookup_2.
    + apply (Htl i j); [lia|done|done].
Qed.

Lemma sort_insert_sorted a l : key_sorted key l → key_sorted key (sort_insert cmp a l).
Proof.
  induction l as [|b r IH]; simpl; intros Hs.
  - apply key_sorted_cons. split; [by intros ? ?%elem_of_nil|done].
  - apply key_sorted_cons in Hs as [Hhd Htl].
    destruct (Z.ltb_spec (cmp b a) 0) as [Hlt|Hge];
      [unfold cmp in Hlt|unfold cmp in Hge].
    + apply key_sorted_cons. split; [|by apply IH].
      intros c Hc. rewrite sort_insert_perm in Hc.
      apply elem_of_cons in Hc as [->|Hc]; [lia|by apply Hhd].
    + apply key_sorted_cons. split.
      * intros c [->|Hc]%elem_of_cons; [lia|]. specialize (Hhd c Hc). lia.
      * apply key_sorted_cons. by split.
Qed.

Lemma js_sort_sorted l : key_sorted key (js_sort cmp l).
Proof.
  induction l as [|a l IH]; simpl.
  - by intros i j a b _ ?.
  - by apply sort_insert_sorted.
Qed.
End JsSortFacts.

(** ** The contiguous draw range *)

Section DrawRange.
Import TilesLoader.
Context (points_total : Z) (tiles : list Tile.t).
Hypothesis ids_distinct : NoDup (Tile.id <$> tiles).

Lemma sortedTiles_perm : sortedTiles tiles ≡ₚ tiles.
Proof. apply (js_sort_perm Tile.base_index). Qed.

Lemma sortedTiles_sorted : key_sorted Tile.base_index (sortedTiles tiles).
Proof. apply (js_sort_sorted Tile.base_index). Qed.

Lemma sortedTiles_ids_distinct : NoDup (Tile.id <$> sortedTiles tiles).
Proof. by rewrite sortedTiles_perm. Qed.

Lemma foldl_entries_other (l : list (string * nat)) (m : gmap string nat) key :
  key ∉ l.*1 → foldl (λ m e, <[e.1 := e.2]> m) m l !! key = m !! key.
Proof.
  revert m. induction l as [|[k' v] l IH]; intros m Hk; simpl in *; [done|].
  apply not_elem_of_cons in Hk as [Hne Hk].
  rewrite IH by done. by rewrite lookup_insert_ne.
Qed.

Lemma foldl_entries_lookup (l : list Tile.t) (g : nat → nat) (m : gmap string nat) k u :
  NoDup (Tile.id <$> l) → l !! k = Some u →
  foldl (λ m e, <[e.1 := e.2]> m) m (imap (λ i t, (Tile.id t, g i)) l) !! Tile.id u
  = Some (g k).
Proof.
  revert g m k. induction l as [|a l IH]; intros g m k Hnd Hk; [done|].
  rewrite fmap_cons in Hnd. apply NoDup_cons in Hnd as [Hnotin Hnd].
  destruct k as [|k]; simpl in *.
  - simplify_eq. rewrite foldl_entries_other.
    + by rewrite lookup_insert_eq.
    + intros Hin. apply Hnotin.
      apply list_elem_of_fmap in Hin as [[k' v] [Heq Hin]]. simpl in Heq. subst k'.
      apply list_elem_of_lookup in Hin as [j Hj].
      apply list_lookup_imap_Some in Hj as (t & Ht & Heq).
      unfold compose in Heq. injection Heq as Hid _.
      apply list_elem_of_fmap. exists t. split; [done|].
      by eapply list_elem_of_lookup_2.
  - apply (IH (g ∘ S)); done.
Qed.

Lemma indexById_sorted k u :
  sortedTiles tiles !! k = Some u → indexById tiles !! Tile.id u = Some k.
Proof.
  intros Hk. unfold indexById.
  apply (foldl_entries_lookup _ (λ i, i)); [apply sortedTiles_ids_distinct|done].
Qed.

Lemma skipLoaded_spec fl h :
  let h' := skipLoaded fl h in
  (h ≤ h')%nat ∧ (∀ k, (k < h' - h)%nat → fl !! k = Some true)
  ∧ fl !! (h' - h)%nat ≠ Some true.
Proof.
  revert h. induction fl as [|b fl IH]; intros h; simpl.
  - split; [lia|]. split; [intros k; lia|done].
  - destruct b; simpl.
    + destruct (IH (S h)) as (Hle & Hall & Hstop).
      split; [lia|]. split.
      * intros [|k] Hk; [done|]. simpl. apply Hall. lia.
      * replace (skipLoaded fl (S h) - h)%nat
          with (S (skipLoaded fl (S h) - S h)) by lia.
        done.
    + split; [lia|]. split; [intros k; lia|].
      by replace (h - h)%nat with 0%nat by lia.
  Qed.

Lemma advance_spec fl h :
  (∀ k, (k < h)%nat → fl !! k = Some true) →
  let h' := skipLoaded (drop h fl) h in
  (∀ k, (k < h')%nat → fl !! k = Some true) ∧ fl !! h' ≠ Some true.
Proof.
  intros Hbelow. destruct (skipLoaded_spec (drop h fl) h) as (Hle & Hall & Hstop).
  simpl. split.
  - intros k Hk. destruct (decide (k < h)%nat) as [Hlt|Hge]; [by apply Hbelow|].
    specialize (Hall (k - h)%nat). rewrite lookup_drop in Hall.
    replace (h + (k - h))%nat with k in Hall by lia. apply Hall. lia.
  - rewrite lookup_drop in Hstop.
    by replace (h + (skipLoaded (drop h fl) h - h))%nat
      with (skipLoaded (drop h fl) h) in Hstop by lia.
Qed.

Lemma initLoadState_tracks : tracks tiles [] (initLoadState tiles).
Proof.
  split; simpl.
  - intros k u Hk. split; [|by intros ?%elem_of_nil].
    intros [Hf _]%lookup_replicate. done.
  - intros k; lia.
Qed.

Lemma tileCompleted_tracks done s t :
  t ∈ tiles → tracks tiles done s → length (loadedFlags s) = length (sortedTiles tiles) →
  let s' := tileCompleted points_total tiles s t in
  tracks tiles (done ++ [t]) s' ∧ published points_total tiles s'
  ∧ length (loadedFlags s') = length (sortedTiles tiles).
Proof.
  intros Ht [Hflags Hhead] Hlen.
  assert (∃ kt, sortedTiles tiles !! kt = Some t) as [kt Hkt].
  { apply list_elem_of_lookup. by rewrite sortedTiles_perm. }
  unfold tileCompleted. rewrite (indexById_sorted _ _ Hkt).
  unfold updateDrawRangeForContiguousPrefix. simpl.
  set (fl := <[kt:=true]> (loadedFlags s)).
  assert (Hkt_lt : (kt < length (loadedFlags s))%nat).
  { rewrite Hlen. by eapply lookup_lt_Some. }
  assert (Hbelow : ∀ k, (k < headIdx s)%nat → fl !! k = Some true).
  { intros k Hk. unfold fl. destruct (decide (k = kt)) as [->|Hne].
    - by rewrite list_lookup_insert_eq.
    - rewrite list_lookup_insert_ne by done. by apply Hhead. }
  destruct (advance_spec fl (headIdx s) Hbelow) as [Hall Hstop].
  split; [split|split]; simpl.
  - intros k u Hk. unfold fl. rewrite elem_of_app, list_elem_of_singleton.
    destruct (decide (k = kt)) as [->|Hne].
    + rewrite list_lookup_insert_eq by done.
      assert (u = t) as -> by congruence. split; [by right|done].
    + rewrite list_lookup_insert_ne by done. rewrite (Hflags k u Hk).
      split; [by left|]. intros [?| ->]; [done|].
      exfalso. apply Hne.
      assert (Hnd : NoDup (sortedTiles tiles)).
      { eapply NoDup_fmap_1, sortedTiles_ids_distinct. }
      by eapply NoDup_lookup.
  - exact Hall.
  - by repeat split.
  - unfold fl. by rewrite length_insert.
Qed.

Lemma afterCompletions_tracks done :
  (∀ u, u ∈ done → u ∈ tiles) →
  let s := afterCompletions points_total tiles done in
  tracks tiles done s ∧ (done ≠ [] → published points_total tiles s)
  ∧ length (loadedFlags s) = length (sortedTiles tiles).
Proof.
  unfold afterCompletions.
  induction done as [|t done IH] using rev_ind; intros Hsub.
  - simpl. split; [apply initLoadState_tracks|]. split; [done|].
    by rewrite length_replicate.
  - rewrite foldl_snoc.
    destruct IH as (Htr & _ & Hlen).
    { intros u Hu. apply Hsub, elem_of_app. by left. }
    assert (Ht : t ∈ tiles).
    { apply Hsub, elem_of_app. right. by apply list_elem_of_singleton. }
    destruct (tileCompleted_tracks done _ t Ht Htr Hlen) as (? & ? & ?).
    done.
Qed.

(** [C1] After each completion of a tile, whatever the order in which the
    tiles complete, the draw range is [[0, P)], where [P] is the
    [base_index] of the first tile, in [base_index] order, that has not
    completed, and [points_total] once every tile has completed; no index
    of a tile that has not completed lies in the range.  Tiles are
    identified by [id], so the ids of the list are pairwise distinct. *)
Theorem draw_range_is_contiguous_loaded_prefix (done : list Tile.t) (t : Tile.t) :
  (∀ u, u ∈ done ++ [t] → u ∈ tiles) →
  let loaded := done ++ [t] in
  let s := afterCompletions points_total tiles loaded in
  drawStart s = 0
  ∧ drawCount s
    = match list_find (λ u, u ∉ loaded) (sortedTiles tiles) with
      | Some (_, u) => Tile.base_index u
      | None => points_total
      end
  ∧ ((∀ u, u ∈ tiles → u ∈ loaded) → drawCount s = points_total)
  ∧ ((∃ u, u ∈ tiles ∧ u ∉ loaded) →
     ∃ u, u ∈ tiles ∧ (u ∉ loaded) ∧ drawCount s = Tile.base_index u)
  ∧ (∀ u, u ∈ tiles → u ∉ loaded →
       drawCount s ≤ Tile.base_index u
       ∧ ∀ i, Tile.base_index u ≤ i < Tile.base_index u + Tile.points u →
              ¬ (drawStart s ≤ i < drawStart s + drawCount s)).
Proof.
  intros Hsub loaded s.
  destruct (afterCompletions_tracks loaded Hsub) as ([Hflags Hhead] & Hpub & Hlen).
  destruct Hpub as (Hstop & Hstart & Hcount).
  { unfold loaded. by destruct done. }
  fold s in Hflags, Hhead, Hstop, Hstart, Hcount, Hlen.
  assert (Hfind : drawCount s
    = match list_find (λ u, u ∉ loaded) (sortedTiles tiles) with
      | Some (_, u) => Tile.base_index u
      | None => points_total
      end).
  { rewrite Hcount.
    destruct (sortedTiles tiles !! headIdx s) as [u|] eqn:Hu.
    - assert (list_find (λ u, u ∉ loaded) (sortedTiles tiles) = Some (headIdx s, u))
        as ->; [|done].
      apply list_find_Some. split; [done|]. split.
      + intros Hin. apply Hstop. by apply (Hflags _ _ Hu).
      + intros j v Hv Hj. intros Hnot. apply Hnot.
        apply (Hflags _ _ Hv). by apply Hhead.
    - assert (list_find (λ u, u ∉ loaded) (sortedTiles tiles) = None) as ->; [|done].
      apply list_find_None, Forall_forall. intros v [j Hv]%list_elem_of_lookup Hnot.
      apply Hnot, (Hflags _ _ Hv), Hhead.
      apply lookup_ge_None in Hu. apply lookup_lt_Some in Hv. lia. }
  split; [done|]. split; [done|]. split; [|split].
  - intros Hall. rewrite Hcount.
    destruct (sortedTiles tiles !! headIdx s) as [u|] eqn:Hu; [|done].
    exfalso. apply Hstop, (Hflags _ _ Hu), Hall.
    rewrite <- sortedTiles_perm. by eapply list_elem_of_lookup_2.
  - intros (u0 & Hu0 & Hnot0). rewrite Hcount.
    destruct (sortedTiles tiles !! headIdx s) as [v|] eqn:Hv.
    + exists v. split; [|split; [|done]].
      * rewrite <- sortedTiles_perm. by eapply list_elem_of_lookup_2.
      * intros Hin. by apply Hstop, (Hflags _ _ Hv).
    + exfalso. apply Hnot0.
      assert (∃ k, sortedTiles tiles !! k = Some u0) as [k Hk].
      { apply list_elem_of_lookup. by rewrite sortedTiles_perm. }
      apply (Hflags _ _ Hk), Hhead.
      apply lookup_ge_None in Hv. apply lookup_lt_Some in Hk. lia.
  - intros u Hu Hnot.
    assert (∃ k, sortedTiles tiles !! k = Some u) as [k Hk].
    { apply list_elem_of_lookup. by rewrite sortedTiles_perm. }
    assert (Hge : (headIdx s ≤ k)%nat).
    { destruct (decide (headIdx s ≤ k)%nat) as [|Hlt]; [done|].
      exfalso. apply Hnot, (Hflags _ _ Hk), Hhead. lia. }
    assert (Hle : drawCount s ≤ Tile.base_index u).
    { rewrite Hcount.
      destruct (sortedTiles tiles !! headIdx s) as [v|] eqn:Hv.
      - by apply (sortedTiles_sorted (headIdx s) k).
      - apply lookup_ge_None in Hv. apply lookup_lt_Some in Hk. lia. }
    split; [done|]. intros i Hi. rewrite Hstart. lia.
Qed.
End DrawRange.

Section DrawRangeExamples.
Import TilesLoader Examples.

Lemma draw_range_is_contiguous_loaded_prefix_witness :
  let tiles := [t0; t1; t2] in
  let loaded := [t2] ++ [t0] in
  let s := afterCompletions 3000 tiles loaded in
  drawStart s = 0
  ∧ drawCount s
    = match list_find (λ u, u ∉ loaded) (sortedTiles tiles) with
      | Some (_, u) => Tile.base_index u
      | None => 3000
      end
  ∧ ((∀ u, u ∈ tiles → u ∈ loaded) → drawCount s = 3000)
  ∧ ((∃ u, u ∈ tiles ∧ u ∉ loaded) →
     ∃ u, u ∈ tiles ∧ (u ∉ loaded) ∧ drawCount s = Tile.base_index u)
  ∧ (∀ u, u ∈ tiles → u ∉ loaded →
       drawCount s ≤ Tile.base_index u
       ∧ ∀ i, Tile.base_index u ≤ i < Tile.base_index u + Tile.points u →
              ¬ (drawStart s ≤ i < drawStart s + drawCount s)).
Proof.
  apply (draw_range_is_contiguous_loaded_prefix 3000 [t0; t1; t2]).
  - compute_done.
  - intros u Hu.
    apply elem_of_app in Hu as [Hu|Hu]; apply list_elem_of_singleton in Hu as ->;
      compute_done.
Defined.

(** Three tiles of 1000 points that complete in the order tile2, tile0,
    tile1: the draw range holds 0, then 1000, then all 3000 points. *)
Example draw_range_tile2_tile0_tile1 :
  drawCount (afterCompletions 3000 [t0; t1; t2] [t2]) = 0
  ∧ drawCount (afterCompletions 3000 [t0; t1; t2] [t2; t0]) = 1000
  ∧ drawCount (afterCompletions 3000 [t0; t1; t2] [t2; t0; t1]) = 3000.
Proof. by vm_compute. Qed.
End DrawRangeExamples.

(** ** Tile parsing *)

Section ParseTile.
Import TileParser.

(** [C3] A buffer whose first four bytes, read little-endian, are not the
    magic constant makes [parseTile] throw, and the buffers are left as
    they were: positions, colours, status, selections, intensities and
    LOD indices are the arrays given. *)
Theorem parseTile_bad_magic_throws_unchanged
    (buffer : list byte) (tile : Tile.t) (buffers : InternalBuffers) (box : Box3) (magic : Z) :
  DataView.getUint32 buffer 0 = Normal magic →
  magic ≠ MAGIC →
  ∃ buffers',
    parseTile buffer tile buffers box = (Throw (UnexpectedTileMagic magic), buffers', box)
    ∧ positions buffers' = positions buffers
    ∧ colors buffers' = colors buffers
    ∧ status buffers' = status buffers
    ∧ selections buffers' = selections buffers
    ∧ intensities buffers' = intensities buffers
    ∧ lodIndex buffers' = lodIndex buffers.
Proof.
  intros Hread Hne. exists buffers. unfold parseTile. rewrite Hread.
  rewrite bool_decide_eq_true_2 by done. by repeat split.
Qed.

Lemma parseTile_bad_magic_witness :
  ∃ buffers',
    parseTile [x00; x01; x02; x03; x00; x00; x00; x00; x00; x00]
      (Tile.mk "t0" 0 0 0 "tiles/0" 0 0)
      (mkBuffers [F32bits 0; F32bits 0; F32bits 0] [Num 0; Num 0; Num 0] [0] [0] None (Some [0]))
      []
    = (Throw (UnexpectedTileMagic 0x03020100), buffers', [])
    ∧ positions buffers' = [F32bits 0; F32bits 0; F32bits 0]
    ∧ colors buffers' = [Num 0; Num 0; Num 0]
    ∧ status buffers' = [0]
    ∧ selections buffers' = [0]
    ∧ intensities buffers' = None
    ∧ lodIndex buffers' = Some [0].
Proof.
  apply (parseTile_bad_magic_throws_unchanged
           [x00; x01; x02; x03; x00; x00; x00; x00; x00; x00]
           (Tile.mk "t0" 0 0 0 "tiles/0" 0 0)
           (mkBuffers [F32bits 0; F32bits 0; F32bits 0] [Num 0; Num 0; Num 0]
              [0] [0] None (Some [0]))
           [] 0x03020100).
  - reflexivity.
  - unfold MAGIC. lia.
Defined.

(** A buffer too short to hold the magic is rejected as well, by the
    bounds check of the view, and nothing is written either. *)
Lemma parseTile_short_buffer buffer tile buffers box :
  (length buffer < 4)%nat →
  parseTile buffer tile buffers box = (Throw RangeError, buffers, box).
Proof.
  intros Hlen. unfold parseTile, DataView.getUint32, DataView.byteAt.
  destruct buffer as [|b0 [|b1 [|b2 [|b3 rest]]]]; simpl in *; try done. lia.
Qed.

(** The magic constant is what the four bytes ["DCTP"] read as. *)
Example parseTile_empty_tile_accepted :
  parseTile [x44; x43; x54; x50; x01; x00; x00; x00; x00; x00]
    (Tile.mk "t0" 0 0 0 "tiles/0" 0 0)
    (mkBuffers [] [] [] [] None None) []
  = (Normal (), mkBuffers [] [] [] [] None None, []).
Proof. reflexivity. Qed.
End ParseTile.

(** ** Display colour *)

Section DisplayColor.
Import Rendering.

Lemma elem_setElem_eq {A} (arr : list A) i v :
  0 ≤ i < Z.of_nat (length arr) → elem (setElem arr i v) i = Some v.
Proof.
  intros Hi. unfold elem, setElem.
  destruct (Z.ltb_spec i 0); [lia|].
  apply list_lookup_insert_eq. lia.
Qed.

Lemma elem_setElem_ne {A} (arr : list A) i j v :
  i ≠ j → elem (setElem arr i v) j = elem arr j.
Proof.
  intros Hne. unfold elem, setElem.
  destruct (Z.ltb_spec i 0), (Z.ltb_spec j 0); try done.
  apply list_lookup_insert_ne. lia.
Qed.

Lemma length_setElem {A} (arr : list A) i v : length (setElem arr i v) = length arr.
Proof. unfold setElem. destruct (i <? 0); [done|apply length_insert]. Qed.

Lemma elem_Some_range {A} (arr : list A) i v :
  elem arr i = Some v → 0 ≤ i < Z.of_nat (length arr).
Proof.
  unfold elem. destruct (Z.ltb_spec i 0); [done|].
  intros ?%lookup_lt_Some. lia.
Qed.

Lemma colorAt_writeColor b index c :
  0 ≤ index → index * 3 + 2 < Z.of_nat (length (colors b)) →
  colorAt (writeColor b index c) index = Some c.
Proof.
  intros H0 Hlen. destruct c as [[r g] bl]. unfold colorAt, writeColor. simpl.
  rewrite elem_setElem_ne, elem_setElem_ne by lia.
  rewrite elem_setElem_eq by lia.
  rewrite elem_setElem_ne by lia.
  rewrite elem_setElem_eq by (rewrite length_setElem; lia).
  rewrite elem_setElem_eq by (rewrite !length_setElem; lia).
  done.
Qed.

Lemma colorAt_writeColor_ne b idx idx' c :
  idx ≠ idx' → colorAt (writeColor b idx' c) idx = colorAt b idx.
Proof.
  intros Hne. destruct c as [[r g] bl]. unfold colorAt, writeColor. simpl.
  by rewrite !elem_setElem_ne by lia.
Qed.

(** [Math.max(v / 255, 0.15)] is the larger of the two numbers. *)
Lemma Math_max_intensity (v : Z) :
  Math_max (Num (v # 255)) (Num (3 # 20))
  = if Qlt_le_dec (3 # 20) (v # 255) then Num (v # 255) else Num (3 # 20).
Proof.
  unfold Math_max. destruct (Qlt_le_dec (3 # 20) (v # 255)) as [Hlt|Hle].
  - destruct (Qle_bool (v # 255) (3 # 20)) eqn:Hb; [|done].
    apply Qle_bool_iff in Hb. by apply Qlt_not_le in Hlt.
  - by rewrite (proj2 (Qle_bool_iff _ _) Hle).
Qed.

(** [C6] For a point of the store, the colour that [applyBaseColor]
    computes is the selection colour when the point is selected; when it
    is not, the deleted gray if its status is deleted, and otherwise the
    gray derived from its intensity: the larger of [intensity / 255] and
    0.15 when the store keeps intensities, and 0.35 when it keeps none.
    A deleted point marked for deletion therefore shows the selection
    tint. *)
Theorem display_color_precedence
    (b : InternalBuffers) (index : Z) (st : Status) (sel : Selection) :
  elem (status b) index = Some (status_code st) →
  elem (selections b) index = Some (selection_code sel) →
  index * 3 + 2 < Z.of_nat (length (colors b)) →
  let intensityGray : JsNum :=
    match intensities b with
    | None => Num (7 # 20)
    | Some ints =>
        match elem ints index with
        | Some v => if Qlt_le_dec (3 # 20) (v # 255) then Num (v # 255) else Num (3 # 20)
        | None => NaN
        end
    end in
  let shown :=
    match sel, st with
    | MarkedDelete, _ => (Num 1, Num (1 # 4), Num (1 # 4))
    | MarkedRestore, _ => (Num (1 # 5), Num 1, Num (1 # 5))
    | SelNone, Deleted => (Num (1 # 5), Num (1 # 5), Num (1 # 5))
    | SelNone, Alive => (intensityGray, intensityGray, intensityGray)
    end in
  ∃ b',
    applyBaseColor index b true = (Normal (), b')
    ∧ colorAt b' index = Some shown
    ∧ (st = Deleted → sel = MarkedDelete →
       colorAt b' index = Some (Num 1, Num (1 # 4), Num (1 # 4))).
Proof.
  intros Hst Hsel Hlen intensityGray shown.
  pose proof (elem_Some_range _ _ _ Hst) as [H0 _].
  assert (Hgray : baseShade b index = intensityGray).
  { unfold baseShade, intensityGray. destruct (intensities b) as [ints|]; [|done].
    destruct (elem ints index) as [v|]; [|done]. apply Math_max_intensity. }
  exists (writeColor b index shown).
  assert (Hrun : applyBaseColor index b true = (Normal (), writeColor b index shown)).
  { unfold applyBaseColor. rewrite Hgray, Hst, Hsel. simpl.
    destruct sel, st; reflexivity. }
  split; [done|]. split.
  - by apply colorAt_writeColor.
  - intros -> ->. by apply colorAt_writeColor.
Qed.

Lemma display_color_precedence_witness :
  ∃ b',
    applyBaseColor 0 (mkBuffers [F32bits 0; F32bits 0; F32bits 0]
                        [Num 0; Num 0; Num 0] [1] [1] None None) true
    = (Normal (), b')
    ∧ colorAt b' 0 = Some (Num 1, Num (1 # 4), Num (1 # 4))
    ∧ (Deleted = Deleted → MarkedDelete = MarkedDelete →
       colorAt b' 0 = Some (Num 1, Num (1 # 4), Num (1 # 4))).
Proof.
  apply (display_color_precedence
           (mkBuffers [F32bits 0; F32bits 0; F32bits 0]
              [Num 0; Num 0; Num 0] [1] [1] None None) 0 Deleted MarkedDelete).
  - reflexivity.
  - reflexivity.
  - simpl. lia.
Defined.

(** The lowest tier on points that are alive and not selected: intensity
    10 is below the floor and gives 0.15, intensity 100 gives 100/255, and
    a store without intensities gives 0.35. *)
Example intensity_derived_gray :
  let withInts := mkBuffers (replicate 6 (F32bits 0)) (replicate 6 (Num 0)) [0; 0] [0; 0]
                    (Some [10; 100]) None in
  let without := mkBuffers (replicate 6 (F32bits 0)) (replicate 6 (Num 0)) [0; 0] [0; 0]
                   None None in
  colorAt (applyBaseColor 0 withInts true).2 0 = Some (gray (Num (3 # 20)))
  ∧ colorAt (applyBaseColor 1 withInts true).2 1 = Some (gray (Num (100 # 255)))
  ∧ colorAt (applyBaseColor 1 without true).2 1 = Some (gray (Num (7 # 20))).
Proof. by vm_compute. Qed.
End DisplayColor.

(** ** The brush and the pending sets *)

Section Brush.
Import Rendering Tools.

Lemma JsSet_elem_of_add s x v : v ∈ JsSet.add s x ↔ v = x ∨ v ∈ s.
Proof.
  unfold JsSet.add, JsSet.has. case_bool_decide as Hin.
  - split; [by right|]. by intros [->|?].
  - rewrite elem_of_app, list_elem_of_singleton. tauto.
Qed.

Lemma JsSet_elem_of_remove s x v : v ∈ JsSet.remove s x ↔ v ≠ x ∧ v ∈ s.
Proof. unfold JsSet.remove. by rewrite list_elem_of_filter. Qed.

(** [C10] An index below zero or at or beyond the number of points is
    ignored by [updateSelection]: the pending sets and the buffers, the
    selection codes among them, are returned as they were given. *)
Theorem updateSelection_ignores_out_of_range
    (index : Z) (toolCode : option Z) (pd pr : list Z) (b : InternalBuffers) :
  ¬ (0 ≤ index < Z.of_nat (length (selections b))) →
  updateSelection index toolCode pd pr b = (pd, pr, b).
Proof.
  intros Hout. unfold updateSelection. destruct toolCode as [code|]; [|done].
  destruct (Z.ltb_spec index 0); [done|].
  destruct (Z.leb_spec (Z.of_nat (length (selections b))) index); [done|lia].
Qed.

Lemma updateSelection_ignores_out_of_range_witness :
  updateSelection 5 (Some 1) [0] [1]
    (mkBuffers (replicate 6 (F32bits 0)) (replicate 6 (Num 0)) [0; 0] [1; 2] None None)
  = ([0], [1],
     mkBuffers (replicate 6 (F32bits 0)) (replicate 6 (Num 0)) [0; 0] [1; 2] None None).
Proof.
  apply (updateSelection_ignores_out_of_range 5 (Some 1) [0] [1]
           (mkBuffers (replicate 6 (F32bits 0)) (replicate 6 (Num 0))
              [0; 0] [1; 2] None None)).
  simpl. lia.
Defined.

Lemma updateSelection_consistent index toolCode pd pr b :
  consistent pd pr b →
  let '(pd', pr', b') := updateSelection index toolCode pd pr b in
  consistent pd' pr' b'.
Proof.
  intros Hc. unfold updateSelection.
  destruct toolCode as [code|]; [|done].
  destruct (Z.ltb_spec index 0); [done|].
  destruct (Z.leb_spec (Z.of_nat (length (selections b))) index); [done|].
  simpl. repeat case_bool_decide; try done.
  - intros i. destruct (Hc i) as (Hd & Hr & Hx).
    rewrite JsSet_elem_of_add, JsSet_elem_of_remove. simpl.
    destruct (decide (i = index)) as [->|Hne].
    + rewrite elem_setElem_eq by lia. intuition congruence.
    + rewrite elem_setElem_ne by done. intuition congruence.
  - intros i. destruct (Hc i) as (Hd & Hr & Hx).
    rewrite JsSet_elem_of_add, JsSet_elem_of_remove. simpl.
    destruct (decide (i = index)) as [->|Hne].
    + rewrite elem_setElem_eq by lia. intuition congruence.
    + rewrite elem_setElem_ne by done. intuition congruence.
Qed.

Lemma applyBaseColor_selections index b use :
  selections (applyBaseColor index b use).2 = selections b.
Proof.
  unfold applyBaseColor.
  destruct (use && _); [|by destruct (if bool_decide _ then _ else _) as [[? ?] ?]].
  destruct (elem (selections b) index ≫= selectionColorMap) as [[[? ?] ?]|]; done.
Qed.

Lemma consistent_selections pd pr b b' :
  selections b' = selections b → consistent pd pr b → consistent pd pr b'.
Proof. intros Heq Hc i. rewrite Heq. apply Hc. Qed.

Lemma brushEach_consistent indices toolCode pd pr b :
  consistent pd pr b →
  let '(_, (pd', pr', b')) := brushEach indices toolCode pd pr b in
  consistent pd' pr' b'.
Proof.
  revert pd pr b. induction indices as [|index rest IH]; intros pd pr b Hc; [done|].
  simpl. pose proof (updateSelection_consistent index toolCode pd pr b Hc) as H1.
  destruct (updateSelection index toolCode pd pr b) as [[pd1 pr1] b1].
  unfold colorPoint.
  pose proof (applyBaseColor_selections index b1 true) as Hsel.
  destruct (applyBaseColor index b1 true) as [[[]|err] b2]; simpl in Hsel.
  - apply IH. by eapply consistent_selections.
  - by eapply consistent_selections.
Qed.

Lemma applyBrush_consistent intersections tool e :
  editor_consistent e → editor_consistent (applyBrush intersections tool e).2.
Proof.
  intros Hc. unfold applyBrush.
  destruct (buffersRef e) as [b|] eqn:Hb; [|done].
  destruct (_ || _); [done|].
  destruct (TOOL_CODE tool) as [code|]; [|done].
  pose proof (brushEach_consistent
                (JsSet.of_list (omap id intersections)) (Some code) _ _ b (Hc b Hb)) as H.
  destruct (brushEach _ _ _ _ _) as [[[]|err] [[pd pr] b']]; simpl.
  - unfold markColorsDirty. simpl. intros b'' [= <-]. done.
  - intros b'' [= <-]. done.
Qed.

(** Preservation by the brush: on an editor whose pending sets and
    selection codes agree, a brush update keeps them in step: afterwards
    an index is in [pendingDelete] exactly when its code is
    [MarkedDelete], in [pendingRestore] exactly when its code is
    [MarkedRestore], and in no case in both.  Selecting an index of the
    store for deletion and then for restoration leaves it in
    [pendingRestore] only, with the code [MarkedRestore]. *)
Theorem brush_keeps_selection_consistent
    (intersections : list (option Z)) (tool : Tool.t) (e : Editor) :
  editor_consistent e →
  let e' := (applyBrush intersections tool e).2 in
  (∀ b', buffersRef e' = Some b' → ∀ i : Z,
     (i ∈ pendingDeleteRef e' ↔ elem (selections b') i = Some (selection_code MarkedDelete))
     ∧ (i ∈ pendingRestoreRef e' ↔ elem (selections b') i = Some (selection_code MarkedRestore))
     ∧ ¬ (i ∈ pendingDeleteRef e' ∧ i ∈ pendingRestoreRef e'))
  ∧ (∀ b index, buffersRef e = Some b →
       0 ≤ index < Z.of_nat (length (selections b)) →
       let r1 :=
         updateSelection index (TOOL_CODE Tool.delete)
           (pendingDeleteRef e) (pendingRestoreRef e) b in
       let r2 :=
         updateSelection index (TOOL_CODE Tool.restore) r1.1.1 r1.1.2 r1.2 in
       (index ∈ r2.1.2) ∧ (index ∉ r2.1.1)
       ∧ elem (selections r2.2) index = Some (selection_code MarkedRestore)).
Proof.
  intros Hc e'. split.
  - intros b' Hb'. by apply (applyBrush_consistent intersections tool e Hc).
  - intros b index Hb Hrange. unfold updateSelection. simpl.
    destruct (Z.ltb_spec index 0); [lia|].
    destruct (Z.leb_spec (Z.of_nat (length (selections b))) index); [lia|].
    simpl. rewrite length_setElem.
    destruct (Z.leb_spec (Z.of_nat (length (selections b))) index); [lia|].
    simpl. rewrite JsSet_elem_of_add, JsSet_elem_of_remove.
    rewrite elem_setElem_eq by (rewrite length_setElem; lia).
    split; [by left|]. split; [|done].
    rewrite JsSet_elem_of_remove. by intros [? _].
Qed.

Lemma allocatedEditor_consistent n v : editor_consistent (allocatedEditor n v).
Proof.
  intros b [= <-] i. simpl. split; [|split].
  - split; [by intros ?%elem_of_nil|].
    unfold elem. destruct (i <? 0); [done|].
    by intros [? _]%lookup_replicate.
  - split; [by intros ?%elem_of_nil|].
    unfold elem. destruct (i <? 0); [done|].
    by intros [? _]%lookup_replicate.
  - by intros [?%elem_of_nil _].
Qed.

Lemma brush_keeps_selection_consistent_witness :
  let e := allocatedEditor 8 0 in
  let e' := (applyBrush [Some 5; None; Some 7] Tool.delete e).2 in
  (∀ b', buffersRef e' = Some b' → ∀ i : Z,
     (i ∈ pendingDeleteRef e' ↔ elem (selections b') i = Some (selection_code MarkedDelete))
     ∧ (i ∈ pendingRestoreRef e' ↔ elem (selections b') i = Some (selection_code MarkedRestore))
     ∧ ¬ (i ∈ pendingDeleteRef e' ∧ i ∈ pendingRestoreRef e'))
  ∧ (∀ b index, buffersRef e = Some b →
       0 ≤ index < Z.of_nat (length (selections b)) →
       let r1 :=
         updateSelection index (TOOL_CODE Tool.delete)
           (pendingDeleteRef e) (pendingRestoreRef e) b in
       let r2 :=
         updateSelection index (TOOL_CODE Tool.restore) r1.1.1 r1.1.2 r1.2 in
       (index ∈ r2.1.2) ∧ (index ∉ r2.1.1)
       ∧ elem (selections r2.2) index = Some (selection_code MarkedRestore)).
Proof.
  apply (brush_keeps_selection_consistent
           [Some 5; None; Some 7] Tool.delete (allocatedEditor 8 0)).
  apply allocatedEditor_consistent.
Defined.

(** Index 7 of an eight-point store, brushed for deletion and then for
    restoration. *)
Example brush_delete_then_restore_7 :
  let e1 := (applyBrush [Some 7] Tool.delete (allocatedEditor 8 0)).2 in
  let e2 := (applyBrush [Some 7] Tool.restore e1).2 in
  pendingDeleteRef e1 = [7] ∧ pendingRestoreRef e1 = []
  ∧ pendingDeleteRef e2 = [] ∧ pendingRestoreRef e2 = [7]
  ∧ (selections <$> buffersRef e2) = Some [0; 0; 0; 0; 0; 0; 0; 2]
  ∧ (λ b, colorAt b 7) <$> buffersRef e2 = Some (Some (Num (1 # 5), Num 1, Num (1 # 5)))
  ∧ selectedForRestore e2 = 1.
Proof. vm_compute. by repeat split. Qed.
End Brush.

(** ** Compaction *)

Section Compaction.
Import Tools Examples.

Lemma copy3_length {A} (d : A) src keep j dst :
  length (copy3 d src keep j dst) = length dst.
Proof.
  revert j dst. induction keep as [|i rest IH]; intros j dst; simpl; [done|].
  by rewrite IH, !length_insert.
Qed.

Lemma copy3_lookup_below {A} (d : A) src keep j dst p :
  (p < j * 3)%nat → copy3 d src keep j dst !! p = dst !! p.
Proof.
  revert j dst. induction keep as [|i rest IH]; intros j dst Hp; simpl; [done|].
  rewrite IH by lia. by rewrite !list_lookup_insert_ne by lia.
Qed.

Lemma copy3_lookup {A} (d : A) src keep j dst m i c :
  keep !! m = Some i → (c < 3)%nat → ((j + m) * 3 + c < length dst)%nat →
  copy3 d src keep j dst !! ((j + m) * 3 + c)%nat = Some (default d (src !! (i * 3 + c)%nat)).
Proof.
  revert j dst m. induction keep as [|i' rest IH]; intros j dst m Hm Hc Hlen; [done|].
  destruct m as [|m]; simpl in *.
  - simplify_eq. rewrite copy3_lookup_below by lia.
    replace (j + 0)%nat with j in * by lia.
    destruct c as [|[|[|c]]]; try lia.
    + rewrite !list_lookup_insert_ne by lia.
      replace (j * 3 + 0)%nat with (j * 3)%nat by lia.
      replace (i * 3 + 0)%nat with (i * 3)%nat by lia.
      apply list_lookup_insert_eq. lia.
    + rewrite list_lookup_insert_ne by lia.
      apply list_lookup_insert_eq. rewrite length_insert. lia.
    + apply list_lookup_insert_eq. rewrite !length_insert. lia.
  - replace (j + S m)%nat with (S j + m)%nat by lia.
    apply IH; [done|done|]. rewrite !length_insert. lia.
Qed.

Lemma copy1_length {A} (value : nat → nat → A) keep j dst :
  length (copy1 value keep j dst) = length dst.
Proof.
  revert j dst. induction keep as [|i rest IH]; intros j dst; simpl; [done|].
  by rewrite IH, length_insert.
Qed.

Lemma copy1_lookup_below {A} (value : nat → nat → A) keep j dst p :
  (p < j)%nat → copy1 value keep j dst !! p = dst !! p.
Proof.
  revert j dst. induction keep as [|i rest IH]; intros j dst Hp; simpl; [done|].
  rewrite IH by lia. by rewrite list_lookup_insert_ne by lia.
Qed.

Lemma copy1_lookup {A} (value : nat → nat → A) keep j dst m i :
  keep !! m = Some i → (j + m < length dst)%nat →
  copy1 value keep j dst !! (j + m)%nat = Some (value i (j + m)%nat).
Proof.
  revert j dst m. induction keep as [|i' rest IH]; intros j dst m Hm Hlen; [done|].
  destruct m as [|m]; simpl in *.
  - simplify_eq. rewrite copy1_lookup_below by lia.
    replace (j + 0)%nat with j in * by lia.
    by apply list_lookup_insert_eq.
  - replace (j + S m)%nat with (S j + m)%nat by lia.
    apply IH; [done|]. rewrite length_insert. lia.
Qed.

Lemma copyLoop_positions src keep j dst :
  positions (copyLoop src keep j dst) = copy3 f32NaN (positions src) keep j (positions dst).
Proof.
  revert j dst. induction keep as [|i rest IH]; intros j dst; simpl; [done|].
  by rewrite IH.
Qed.

Lemma copyLoop_colors src keep j dst :
  colors (copyLoop src keep j dst) = copy3 NaN (colors src) keep j (colors dst).
Proof.
  revert j dst. induction keep as [|i rest IH]; intros j dst; simpl; [done|].
  by rewrite IH.
Qed.

Lemma copyLoop_status src keep j dst :
  status (copyLoop src keep j dst) = copy1 (λ _ _, 0) keep j (status dst).
Proof.
  revert j dst. induction keep as [|i rest IH]; intros j dst; simpl; [done|].
  by rewrite IH.
Qed.

Lemma copyLoop_selections src keep j dst :
  selections (copyLoop src keep j dst) = copy1 (λ _ _, 0) keep j (selections dst).
Proof.
  revert j dst. induction keep as [|i rest IH]; intros j dst; simpl; [done|].
  by rewrite IH.
Qed.

Lemma copyLoop_intensities src keep j dst :
  intensities (copyLoop src keep j dst)
  = match intensities src with
    | Some ints => copy1 (λ i _, default 0 (ints !! i)) keep j <$> intensities dst
    | None => intensities dst
    end.
Proof.
  revert j dst. induction keep as [|i rest IH]; intros j dst; simpl.
  - destruct (intensities src); [|done]. by destruct (intensities dst).
  - rewrite IH. simpl. destruct (intensities src); [|done].
    by destruct (intensities dst).
Qed.

Lemma copyLoop_lodIndex src keep j dst :
  lodIndex (copyLoop src keep j dst)
  = copy1 (λ _ j, fround (Z.of_nat j)) keep j <$> lodIndex dst.
Proof.
  revert j dst. induction keep as [|i rest IH]; intros j dst; simpl.
  - by destruct (lodIndex dst).
  - rewrite IH. simpl. by destruct (lodIndex dst).
Qed.

Lemma filter_seq_increasing (P : nat → Prop) `{!∀ i, Decision (P i)} a n k1 k2 i1 i2 :
  filter P (seq a n) !! k1 = Some i1 → filter P (seq a n) !! k2 = Some i2 →
  (k1 < k2)%nat → (i1 < i2)%nat.
Proof.
  revert a k1 k2. induction n as [|n IH]; intros a k1 k2 H1 H2 Hk; [done|].
  simpl in *. rewrite filter_cons in H1, H2.
  assert (Hge : ∀ k i, filter P (seq (S a) n) !! k = Some i → (a < i)%nat).
  { intros k i Hi. apply list_elem_of_lookup_2, list_elem_of_filter in Hi as [_ Hi].
    apply elem_of_seq in Hi. lia. }
  destruct (decide (P a)).
  - destruct k1 as [|k1], k2 as [|k2]; simpl in *; try lia.
    + simplify_eq. by eapply Hge.
    + eapply (IH (S a) k1 k2); [done|done|lia].
  - by eapply (IH (S a) k1 k2).
Qed.

(** What a compaction keeps, and where. *)
Lemma compaction_alive_points
    (e : Editor) (b : InternalBuffers) (geom : Geometry) (n : nat) :
  buffersRef e = Some b → geometryRef e = Some geom → holds_points b n →
  ∃ alive : list nat,
    (∀ i, i ∈ alive ↔ (i < n)%nat ∧ status b !! i = Some (status_code Alive))
    ∧ (∀ k1 k2 i1 i2, alive !! k1 = Some i1 → alive !! k2 = Some i2 →
                      (k1 < k2)%nat → (i1 < i2)%nat)
    ∧ (compactBuffersAfterApply e).1 = Z.of_nat n - Z.of_nat (length alive)
    ∧ ∃ b', buffersRef (compactBuffersAfterApply e).2 = Some b'
        ∧ holds_points b' (length alive)
        ∧ ∀ k i, alive !! k = Some i →
                 pointData b' k = pointData b i
                 ∧ status b' !! k = Some (status_code Alive).
Proof.
  intros Hb Hg (Hpos & Hcol & Hst & Hsel & Hint & Hlod).
  exists (keepIdx b n).
  assert (Hmem : ∀ i, i ∈ keepIdx b n ↔ (i < n)%nat ∧ status b !! i = Some 0).
  { intros i. unfold keepIdx. rewrite list_elem_of_filter, elem_of_seq.
    split; [intros [? ?]|intros [? ?]]; split; try done; lia. }
  split; [exact Hmem|]. split; [apply filter_seq_increasing|].
  unfold compactBuffersAfterApply. rewrite Hb, Hg, Hpos, Nat.div_mul by lia.
  case_bool_decide as Hall; simpl.
  - (* nothing to remove *)
    split; [lia|]. exists b. split; [done|].
    rewrite Hall. split; [done|].
    intros k i Hk.
    assert (keepIdx b n = seq 0 n) as Heq.
    { unfold keepIdx in *.
      clear -Hall. revert Hall. generalize 0%nat as a.
      induction n as [|n IH]; intros a Hlen; [done|].
      simpl in *. rewrite filter_cons in *.
      pose proof (length_filter (λ i, status b !! i = Some 0) (seq (S a) n)) as Hle.
      rewrite length_seq in Hle.
      destruct (decide (status b !! a = Some 0)); simpl in Hlen; [|lia].
      f_equal. apply IH. lia. }
    assert (i = k) as ->.
    { rewrite Heq in Hk. apply lookup_seq in Hk. lia. }
    split; [done|]. apply Hmem. by eapply list_elem_of_lookup_2.
  - split; [done|].
    set (keep := keepIdx b n) in *. set (m := length keep) in *.
    exists (copyLoop b keep 0 (freshArrays b m)). split; [done|]. split.
    + repeat split.
      * rewrite copyLoop_positions, copy3_length. apply length_replicate.
      * rewrite copyLoop_colors, copy3_length. apply length_replicate.
      * rewrite copyLoop_status, copy1_length. apply length_replicate.
      * rewrite copyLoop_selections, copy1_length. apply length_replicate.
      * intros ints. rewrite copyLoop_intensities. simpl.
        destruct (intensities b); simpl; [|done].
        intros [= <-]. by rewrite copy1_length, length_replicate.
      * intros lod. rewrite copyLoop_lodIndex. simpl.
        destruct (lodIndex b); simpl; [|done].
        intros [= <-]. by rewrite copy1_length, length_replicate.
    + intros k i Hk.
      assert (Hkm : (k < m)%nat) by by eapply lookup_lt_Some.
      assert (Hi : (i < n)%nat ∧ status b !! i = Some 0).
      { apply Hmem. by eapply list_elem_of_lookup_2. }
      destruct Hi as [Hin _].
      assert (Hp : ∀ c, (c < 3)%nat →
                positions (copyLoop b keep 0 (freshArrays b m)) !! (k * 3 + c)%nat
                = positions b !! (i * 3 + c)%nat).
      { intros c Hc. rewrite copyLoop_positions.
        rewrite (copy3_lookup _ _ keep 0 _ k i c Hk Hc)
          by (simpl; rewrite length_replicate; lia).
        destruct (positions b !! (i * 3 + c)%nat) eqn:Hlk; [done|].
        apply lookup_ge_None in Hlk. lia. }
      assert (Hc3 : ∀ c, (c < 3)%nat →
                colors (copyLoop b keep 0 (freshArrays b m)) !! (k * 3 + c)%nat
                = colors b !! (i * 3 + c)%nat).
      { intros c Hc. rewrite copyLoop_colors.
        rewrite (copy3_lookup _ _ keep 0 _ k i c Hk Hc)
          by (simpl; rewrite length_replicate; lia).
        destruct (colors b !! (i * 3 + c)%nat) eqn:Hlk; [done|].
        apply lookup_ge_None in Hlk. lia. }
      split.
      * unfold pointData.
        pose proof (Hp 0%nat) as Hp0. pose proof (Hc3 0%nat) as Hc0.
        rewrite !Nat.add_0_r in Hp0, Hc0.
        rewrite Hp0, (Hp 1%nat), (Hp 2%nat), Hc0, (Hc3 1%nat), (Hc3 2%nat) by lia.
        f_equal. rewrite copyLoop_intensities. simpl.
        destruct (intensities b) as [ints|] eqn:Hints; simpl; [|done].
        f_equal. rewrite (copy1_lookup _ keep 0 _ k i Hk)
          by (rewrite length_replicate; lia).
        destruct (ints !! i) eqn:Hlk; [done|].
        apply lookup_ge_None in Hlk. specialize (Hint ints eq_refl). lia.
      * rewrite copyLoop_status. simpl.
        by rewrite (copy1_lookup _ keep 0 _ k i Hk) by (rewrite length_replicate; lia).
Qed.

(** [C5] Compaction keeps exactly the points whose status is alive, in
    their original order: there is an increasing list [alive] of the
    indices of the alive points such that the new arrays hold
    [length alive] points, the alive count before compaction, the point
    in slot [k] being the one that was at index [alive !! k]; the value
    returned is the number of points removed. *)
Theorem compaction_keeps_alive_points_in_order
    (e : Editor) (b : InternalBuffers) (geom : Geometry) (n : nat) :
  buffersRef e = Some b → geometryRef e = Some geom → holds_points b n →
  ∃ alive : list nat,
    (∀ i, i ∈ alive ↔ (i < n)%nat ∧ status b !! i = Some (status_code Alive))
    ∧ (∀ k1 k2 i1 i2, alive !! k1 = Some i1 → alive !! k2 = Some i2 →
                      (k1 < k2)%nat → (i1 < i2)%nat)
    ∧ (compactBuffersAfterApply e).1 = Z.of_nat n - Z.of_nat (length alive)
    ∧ ∃ b', buffersRef (compactBuffersAfterApply e).2 = Some b'
        ∧ holds_points b' (length alive)
        ∧ ∀ k i, alive !! k = Some i →
                 pointData b' k = pointData b i
                 ∧ status b' !! k = Some (status_code Alive).
Proof. exact (compaction_alive_points e b geom n). Qed.

Lemma compaction_keeps_alive_points_in_order_witness :
  ∃ b, buffersRef fivePoints = Some b
    ∧ ∃ alive : list nat,
        (∀ i, i ∈ alive ↔ (i < 5)%nat ∧ status b !! i = Some (status_code Alive))
        ∧ (∀ k1 k2 i1 i2, alive !! k1 = Some i1 → alive !! k2 = Some i2 →
                          (k1 < k2)%nat → (i1 < i2)%nat)
        ∧ (compactBuffersAfterApply fivePoints).1 = Z.of_nat 5 - Z.of_nat (length alive)
        ∧ ∃ b', buffersRef (compactBuffersAfterApply fivePoints).2 = Some b'
            ∧ holds_points b' (length alive)
            ∧ ∀ k i, alive !! k = Some i →
                     pointData b' k = pointData b i
                     ∧ status b' !! k = Some (status_code Alive).
Proof.
  eexists. split; [reflexivity|].
  eapply (compaction_keeps_alive_points_in_order fivePoints).
  - reflexivity.
  - reflexivity.
  - repeat split; try reflexivity.
    + by intros ints [= <-].
    + by intros lod [= <-].
Defined.

(** Five points with status alive, deleted, alive, deleted, alive: the
    compacted store holds the points that were at indices 0, 2 and 4, in
    that order, and 2 is returned. *)
Example compaction_of_five_points :
  (compactBuffersAfterApply fivePoints).1 = 2
  ∧ buffersRef (compactBuffersAfterApply fivePoints).2
    = Some (mkBuffers
              (F32bits <$> [100; 101; 102; 106; 107; 108; 112; 113; 114])
              ((λ v, Num (v # 1)) <$> [0; 1; 2; 6; 7; 8; 12; 13; 14])
              [0; 0; 0] [0; 0; 0] (Some [10; 12; 14]) (Some [0; 1; 2]))
  ∧ geometryRef (compactBuffersAfterApply fivePoints).2 = Some (mkGeometry (0, 3) true).
Proof. by vm_compute. Qed.
End Compaction.

(** ** The commit *)

Section ServeFacts.
Import Tools.
Context {Srv : Type} (appendOps : Srv → AppendRequest → Completion unit * Srv).

Lemma serve_app p1 p2 cur srv made :
  serve appendOps (p1 ++ p2) cur srv made
  = let s1 := serve appendOps p1 cur srv made in
    match outcome s1 with
    | Normal _ => serve appendOps p2 (currentVersion s1) (server s1) (calls s1)
    | Throw _ => s1
    end.
Proof.
  revert cur srv made. induction p1 as [|req p1 IH]; intros cur srv made; simpl; [done|].
  destruct (appendOps srv req) as [[[]|err] srv']; [|done]. apply IH.
Qed.

Lemma serve_calls plan cur srv made :
  let s := serve appendOps plan cur srv made in
  ∃ j, (j ≤ length plan)%nat ∧ calls s = made ++ take j plan
       ∧ (outcome s = Normal () → j = length plan ∧ currentVersion s = cur + Z.of_nat j)
       ∧ (∀ err, outcome s = Throw err →
            (0 < j)%nat ∧ currentVersion s = cur + Z.of_nat j - 1).
Proof.
  revert cur srv made. induction plan as [|req plan IH]; intros cur srv made; simpl.
  - exists 0%nat. rewrite app_nil_r. repeat split; try done; lia.
  - destruct (appendOps srv req) as [[[]|err] srv'].
    + destruct (IH (cur + 1) srv' (made ++ [req])) as (j & Hj & Hcalls & Hok & Hfail).
      exists (S j). simpl. rewrite Hcalls, <- app_assoc. simpl.
      split; [lia|]. split; [done|]. split.
      * intros Hout. destruct (Hok Hout) as [-> ->]. split; [done|lia].
      * intros err Hout. destruct (Hfail err Hout) as [? ->]. split; lia.
    + exists 1%nat. simpl. rewrite take_0. split; [lia|]. split; [done|].
      split; [done|]. intros err' _. split; lia.
Qed.
End ServeFacts.

Section CommitFacts.
Import Tools.
Context {Srv : Type} (appendOps : Srv → AppendRequest → Completion unit * Srv).
Context (n : nat) (n_pos : (0 < n)%nat).

Lemma ceilDiv_0 : ceilDiv 0 n = 0%nat.
Proof. unfold ceilDiv. apply Nat.div_small. lia. Qed.

Lemma ceilDiv_pos x : (0 < x)%nat → ceilDiv x n = S (ceilDiv (x - n) n).
Proof.
  intros Hx. unfold ceilDiv. destruct (decide (n ≤ x)%nat) as [Hle|Hlt].
  - replace (x + n - 1)%nat with ((x - n + n - 1) + 1 * n)%nat by lia.
    rewrite Nat.div_add by lia. lia.
  - replace (x - n)%nat with 0%nat by lia.
    rewrite (Nat.div_small (0 + n - 1) n) by lia.
    symmetry. apply (Nat.div_unique _ _ _ (x - 1)%nat); lia.
Qed.

Lemma ceilDiv_le x : (ceilDiv x n ≤ x)%nat.
Proof.
  induction x as [x IH] using lt_wf_ind.
  destruct x as [|x]; [by rewrite ceilDiv_0|].
  rewrite ceilDiv_pos by lia.
  assert (ceilDiv (S x - n) n ≤ S x - n)%nat by (apply IH; lia). lia.
Qed.

Lemma ceilDiv_eq_0 x : ceilDiv x n = 0%nat → x = 0%nat.
Proof. destruct x; [done|]. rewrite ceilDiv_pos by lia. done. Qed.

(** The loop over the chunks of one operation submits, one after the
    other, the requests that the plan lists for it. *)
Lemma submitChunks_serve count fuel sid op k cur srv made :
  count = ceilDiv (length (indices op) - k * n) n → (count ≤ fuel)%nat →
  submitChunks appendOps n fuel sid op (k * n) cur srv made
  = Some (serve appendOps
            (chunkRequestsFrom n sid (action op) (indices op) k count cur) cur srv made).
Proof.
  revert fuel k cur srv made.
  induction count as [|count IH]; intros fuel k cur srv made Hcount Hfuel.
  - symmetry in Hcount. apply ceilDiv_eq_0 in Hcount.
    destruct fuel; simpl; rewrite bool_decide_eq_false_2 by lia; done.
  - assert (Hlt : (k * n < length (indices op))%nat).
    { destruct (decide (k * n < length (indices op))%nat) as [|Hge]; [done|].
      replace (length (indices op) - k * n)%nat with 0%nat in Hcount by lia.
      by rewrite ceilDiv_0 in Hcount. }
    destruct fuel as [|fuel]; [lia|]. simpl.
    rewrite bool_decide_eq_true_2 by done.
    destruct (appendOps srv _) as [[[]|err] srv']; [|done].
    replace (k * n + n)%nat with (S k * n)%nat by lia.
    apply IH; [|lia].
    rewrite ceilDiv_pos in Hcount by lia.
    injection Hcount as ->. f_equal. lia.
Qed.

Lemma length_chunkRequestsFrom sid act l k count v :
  length (chunkRequestsFrom n sid act l k count v) = count.
Proof.
  revert k v. induction count as [|count IH]; intros k v; simpl; [done|].
  by rewrite IH.
Qed.

Lemma lookup_chunkRequestsFrom sid act l k count v j :
  (j < count)%nat →
  chunkRequestsFrom n sid act l k count v !! j
  = Some (mkAppendRequest sid (v + Z.of_nat j)
            [mkOp act (take n (drop ((k + j) * n) l))]).
Proof.
  revert k v j. induction count as [|count IH]; intros k v j Hj; [lia|].
  destruct j as [|j].
  - simpl. by rewrite Z.add_0_r, Nat.add_0_r.
  - replace (v + Z.of_nat (S j)) with (v + 1 + Z.of_nat j) by lia.
    replace (k + S j)%nat with (S k + j)%nat by lia.
    apply (IH (S k) (v + 1) j). lia.
Qed.

Lemma submitOp_serve sid op cur srv made :
  submitChunks appendOps n (length (indices op)) sid op 0 cur srv made
  = Some (serve appendOps (chunkRequests n sid cur (action op) (indices op)) cur srv made).
Proof.
  unfold chunkRequests.
  apply (submitChunks_serve _ _ sid op 0%nat).
  - f_equal. lia.
  - apply ceilDiv_le.
Qed.

(** The two loops of a commit submit the plan of the commit. *)
Lemma submitOps_commitPlan sid pd pr cur srv :
  submitOps appendOps n sid (buildOps pd pr) cur srv []
  = Some (serve appendOps (commitPlan n sid cur pd pr) cur srv []).
Proof.
  unfold commitPlan. rewrite serve_app. simpl.
  assert (Hnil : ∀ v act, chunkRequests n sid v act [] = []).
  { intros v act. unfold chunkRequests. simpl. by rewrite ceilDiv_0. }
  unfold buildOps.
  destruct (decide (pd = [])) as [->|Hpd].
  - rewrite bool_decide_eq_true_2 by done. rewrite Hnil. simpl.
    rewrite ceilDiv_0, Z.add_0_r.
    destruct (decide (pr = [])) as [->|Hpr].
    + rewrite bool_decide_eq_true_2 by done. by rewrite Hnil.
    + rewrite bool_decide_eq_false_2 by done. simpl.
      rewrite (submitOp_serve sid (mkOp "restore" pr)). simpl.
      by destruct (serve _ _ _ _ _) as [[[]|err] cv sv cl].
  - rewrite bool_decide_eq_false_2 by done. simpl.
    rewrite (submitOp_serve sid (mkOp "delete" pd)). simpl.
    set (s1 := serve appendOps (chunkRequests n sid cur "delete" pd) cur srv []).
    destruct (serve_calls appendOps (chunkRequests n sid cur "delete" pd) cur srv [])
      as (j & _ & _ & Hok & _). fold s1 in Hok.
    destruct (outcome s1) as [[]|err] eqn:Hout; [|done].
    destruct (Hok eq_refl) as [-> Hcur].
    unfold chunkRequests in Hcur. rewrite length_chunkRequestsFrom in Hcur.
    rewrite <- Hcur.
    destruct (decide (pr = [])) as [->|Hpr].
    + rewrite bool_decide_eq_true_2 by done. rewrite Hnil. simpl.
      by destruct s1.
    + rewrite bool_decide_eq_false_2 by done. simpl.
      rewrite (submitOp_serve sid (mkOp "restore" pr)). simpl.
      match goal with
      | |- context [outcome ?s] => by destruct s as [[[]|err] cv sv cl]
      end.
Qed.
End CommitFacts.

Section CommitTheorems.
Import Tools.
Context {Srv : Type} (appendOps : Srv → AppendRequest → Completion unit * Srv).

Lemma MAX_INDICES_PER_OP_pos : (0 < Z.to_nat MAX_INDICES_PER_OP)%nat.
Proof. unfold MAX_INDICES_PER_OP. lia. Qed.


Lemma compactBuffersAfterApply_keeps e :
  let e' := (compactBuffersAfterApply e).2 in
  sessionVersionRef e' = sessionVersionRef e
  ∧ consoleErrors e' = consoleErrors e
  ∧ pendingDeleteRef e' = pendingDeleteRef e
  ∧ pendingRestoreRef e' = pendingRestoreRef e.
Proof.
  unfold compactBuffersAfterApply.
  destruct (buffersRef e), (geometryRef e); try done.
  by case_bool_decide.
Qed.

Lemma applyLocally_keeps e :
  sessionVersionRef (applyLocally e) = sessionVersionRef e
  ∧ consoleErrors (applyLocally e) = consoleErrors e
  ∧ pendingDeleteRef (applyLocally e) = []
  ∧ pendingRestoreRef (applyLocally e) = [].
Proof.
  unfold applyLocally.
  match goal with
  | |- context [compactBuffersAfterApply ?x] =>
      pose proof (compactBuffersAfterApply_keeps x) as (Hv & Hc & Hd & Hr);
      destruct (compactBuffersAfterApply x) as [removed e3]
  end.
  simpl in *.
  assert (sessionVersionRef e3 = sessionVersionRef e ∧ consoleErrors e3 = consoleErrors e)
    as [Hv' Hc'].
  { rewrite Hv, Hc. by destruct (buffersRef e). }
  by destruct (0 <? removed).
Qed.



(** The run of [applySelection] on a session: it ends, having submitted
    the plan of the commit up to the first rejection. *)
Lemma applySelection_runs sid srv e :
  let M := Z.to_nat MAX_INDICES_PER_OP in
  let served :=
    serve appendOps
      (commitPlan M sid (sessionVersionRef e) (pendingDeleteRef e) (pendingRestoreRef e))
      (sessionVersionRef e) srv [] in
  ∃ c, applySelection appendOps (Some sid) srv e = Some c
    ∧ requests c = calls served
    ∧ backend c = server served
    ∧ settled c = Normal ()
    ∧ match outcome served with
      | Normal _ =>
          (pendingDeleteRef e = [] ∧ pendingRestoreRef e = [] ∧ editor c = e)
          ∨ editor c = applyLocally (withSessionVersion e (currentVersion served))
      | Throw err =>
          editor c = logError (withSessionVersion e (currentVersion served))
                       (ApplySelectionError err)
      end.
Proof.
  intros M served. unfold applySelection. fold M.
  assert (HM : (0 < M)%nat) by exact MAX_INDICES_PER_OP_pos.
  clearbody M. unfold applySelectionWith.
  destruct (decide (pendingDeleteRef e = [] ∧ pendingRestoreRef e = [])) as [[Hd Hr]|Hne].
  - subst served. rewrite Hd, Hr.
    assert (commitPlan M sid (sessionVersionRef e) [] [] = []) as ->.
    { unfold commitPlan, chunkRequests. cbn [length].
      by rewrite (ceilDiv_0 M HM). }
    rewrite !bool_decide_eq_true_2 by done. cbn.
    eexists. split; [done|]. cbn. repeat split; try done. by left.
  - assert (bool_decide (pendingDeleteRef e = []) && bool_decide (pendingRestoreRef e = [])
            = false) as ->.
    { apply andb_false_iff.
      destruct (decide (pendingDeleteRef e = [])) as [Hd|Hd].
      - right. apply bool_decide_eq_false_2. tauto.
      - left. by apply bool_decide_eq_false_2. }
    rewrite (submitOps_commitPlan _ _ HM). fold served.
    destruct (outcome served) as [[]|err]; eexists; (split; [done|]); cbn;
      repeat split; try done. by right.
Qed.


(** [C8] When the [k]-th request of a commit is rejected, the requests
    before it having been accepted, no request is made after it, and the
    commit has no local effect: the pending sets keep their elements and
    the buffers, with the status, selection and colour of every point,
    are as they were. *)
Theorem rejected_chunk_stops_commit_without_local_effects
    (sid : string) (srv : Srv) (e : Editor)
    (k : nat) (req : AppendRequest) (srv_k srv' : Srv) (err : JsError) :
  let M := Z.to_nat MAX_INDICES_PER_OP in
  let v := sessionVersionRef e in
  let plan := commitPlan M sid v (pendingDeleteRef e) (pendingRestoreRef e) in
  plan !! k = Some req →
  outcome (serve appendOps (take k plan) v srv []) = Normal () →
  server (serve appendOps (take k plan) v srv []) = srv_k →
  appendOps srv_k req = (Throw err, srv') →
  ∃ c, applySelection appendOps (Some sid) srv e = Some c
    ∧ requests c = take (S k) plan
    ∧ backend c = srv'
    ∧ pendingDeleteRef (editor c) = pendingDeleteRef e
    ∧ pendingRestoreRef (editor c) = pendingRestoreRef e
    ∧ buffersRef (editor c) = buffersRef e
    ∧ geometryRef (editor c) = geometryRef e
    ∧ deletedSetRef (editor c) = deletedSetRef e
    ∧ selectedForDelete (editor c) = selectedForDelete e
    ∧ selectedForRestore (editor c) = selectedForRestore e
    ∧ dispatched (editor c) = dispatched e
    ∧ sessionVersionRef (editor c) = v + Z.of_nat k.
Proof.
  intros M v plan Hk Hout Hsrv Hrej.
  destruct (applySelection_runs sid srv e) as (c & Hrun & Hreq & Hback & _ & Hed).
  fold M v plan in Hreq, Hback, Hed. clearbody M.
  assert (Hsplit : plan = take k plan ++ req :: drop (S k) plan).
  { symmetry. by apply take_drop_middle. }
  set (s1 := serve appendOps (take k plan) v srv []) in *.
  destruct (serve_calls appendOps (take k plan) v srv []) as (j & _ & Hcalls & Hok & _).
  fold s1 in Hcalls, Hok. destruct (Hok Hout) as [-> Hcur]. simpl in Hcalls.
  rewrite firstn_all in Hcalls.
  assert (Hklen : length (take k plan) = k).
  { apply length_take_le. apply lookup_lt_Some in Hk. lia. }
  rewrite Hklen in Hcur.
  assert (Hserved : serve appendOps plan v srv []
                    = mkSubmission (Throw err) (v + Z.of_nat k) srv' (take (S k) plan)).
  { rewrite Hsplit at 1. rewrite serve_app. fold s1. cbv zeta. rewrite Hout.
    simpl. rewrite Hsrv, Hrej, Hcur, Hcalls. f_equal.
    symmetry. by apply take_S_r. }
  rewrite Hserved in Hreq, Hback, Hed. simpl in Hreq, Hback, Hed.
  exists c. rewrite Hed. by repeat split.
Qed.

(** [C7, as the code has it] When a request of a commit is rejected,
    [applySelection] catches the error, reports it on the console and
    returns normally: the failure does not reach the caller. *)
Theorem rejected_commit_is_logged_and_swallowed
    (sid : string) (srv : Srv) (e : Editor) (err : JsError) :
  let M := Z.to_nat MAX_INDICES_PER_OP in
  let plan :=
    commitPlan M sid (sessionVersionRef e) (pendingDeleteRef e) (pendingRestoreRef e) in
  outcome (serve appendOps plan (sessionVersionRef e) srv []) = Throw err →
  ∃ c, applySelection appendOps (Some sid) srv e = Some c
    ∧ settled c = Normal ()
    ∧ consoleErrors (editor c) = ApplySelectionError err :: consoleErrors e.
Proof.
  intros M plan Hout.
  destruct (applySelection_runs sid srv e) as (c & Hrun & _ & _ & Hsettled & Hed).
  fold M plan in Hed. rewrite Hout in Hed.
  exists c. split; [done|]. split; [done|]. by rewrite Hed.
Qed.
End CommitTheorems.

(** ** Reset and commit keep the pending sets and the codes in step *)

Section SelectionLifecycle.
Import Rendering Tools.

Lemma clearedAt_elem sel l i v :
  elem (clearedAt sel l) i = Some v → v = 0 ∨ ((i ∉ l) ∧ elem sel i = Some v).
Proof.
  revert sel. induction l as [|idx l IH]; intros sel Hv; simpl in *.
  - right. split; [apply not_elem_of_nil|done].
  - destruct (IH _ Hv) as [?|[Hnotin Hv']]; [by left|].
    destruct (decide (idx = i)) as [->|Hne].
    + left. apply elem_Some_range in Hv' as Hr. rewrite length_setElem in Hr.
      rewrite elem_setElem_eq in Hv' by done. congruence.
    + right. rewrite elem_setElem_ne in Hv' by done.
      split; [|done]. by intros [->|?]%elem_of_cons.
Qed.

Lemma foldl_rebaseColor_selections b l :
  selections (foldl rebaseColor b l) = clearedAt (selections b) l.
Proof.
  revert b. induction l as [|idx l IH]; intros b; simpl; [done|].
  rewrite IH. by destruct (gray (baseShade b idx)) as [[? ?] ?].
Qed.

Lemma clearedAt_app sel l1 l2 : clearedAt sel (l1 ++ l2) = clearedAt (clearedAt sel l1) l2.
Proof. apply foldl_app. Qed.

Lemma consistent_cleared pd pr b b' :
  consistent pd pr b → selections b' = clearedAt (selections b) (pd ++ pr) →
  consistent [] [] b'.
Proof.
  intros Hc Hsel i. rewrite Hsel. destruct (Hc i) as (Hd & Hr & _).
  split; [|split].
  - split; [by intros ?%elem_of_nil|]. intros Hv. exfalso.
    apply clearedAt_elem in Hv as [?|[Hnotin Hv]]; [discriminate|].
    apply Hnotin, elem_of_app. left. by apply Hd.
  - split; [by intros ?%elem_of_nil|]. intros Hv. exfalso.
    apply clearedAt_elem in Hv as [?|[Hnotin Hv]]; [discriminate|].
    apply Hnotin, elem_of_app. right. by apply Hr.
  - by intros [?%elem_of_nil _].
Qed.

Lemma resetSelection_consistent e :
  editor_consistent e → editor_consistent (resetSelection e).
Proof.
  intros Hc. unfold resetSelection.
  destruct (buffersRef e) as [b|] eqn:Hb; [|intros b'; simpl; by rewrite Hb].
  intros b' [= <-]. simpl.
  apply (consistent_cleared _ _ b _ (Hc b Hb)).
  by rewrite !foldl_rebaseColor_selections, clearedAt_app.
Qed.

Lemma foldl_markDeleted_selections ds b l :
  selections (foldl markDeleted (ds, b) l).2 = clearedAt (selections b) l.
Proof.
  revert ds b. induction l as [|idx l IH]; intros ds b; simpl; [done|].
  by rewrite IH.
Qed.

Lemma foldl_markRestored_selections st l :
  selections (foldl markRestored st l).2 = clearedAt (selections st.2) l.
Proof.
  revert st. induction l as [|idx l IH]; intros [ds b]; simpl; [done|].
  by rewrite IH.
Qed.

Lemma copy1_zero_lookup keep j (dst : list Z) k v :
  (∀ k v, dst !! k = Some v → v = 0) →
  copy1 (λ _ _, 0) keep j dst !! k = Some v → v = 0.
Proof.
  revert j dst. induction keep as [|i rest IH]; intros j dst Hz Hv; simpl in *.
  - by eapply Hz.
  - eapply IH; [|done]. intros k' v' Hk'.
    apply list_lookup_insert_Some in Hk' as [(_ & -> & _)|[_ Hk']]; [done|].
    by eapply Hz.
Qed.

Lemma compactBuffersAfterApply_consistent e :
  pendingDeleteRef e = [] → pendingRestoreRef e = [] →
  editor_consistent e → editor_consistent (compactBuffersAfterApply e).2.
Proof.
  intros Hd Hr Hc. unfold compactBuffersAfterApply.
  destruct (buffersRef e) as [b|] eqn:Hb; [|exact Hc].
  destruct (geometryRef e) as [geom|]; [|exact Hc].
  case_bool_decide; [exact Hc|].
  intros b' [= <-] i. simpl. rewrite Hd, Hr.
  assert (Hzero : ∀ v, elem (selections (copyLoop b (keepIdx b (length (positions b) / 3)) 0
                         (freshArrays b (length (keepIdx b (length (positions b) / 3))))))
                         i = Some v → v = 0).
  { intros v. unfold elem. destruct (i <? 0); [done|].
    rewrite copyLoop_selections. apply copy1_zero_lookup.
    simpl. by intros k w [-> _]%lookup_replicate. }
  split; [|split].
  - split; [by intros ?%elem_of_nil|]. by intros ?%Hzero.
  - split; [by intros ?%elem_of_nil|]. by intros ?%Hzero.
  - by intros [?%elem_of_nil _].
Qed.

Lemma applyLocally_consistent e :
  editor_consistent e → editor_consistent (applyLocally e).
Proof.
  intros Hc. unfold applyLocally.
  match goal with
  | |- context [compactBuffersAfterApply ?x] =>
      assert (Hx : editor_consistent x ∧ pendingDeleteRef x = [] ∧ pendingRestoreRef x = []);
      [|destruct Hx as (Hx & Hd & Hr);
        pose proof (compactBuffersAfterApply_consistent x Hd Hr Hx) as Hcomp;
        destruct (compactBuffersAfterApply x) as [removed e3]; simpl in Hcomp;
        by destruct (0 <? removed)]
  end.
  split; [|by destruct (buffersRef e)].
  destruct (buffersRef e) as [b|] eqn:Hb.
  - intros b' [= <-]. simpl.
    apply (consistent_cleared _ _ b _ (Hc b Hb)).
    by rewrite foldl_markRestored_selections, foldl_markDeleted_selections, clearedAt_app.
  - intros b'. simpl. rewrite Hb. by destruct (geometryRef e).
Qed.

(** The agreement holds on allocation ([allocatedEditor_consistent]) and
    is kept by every operation of the tools: the brush
    ([applyBrush_consistent]), the reset and the commit, whether the commit
    goes through or is rejected. *)
Lemma applySelection_consistent {Srv : Type}
    (appendOps : Srv → AppendRequest → Completion unit * Srv) session srv e c :
  editor_consistent e → applySelection appendOps session srv e = Some c →
  editor_consistent (editor c).
Proof.
  intros Hc Hrun. destruct session as [sid|]; [|by injection Hrun as <-].
  destruct (applySelection_runs appendOps sid srv e) as (c' & Hrun' & _ & _ & _ & Hed).
  rewrite Hrun in Hrun'. injection Hrun' as <-.
  destruct (outcome _) as [[]|err].
  - destruct Hed as [(_ & _ & Heq)|Heq]; rewrite Heq; [done|].
    by apply applyLocally_consistent.
  - by rewrite Hed.
Qed.
End SelectionLifecycle.

Section CommitExamples.
Import Tools.

(** Two pending indices, one for each action, against a log that is one
    version ahead after the first request: the deletion is accepted, the
    restoration is rejected. *)
Lemma rejected_chunk_stops_commit_witness :
  let e := withSessionVersion (withPending (allocatedEditor 8 0) [5] [3]) 4 in
  let drifting (s : Z * bool) (req : AppendRequest) : Completion unit * (Z * bool) :=
    match versionedLog s.1 req with
    | (Normal _, v') => (Normal (), (if s.2 then v' else v' + 1, true))
    | (Throw err, v') => (Throw err, (v', s.2))
    end in
  ∃ c, applySelection drifting (Some "s1") (4, false) e = Some c
    ∧ requests c
      = take 2 (commitPlan (Z.to_nat MAX_INDICES_PER_OP) "s1" 4 [5] [3])
    ∧ backend c = (6, true)
    ∧ pendingDeleteRef (editor c) = pendingDeleteRef e
    ∧ pendingRestoreRef (editor c) = pendingRestoreRef e
    ∧ buffersRef (editor c) = buffersRef e
    ∧ geometryRef (editor c) = geometryRef e
    ∧ deletedSetRef (editor c) = deletedSetRef e
    ∧ selectedForDelete (editor c) = selectedForDelete e
    ∧ selectedForRestore (editor c) = selectedForRestore e
    ∧ dispatched (editor c) = dispatched e
    ∧ sessionVersionRef (editor c) = 4 + Z.of_nat 1.
Proof.
  intros e drifting.
  apply (rejected_chunk_stops_commit_without_local_effects drifting "s1" (4, false) e 1
           (mkAppendRequest "s1" 5 [mkOp "restore" [3]]) (6, true) (6, true)
           (Rejected "version conflict")).
  - vm_compute. reflexivity.
  - vm_compute. reflexivity.
  - vm_compute. reflexivity.
  - vm_compute. reflexivity.
Defined.

Lemma rejected_commit_is_logged_witness :
  let e := withPending (allocatedEditor 8 0) [5] [] in
  ∃ c, applySelection versionedLog (Some "s1") 3 e = Some c
    ∧ settled c = Normal ()
    ∧ consoleErrors (editor c)
      = ApplySelectionError (Rejected "version conflict") :: consoleErrors e.
Proof.
  intros e.
  apply (rejected_commit_is_logged_and_swallowed versionedLog "s1" 3 e
           (Rejected "version conflict")).
  vm_compute. reflexivity.
Defined.

(** The claim that a failed submission propagates out of
    [applySelection] fails: against a log at version 3, a commit based on
    version 0 has its only request rejected, and the call returns
    normally. *)
Lemma commit_failure_propagates_counterexample :
  ¬ (∀ (appendOps : Z → AppendRequest → Completion unit * Z)
       (sid : string) (srv : Z) (e : Editor) (c : Commit) (err : JsError),
       applySelection appendOps (Some sid) srv e = Some c →
       outcome (serve appendOps
                  (commitPlan (Z.to_nat MAX_INDICES_PER_OP) sid (sessionVersionRef e)
                     (pendingDeleteRef e) (pendingRestoreRef e))
                  (sessionVersionRef e) srv []) = Throw err →
       settled c = Throw err).
Proof.
  intros Hclaim.
  pose (e := withPending (allocatedEditor 8 0) [5] []).
  destruct (applySelection_runs versionedLog "s1" 3 e) as (c & Hrun & _ & _ & Hsettled & _).
  specialize (Hclaim versionedLog "s1" 3 e c (Rejected "version conflict") Hrun).
  rewrite Hsettled in Hclaim. discriminate Hclaim.
  vm_compute. reflexivity.
Qed.

(** A pending set of 20,001 indices is cut into a chunk of 20,000 indices
    and a chunk of one index, with consecutive base versions. *)
Example commitPlan_of_20001_indices :
  (λ req, (baseVersion req, (λ op, Z.of_nat (length (indices op))) <$> ops req))
    <$> commitPlan (Z.to_nat MAX_INDICES_PER_OP) "s1" 7 (seqZ 0 20001) []
  = [(7, [20000]); (8, [1])].
Proof. vm_compute. reflexivity. Qed.

(** Indices 5, 9 and 12 brushed for deletion and committed with a chunk
    size of 2, from version 7: two requests, then the three points are
    deleted and compacted away. *)
Example commit_5_9_12_in_chunks_of_2 :
  let e0 := withSessionVersion (allocatedEditor 16 0) 7 in
  let e1 := (applyBrush [Some 5; Some 9; Some 12] Tool.delete e0).2 in
  ∃ c, applySelectionWith versionedLog 2 (Some "s1") 7 e1 = Some c
    ∧ requests c = [mkAppendRequest "s1" 7 [mkOp "delete" [5; 9]];
                    mkAppendRequest "s1" 8 [mkOp "delete" [12]]]
    ∧ backend c = 9
    ∧ sessionVersionRef (editor c) = 9
    ∧ deletedSetRef (editor c) = [5; 9; 12]
    ∧ pendingDeleteRef (editor c) = []
    ∧ dispatched (editor c) = [GeometryCompacted 3]
    ∧ (status <$> buffersRef (editor c)) = Some (replicate 13 0).
Proof. eexists. vm_compute. by repeat split. Qed.
End CommitExamples.

(** ** The sample of the camera-pose initializer *)

Section CameraSampling.
Import CameraInit.

Lemma ceil_steps_done count i stride :
  0 < stride → count ≤ i → Z.max 0 ((count - i + stride - 1) / stride) = 0.
Proof.
  intros Hs Hge.
  assert ((count - i + stride - 1) / stride < 1); [|lia].
  apply Z.div_lt_upper_bound; lia.
Qed.

Lemma ceil_steps_next count i stride :
  0 < stride → i < count →
  Z.max 0 ((count - i + stride - 1) / stride)
  = 1 + Z.max 0 ((count - (i + stride) + stride - 1) / stride).
Proof.
  intros Hs Hlt.
  replace (count - i + stride - 1) with (count - (i + stride) + stride - 1 + 1 * stride)
    by lia.
  rewrite Z.div_add by lia.
  assert (0 ≤ (count - (i + stride) + stride - 1) / stride); [|lia].
  apply Z.div_pos; lia.
Qed.

Lemma sampleLoop_length fuel i count stride positions :
  0 < stride → (Z.to_nat (count - i) ≤ fuel)%nat →
  ∃ points, sampleLoop fuel i count stride positions = Some points
    ∧ Z.of_nat (length points) = Z.max 0 ((count - i + stride - 1) / stride).
Proof.
  intros Hs. revert i. induction fuel as [|fuel IH]; intros i Hfuel;
    cbn [sampleLoop]; destruct (Z.ltb_spec i count) as [Hlt|Hge]; try lia.
  - exists []. split; [done|]. by rewrite ceil_steps_done.
  - destruct (IH (i + stride)) as (rest & -> & Hlen); [lia|].
    eexists. split; [done|]. cbn [length].
    rewrite Nat2Z.inj_succ, Hlen, (ceil_steps_next count i) by done. lia.
  - exists []. split; [done|]. by rewrite ceil_steps_done.
Qed.

Lemma strideFor_pos count : 0 < strideFor count.
Proof. unfold strideFor. lia. Qed.

(** The sampling ends, and takes [ceil(count / stride)] points. *)
Lemma cameraSamples_count b geom :
  let count := toInt32 (Tools.drawRange geom).2 in
  20000 ≤ count →
  ∃ points, cameraSamples false (Some b) (Some geom) true = Some (Sampled points)
    ∧ Z.of_nat (length points) = (count + strideFor count - 1) / strideFor count.
Proof.
  intros count Hcount. unfold cameraSamples. simpl. fold count.
  destruct (Z.ltb_spec count 20000); [lia|].
  destruct (sampleLoop_length (Z.to_nat count) 0 count (strideFor count) (positions b))
    as (points & -> & Hlen); [apply strideFor_pos|lia|].
  exists points. split; [done|]. rewrite Hlen, Z.sub_0_r.
  pose proof (strideFor_pos count).
  assert (0 ≤ (count + strideFor count - 1) / strideFor count); [|lia].
  apply Z.div_pos; lia.
Qed.

(** [C9, evaluated] With 239,999 points in the draw range the stride is
    [floor(239999 / 120000) = 1], and the sample holds all 239,999
    points, more than the 120,000 of [maxSamples]. *)
Theorem camera_sample_exceeds_maxSamples (b : InternalBuffers) :
  ∃ points,
    cameraSamples false (Some b) (Some (Tools.mkGeometry (0, 239999) true)) true
    = Some (Sampled points)
    ∧ Z.of_nat (length points) = 239999
    ∧ maxSamples < Z.of_nat (length points).
Proof.
  destruct (cameraSamples_count b (Tools.mkGeometry (0, 239999) true))
    as (points & Hrun & Hlen).
  { vm_compute. discriminate. }
  exists points. split; [done|].
  assert (Z.of_nat (length points) = 239999) as ->.
  { rewrite Hlen. vm_compute. reflexivity. }
  split; [done|]. unfold maxSamples. lia.
Qed.

(** What does hold: the sample stays below twice [maxSamples]. *)
Lemma camera_sample_below_twice_maxSamples b geom points :
  cameraSamples false (Some b) (Some geom) true = Some (Sampled points) →
  Z.of_nat (length points) < 2 * maxSamples.
Proof.
  unfold cameraSamples. simpl.
  set (count := toInt32 (Tools.drawRange geom).2).
  destruct (Z.ltb_spec count 20000) as [|Hcount]; [done|].
  destruct (cameraSamples_count b geom Hcount) as (points' & Hrun & Hlen).
  unfold cameraSamples in Hrun. simpl in Hrun. fold count in Hrun, Hlen.
  destruct (Z.ltb_spec count 20000); [lia|].
  rewrite Hrun. intros [= <-]. rewrite Hlen.
  unfold strideFor, maxSamples.
  destruct (Z.max_spec 1 (count / 120000)) as [[Hq ->]|[Hq ->]].
  - apply Z.div_lt_upper_bound; [lia|].
    pose proof (Z.div_mod count 120000 ltac:(lia)) as Hdm.
    pose proof (Z.mod_pos_bound count 120000 ltac:(lia)) as Hmod.
    nia.
  - rewrite Z.div_1_r.
    pose proof (Z.div_mod count 120000 ltac:(lia)) as Hdm.
    pose proof (Z.mod_pos_bound count 120000 ltac:(lia)) as Hmod.
    lia.
Qed.
End CameraSampling.

(* ===================================================================== *)
(** * Part II, continued: properties of the code around the engine        *)
(* ===================================================================== *)

(** ** Indices in a [Float32Array] *)

Section Float32Index.

Lemma fround_small (n : Z) : Z.abs n ≤ 2 ^ 24 → fround n = n.
Proof.
  intros Hn. unfold fround.
  destruct (Z.ltb_spec (Z.abs n) (2 ^ 24)) as [|Hge]; [done|].
  assert (n = 2 ^ 24 ∨ n = - 2 ^ 24) as [-> | ->] by lia; reflexivity.
Qed.

(** Above [2^24] the element holds the multiple of [2^e] nearest to the
    integer assigned, [e] being the number of bits that do not fit in the
    significand; of two nearest multiples it holds the even one. *)
Lemma fround_nearest (n : Z) :
  2 ^ 24 ≤ n →
  let e := Z.log2 n - 23 in
  ∃ q, fround n = q * 2 ^ e ∧ 2 ^ 23 ≤ q ≤ 2 ^ 24
       ∧ 2 * Z.abs (fround n - n) ≤ 2 ^ e
       ∧ (2 * Z.abs (fround n - n) = 2 ^ e → Z.even q = true).
Proof.
  intros Hn e. unfold fround.
  assert (Hpos : 0 < n) by lia.
  rewrite (Z.abs_eq n) by lia.
  destruct (Z.ltb_spec n (2 ^ 24)) as [|_]; [lia|].
  rewrite (Z.sgn_pos n) by lia. fold e. cbv zeta.
  pose proof (Z.log2_spec n Hpos) as [Hlo Hhi].
  assert (Hl : 24 ≤ Z.log2 n).
  { apply Z.log2_le_pow2; lia. }
  assert (He : 1 ≤ e) by (unfold e; lia).
  rewrite Z.shiftr_div_pow2, !Z.shiftl_mul_pow2, Z.mul_1_l by lia.
  set (P := 2 ^ e) in *. set (H := 2 ^ (e - 1)).
  assert (HP : P = 2 * H).
  { unfold P, H. replace e with (Z.succ (e - 1)) at 1 by lia.
    rewrite Z.pow_succ_r by lia. done. }
  assert (HHpos : 0 < H) by (apply Z.pow_pos_nonneg; lia).
  assert (Hlog : 2 ^ Z.log2 n = 2 ^ 23 * P).
  { unfold P. rewrite <- Z.pow_add_r by lia. f_equal. unfold e. lia. }
  assert (Hlog' : 2 ^ Z.succ (Z.log2 n) = 2 ^ 24 * P).
  { unfold P. rewrite <- Z.pow_add_r by lia. f_equal. unfold e. lia. }
  pose proof (Z.div_mod n P ltac:(lia)) as Hdm.
  pose proof (Z.mod_pos_bound n P ltac:(lia)) as Hr.
  set (q := n / P) in *. set (r := n mod P) in *.
  rewrite Hlog in Hlo. rewrite Hlog' in Hhi.
  assert (Hq : 2 ^ 23 ≤ q < 2 ^ 24).
  { split.
    - apply Z.div_le_lower_bound; [lia|]. clearbody P. lia.
    - apply Z.div_lt_upper_bound; [lia|]. clearbody P. lia. }
  clearbody q r. clear Hlog Hlog'. clearbody P H. clearbody e.
  replace (n - q * P) with r by lia. rewrite !(Z.mul_1_l H).
  destruct (Z.ltb_spec r H) as [Hlt|Hge].
  - exists q. split; [lia|]. split; [lia|]. split; lia.
  - destruct (Z.ltb_spec H r) as [Hgt|Hle].
    + exists (q + 1). split; [lia|]. split; [lia|]. split; nia.
    + assert (r = H) by lia.
      destruct (Z.even q) eqn:Hev.
      * exists q. split; [lia|]. split; [lia|]. split; [lia|done].
      * exists (q + 1). split; [lia|]. split; [lia|]. split; [nia|].
        intros _. rewrite Z.even_add, Hev. done.
Qed.

(** The first index that a [Float32Array] cannot hold. *)
Example fround_16777217 :
  fround 16777216 = 16777216 ∧ fround 16777217 = 16777216
  ∧ fround 16777218 = 16777218 ∧ fround 16777219 = 16777220.
Proof. by vm_compute. Qed.

End Float32Index.

(** ** What [parseTile] writes *)

Section ParseTileWrites.
Import TileParser StoreView Tools.

Lemma storePoint_shape b gi p : shape (storePoint b gi p) = shape b.
Proof.
  unfold shape, storePoint. simpl. rewrite !length_setElem.
  by destruct (intensities b), (lodIndex b); simpl; rewrite ?length_setElem.
Qed.

Lemma parsePoints_shape n i offset buffer tile b box :
  shape (parsePoints n i offset buffer tile b box).1.2 = shape b.
Proof.
  revert i offset b box. induction n as [|n IH]; intros i offset b box; simpl; [done|].
  destruct (readPoint buffer offset) as [p|e]; [|done].
  by rewrite IH, storePoint_shape.
Qed.

Lemma storePoint_slot_other b gj p gi : gi ≠ gj → slot (storePoint b gj p) gi = slot b gi.
Proof.
  intros Hne. unfold slot, storePoint. simpl.
  rewrite !elem_setElem_ne by lia.
  by destruct (intensities b), (lodIndex b); simpl; rewrite ?elem_setElem_ne by lia.
Qed.

Lemma storePoint_slot_same b n gi p :
  holds_points b n → 0 ≤ gi < Z.of_nat n →
  slot (storePoint b gi p) gi = storedSlot b gi p.
Proof.
  intros (Hpos & Hcol & Hst & Hsel & Hint & Hlod) Hgi.
  unfold slot, storedSlot, storePoint. simpl.
  rewrite (elem_setElem_ne _ (gi * 3 + 2) (gi * 3)),
    (elem_setElem_ne _ (gi * 3 + 1) (gi * 3)) by lia.
  rewrite (elem_setElem_ne _ (gi * 3 + 2) (gi * 3 + 1)) by lia.
  rewrite !elem_setElem_eq by (rewrite ?length_setElem; lia).
  rewrite (elem_setElem_ne _ (gi * 3 + 2) (gi * 3)),
    (elem_setElem_ne _ (gi * 3 + 1) (gi * 3)) by lia.
  rewrite (elem_setElem_ne _ (gi * 3 + 2) (gi * 3 + 1)) by lia.
  rewrite !elem_setElem_eq by (rewrite ?length_setElem; lia).
  destruct (intensities b) as [ints|] eqn:Hi, (lodIndex b) as [lod|] eqn:Hl; simpl;
    rewrite ?elem_setElem_eq; try done;
    try (specialize (Hint ints eq_refl)); try (specialize (Hlod lod eq_refl)); lia.
Qed.

Lemma storePoint_holds_points b n gi p :
  holds_points b n → holds_points (storePoint b gi p) n.
Proof.
  intros (Hpos & Hcol & Hst & Hsel & Hint & Hlod).
  unfold holds_points, storePoint. simpl. rewrite !length_setElem.
  repeat split; try done.
  - intros ints. destruct (intensities b) as [a|]; simpl; [|done].
    intros [= <-]. rewrite length_setElem. by apply Hint.
  - intros lod. destruct (lodIndex b) as [a|]; simpl; [|done].
    intros [= <-]. rewrite length_setElem. by apply Hlod.
Qed.

Lemma storedSlot_storePoint b gj q gi p :
  storedSlot (storePoint b gj q) gi p = storedSlot b gi p.
Proof.
  unfold storedSlot, baseColor, storePoint. simpl.
  by destruct (intensities b), (lodIndex b).
Qed.

Lemma parsePoints_slot_outside n i offset buffer tile b box gi :
  ¬ (Tile.base_index tile + i ≤ gi < Tile.base_index tile + i + Z.of_nat n) →
  slot (parsePoints n i offset buffer tile b box).1.2 gi = slot b gi.
Proof.
  revert i offset b box. induction n as [|n IH]; intros i offset b box Hout; simpl; [done|].
  destruct (readPoint buffer offset) as [p|e]; [|done].
  rewrite IH by lia. apply storePoint_slot_other. lia.
Qed.

Lemma parsePoints_holds_points n i offset buffer tile b box m :
  holds_points b m → holds_points (parsePoints n i offset buffer tile b box).1.2 m.
Proof.
  revert i offset b box. induction n as [|n IH]; intros i offset b box Hh; simpl; [done|].
  destruct (readPoint buffer offset) as [p|e]; [|done].
  by apply IH, storePoint_holds_points.
Qed.

Lemma parsePoints_storedSlot n i offset buffer tile b box gi p :
  storedSlot (parsePoints n i offset buffer tile b box).1.2 gi p = storedSlot b gi p.
Proof.
  revert i offset b box. induction n as [|n IH]; intros i offset b box; simpl; [done|].
  destruct (readPoint buffer offset) as [q|e]; [|done].
  by rewrite IH, storedSlot_storePoint.
Qed.

(** Reading a record succeeds exactly when its sixteen bytes are there; a
    failure is a [RangeError]. *)
Lemma byteAt_lt buffer off :
  (off < length buffer)%nat → ∃ v, DataView.byteAt buffer off = Some v.
Proof.
  intros Hlt. unfold DataView.byteAt.
  destruct (lookup_lt_is_Some_2 buffer off Hlt) as [x ->]. by eexists.
Qed.

Lemma byteAt_ge buffer off :
  (length buffer ≤ off)%nat → DataView.byteAt buffer off = None.
Proof.
  intros Hge. unfold DataView.byteAt. by rewrite lookup_ge_None_2.
Qed.

Lemma getUint8_ok buffer off :
  (off < length buffer)%nat → ∃ v, DataView.getUint8 buffer off = Normal v.
Proof.
  intros Hlt. unfold DataView.getUint8.
  destruct (byteAt_lt buffer off Hlt) as [v ->]. by eexists.
Qed.

Lemma getUint32_ok buffer off :
  (off + 3 < length buffer)%nat → ∃ v, DataView.getUint32 buffer off = Normal v.
Proof.
  intros Hlt. unfold DataView.getUint32.
  destruct (byteAt_lt buffer off) as [v0 ->]; [lia|].
  destruct (byteAt_lt buffer (off + 1)) as [v1 ->]; [lia|].
  destruct (byteAt_lt buffer (off + 2)) as [v2 ->]; [lia|].
  destruct (byteAt_lt buffer (off + 3)) as [v3 ->]; [lia|].
  by eexists.
Qed.

Lemma getUint32_throws buffer off e :
  DataView.getUint32 buffer off = Throw e → e = RangeError.
Proof.
  unfold DataView.getUint32.
  destruct (DataView.byteAt buffer off), (DataView.byteAt buffer (off + 1)),
    (DataView.byteAt buffer (off + 2)), (DataView.byteAt buffer (off + 3));
    congruence.
Qed.

Lemma getFloat32_ok buffer off :
  (off + 3 < length buffer)%nat → ∃ v, DataView.getFloat32 buffer off = Normal v.
Proof.
  intros Hlt. unfold DataView.getFloat32.
  destruct (getUint32_ok buffer off Hlt) as [v ->]. by eexists.
Qed.

Lemma readPoint_ok buffer offset :
  (offset + 16 ≤ length buffer)%nat → ∃ p, readPoint buffer offset = Normal p.
Proof.
  intros Hlen. unfold readPoint.
  destruct (getFloat32_ok buffer offset) as [x ->]; [lia|].
  destruct (getFloat32_ok buffer (offset + 4)) as [y ->]; [lia|].
  destruct (getFloat32_ok buffer (offset + 8)) as [z ->]; [lia|].
  destruct (getUint8_ok buffer (offset + 12)) as [r ->]; [lia|].
  destruct (getUint8_ok buffer (offset + 13)) as [g ->]; [lia|].
  destruct (getUint8_ok buffer (offset + 14)) as [bl ->]; [lia|].
  destruct (getUint8_ok buffer (offset + 15)) as [int ->]; [lia|].
  by eexists.
Qed.

Lemma readPoint_short buffer offset :
  (length buffer < offset + 16)%nat → readPoint buffer offset = Throw RangeError.
Proof.
  intros Hlen. unfold readPoint, DataView.getFloat32.
  repeat match goal with
  | |- context [DataView.getUint32 buffer ?o] =>
      let H := fresh in
      destruct (DataView.getUint32 buffer o) as [?|?] eqn:H;
      [|by apply getUint32_throws in H as ->]
  end.
  unfold DataView.getUint8.
  rewrite (byteAt_ge buffer (offset + 15)) by lia.
  by repeat match goal with
  | |- context [DataView.byteAt buffer ?o] => destruct (DataView.byteAt buffer o)
  end.
Qed.

Lemma parsePoints_records n k i offset buffer tile b box m :
  holds_points b m → (k ≤ n)%nat → (offset + 16 * k ≤ length buffer)%nat →
  ((k < n)%nat → (length buffer < offset + 16 * (k + 1))%nat) →
  let r := parsePoints n i offset buffer tile b box in
  r.1.1 = (if decide (k = n) then Normal () else Throw RangeError)
  ∧ length r.2 = (length box + k)%nat
  ∧ ∀ j, (j < k)%nat →
      ∃ p, readPoint buffer (offset + 16 * j) = Normal p
        ∧ (0 ≤ Tile.base_index tile + i + Z.of_nat j < Z.of_nat m →
           slot r.1.2 (Tile.base_index tile + i + Z.of_nat j)
           = storedSlot b (Tile.base_index tile + i + Z.of_nat j) p).
Proof.
  revert k i offset b box.
  induction n as [|n IH]; intros k i offset b box Hh Hk Hlen Hcut; cbn [parsePoints].
  - assert (k = 0%nat) as -> by lia. split; [done|]. split; [simpl; lia|]. intros j; lia.
  - destruct k as [|k].
    + rewrite readPoint_short by (specialize (Hcut ltac:(lia)); lia).
      cbn [fst snd]. split; [done|]. split; [lia|]. intros j; lia.
    + destruct (readPoint_ok buffer offset) as [p0 Hp0]; [lia|]. rewrite Hp0.
      destruct (IH k (i + 1) (offset + 16)%nat
                  (storePoint b (Tile.base_index tile + i) p0)
                  ((px p0, py p0, pz p0) :: box)) as (Hout & Hbox & Hrec).
      { by apply storePoint_holds_points. }
      { lia. }
      { lia. }
      { intros Hlt. specialize (Hcut ltac:(lia)). lia. }
      split.
      { rewrite Hout. destruct (decide (k = n)), (decide (S k = S n)); try done; lia. }
      split; [rewrite Hbox; simpl; lia|].
      intros [|j] Hj.
      * exists p0. rewrite Nat.mul_0_r, Nat.add_0_r. split; [done|].
        rewrite Z.add_0_r. intros Hrange.
        rewrite parsePoints_slot_outside by lia.
        by apply (storePoint_slot_same b m).
      * destruct (Hrec j) as (p & Hp & Hslot); [lia|].
        exists p. replace (offset + 16 * S j)%nat with (offset + 16 + 16 * j)%nat by lia.
        split; [done|]. intros Hrange.
        replace (Tile.base_index tile + i + Z.of_nat (S j))
          with (Tile.base_index tile + (i + 1) + Z.of_nat j) by lia.
        rewrite Hslot by lia. apply storedSlot_storePoint.
Qed.

(** [X1] Whatever the payload and the descriptor of the tile say,
    [parseTile] leaves the six arrays at their lengths: a write beyond the
    capacity of the store is dropped, not appended. *)
Theorem parseTile_keeps_array_lengths
    (buffer : list byte) (tile : Tile.t) (b : InternalBuffers) (box : Box3) :
  shape (parseTile buffer tile b box).1.2 = shape b.
Proof.
  unfold parseTile.
  destruct (DataView.getUint32 buffer 0) as [magic|e]; [|done].
  case_bool_decide; [done|].
  destruct (DataView.getUint32 buffer 6) as [count|e]; [|done].
  apply parsePoints_shape.
Qed.

(** [X2] [parseTile] writes only to the points of the tile: the point of
    a global index outside [[base_index, base_index + count)], [count]
    being the count of the header, keeps its position, colour, status,
    selection, intensity and LOD index, also when the parse throws. *)
Theorem parseTile_writes_only_tile_range
    (buffer : list byte) (tile : Tile.t) (b : InternalBuffers) (box : Box3) (gi : Z) :
  ¬ (Tile.base_index tile ≤ gi < Tile.base_index tile + declaredCount buffer) →
  slot (parseTile buffer tile b box).1.2 gi = slot b gi.
Proof.
  intros Hout. unfold parseTile, declaredCount in *.
  destruct (DataView.getUint32 buffer 0) as [magic|e]; [|done].
  case_bool_decide; [done|].
  destruct (DataView.getUint32 buffer 6) as [count|e]; [|done].
  apply parsePoints_slot_outside. lia.
Qed.

Lemma parseTile_writes_only_tile_range_witness :
  slot (parseTile Payloads.twoPoints Payloads.tileAt1 (allocateBuffers 4) []).1.2 3
  = slot (allocateBuffers 4) 3.
Proof.
  apply (parseTile_writes_only_tile_range
           Payloads.twoPoints Payloads.tileAt1 (allocateBuffers 4) [] 3).
  vm_compute. intros [_ Hlt]. discriminate Hlt.
Defined.

(** In a store of more than [2^24] points the loop body stores 16777216
    as the LOD index of the point 16777217: the index of its neighbour. *)
Lemma storePoint_rounds_large_index b lod p :
  lodIndex b = Some lod → 16777217 < Z.of_nat (length lod) →
  ∃ lod', lodIndex (storePoint b 16777217 p) = Some lod'
    ∧ elem lod' 16777217 = Some 16777216.
Proof.
  intros Hlod Hlen. unfold storePoint. cbn [lodIndex]. rewrite Hlod.
  replace (fround 16777217) with 16777216 by (vm_compute; reflexivity).
  eexists. split; [reflexivity|]. apply elem_setElem_eq. lia.
Qed.

(** [X3] A payload with the magic, a count [n] and all [n] records is
    parsed to the end: every record is read, the bounding box is expanded
    by [n] points, and each point of the tile that lies in the store holds
    afterwards the coordinates of its record, a gray of the base colour,
    status 0, selection 0, the intensity of the record when intensities are
    kept, and as LOD index its global index rounded to a 32-bit float,
    which is the global index itself up to [2^24]. *)
Theorem parseTile_complete_payload
    (buffer : list byte) (tile : Tile.t) (b : InternalBuffers) (box : Box3) (m : nat) :
  DataView.getUint32 buffer 0 = Normal MAGIC →
  (10 + 16 * Z.to_nat (declaredCount buffer) ≤ length buffer)%nat →
  holds_points b m →
  let r := parseTile buffer tile b box in
  r.1.1 = Normal ()
  ∧ length r.2 = (length box + Z.to_nat (declaredCount buffer))%nat
  ∧ holds_points r.1.2 m
  ∧ ∀ j, (j < Z.to_nat (declaredCount buffer))%nat →
      let gi := Tile.base_index tile + Z.of_nat j in
      ∃ p, readPoint buffer (10 + 16 * j) = Normal p
        ∧ (0 ≤ gi < Z.of_nat m →
           slot r.1.2 gi = storedSlot b gi p
           ∧ ∀ lod, lodIndex r.1.2 = Some lod →
               elem lod gi = Some (fround gi) ∧ (gi ≤ 2 ^ 24 → elem lod gi = Some gi)).
Proof.
  intros Hmagic Hlen Hh. unfold parseTile, declaredCount in *. rewrite Hmagic.
  rewrite bool_decide_eq_false_2 by (intros Hne; by apply Hne).
  destruct (getUint32_ok buffer 6) as [count Hcount]; [lia|].
  rewrite Hcount in *. cbv zeta.
  destruct (parsePoints_records (Z.to_nat count) (Z.to_nat count) 0 10 buffer tile b box m)
    as (Hout & Hbox & Hrec); [done|lia|done|lia|].
  rewrite decide_True in Hout by done.
  split; [done|]. split; [done|]. split; [by apply parsePoints_holds_points|].
  intros j Hj. destruct (Hrec j Hj) as (p & Hp & Hslot).
  exists p. split; [done|]. rewrite Z.add_0_r in Hslot.
  intros Hgi. specialize (Hslot Hgi). split; [done|].
  intros lod Hlod.
  assert (Hlast : elem lod (Tile.base_index tile + Z.of_nat j)
                  = Some (fround (Tile.base_index tile + Z.of_nat j))).
  { unfold slot, storedSlot in Hslot. rewrite Hlod in Hslot.
    injection Hslot as _ _ _ _ _ _ _ _ _ Hl.
    destruct (lodIndex b); simpl in Hl; [|done]. by injection Hl. }
  split; [done|]. intros Hsmall. rewrite Hlast, fround_small; [done|lia].
Qed.

Lemma parseTile_complete_payload_witness :
  let r := parseTile Payloads.twoPoints Payloads.tileAt1 (allocateBuffers 4) [] in
  r.1.1 = Normal ()
  ∧ length r.2 = (length ([] : Box3) + Z.to_nat (declaredCount Payloads.twoPoints))%nat
  ∧ holds_points r.1.2 4
  ∧ ∀ j, (j < Z.to_nat (declaredCount Payloads.twoPoints))%nat →
      let gi := Tile.base_index Payloads.tileAt1 + Z.of_nat j in
      ∃ p, readPoint Payloads.twoPoints (10 + 16 * j) = Normal p
        ∧ (0 ≤ gi < Z.of_nat 4 →
           slot r.1.2 gi = storedSlot (allocateBuffers 4) gi p
           ∧ ∀ lod, lodIndex r.1.2 = Some lod →
               elem lod gi = Some (fround gi) ∧ (gi ≤ 2 ^ 24 → elem lod gi = Some gi)).
Proof.
  apply (parseTile_complete_payload
           Payloads.twoPoints Payloads.tileAt1 (allocateBuffers 4) [] 4).
  - reflexivity.
  - vm_compute. lia.
  - repeat split; try reflexivity.
    + by intros ints [=].
    + by intros lod [= <-].
Defined.

(** [X4] A payload with the magic that ends after [k] complete records,
    [k] below the count of its header, makes [parseTile] throw a
    [RangeError], but not before the first [k] points were stored: the
    parse of a truncated tile is not undone. *)
Theorem parseTile_truncated_payload
    (buffer : list byte) (tile : Tile.t) (b : InternalBuffers) (box : Box3) (m k : nat) :
  DataView.getUint32 buffer 0 = Normal MAGIC →
  (k < Z.to_nat (declaredCount buffer))%nat →
  (10 + 16 * k ≤ length buffer < 10 + 16 * (k + 1))%nat →
  holds_points b m →
  let r := parseTile buffer tile b box in
  r.1.1 = Throw RangeError
  ∧ length r.2 = (length box + k)%nat
  ∧ ∀ j, (j < k)%nat →
      ∃ p, readPoint buffer (10 + 16 * j) = Normal p
        ∧ (0 ≤ Tile.base_index tile + Z.of_nat j < Z.of_nat m →
           slot r.1.2 (Tile.base_index tile + Z.of_nat j)
           = storedSlot b (Tile.base_index tile + Z.of_nat j) p).
Proof.
  intros Hmagic Hk Hlen Hh. unfold parseTile, declaredCount in *. rewrite Hmagic.
  rewrite bool_decide_eq_false_2 by (intros Hne; by apply Hne).
  destruct (DataView.getUint32 buffer 6) as [count|e]; simpl in *; [|lia].
  destruct (parsePoints_records (Z.to_nat count) k 0 10 buffer tile b box m)
    as (Hout & Hbox & Hrec); [done|lia|lia|lia|].
  rewrite decide_False in Hout by lia.
  split; [done|]. split; [done|].
  intros j Hj. destruct (Hrec j Hj) as (p & Hp & Hslot).
  exists p. split; [done|]. by rewrite Z.add_0_r in Hslot.
Qed.

Lemma parseTile_truncated_payload_witness :
  let r := parseTile Payloads.cutShort Payloads.tileAt1 (allocateBuffers 4) [] in
  r.1.1 = Throw RangeError
  ∧ length r.2 = (length ([] : Box3) + 1)%nat
  ∧ ∀ j, (j < 1)%nat →
      ∃ p, readPoint Payloads.cutShort (10 + 16 * j) = Normal p
        ∧ (0 ≤ Tile.base_index Payloads.tileAt1 + Z.of_nat j < Z.of_nat 4 →
           slot r.1.2 (Tile.base_index Payloads.tileAt1 + Z.of_nat j)
           = storedSlot (allocateBuffers 4) (Tile.base_index Payloads.tileAt1 + Z.of_nat j) p).
Proof.
  apply (parseTile_truncated_payload
           Payloads.cutShort Payloads.tileAt1 (allocateBuffers 4) [] 4 1).
  - reflexivity.
  - vm_compute. lia.
  - vm_compute. lia.
  - repeat split; try reflexivity.
    + by intros ints [=].
    + by intros lod [= <-].
Defined.

(** The two points of the complete tile, stored at the global indices 1
    and 2 of a store of four points. *)
Example parseTile_two_points :
  let r := parseTile Payloads.twoPoints Payloads.tileAt1 (allocateBuffers 4) [] in
  r.1.1 = Normal ()
  ∧ positions r.1.2
    = F32bits <$> [0; 0; 0; 0x3f800000; 0x40000000; 0x40400000;
                   0x40800000; 0x40a00000; 0x40c00000; 0; 0; 0]
  ∧ take 6 (drop 3 (colors r.1.2))
    = replicate 3 (Num (7 # 20)) ++ replicate 3 (Num (255 # 255))
  ∧ lodIndex r.1.2 = Some [0; 1; 2; 0].
Proof. vm_compute. by repeat split. Qed.
End ParseTileWrites.

(** ** The load of the tiles *)

Section LoadRuns.
Import TileParser TilesLoader LoadTiles.

Lemma getUint32_Normal_length buffer off v :
  DataView.getUint32 buffer off = Normal v → (off + 3 < length buffer)%nat.
Proof.
  unfold DataView.getUint32, DataView.byteAt. intros H.
  destruct (buffer !! (off + 3)%nat) as [x|] eqn:Hx.
  - by apply lookup_lt_Some in Hx.
  - simpl in H. by destruct (buffer !! off), (buffer !! (off + 1)%nat),
      (buffer !! (off + 2)%nat).
Qed.

Lemma parsePoints_outcome n i offset buffer tile b box :
  (parsePoints n i offset buffer tile b box).1.1
  = if decide (n = 0%nat ∨ (offset + 16 * n ≤ length buffer)%nat)
    then Normal () else Throw RangeError.
Proof.
  revert i offset b box. induction n as [|n IH]; intros i offset b box; cbn [parsePoints].
  - by rewrite decide_True by (by left).
  - destruct (decide (offset + 16 ≤ length buffer)%nat) as [Hle|Hgt].
    + destruct (readPoint_ok buffer offset Hle) as [p ->]. rewrite IH.
      destruct (decide (n = 0%nat ∨ (offset + 16 + 16 * n ≤ length buffer)%nat)),
        (decide (S n = 0%nat ∨ (offset + 16 * S n ≤ length buffer)%nat)); try done; lia.
    + rewrite readPoint_short by lia. cbn [fst snd].
      rewrite decide_False; [done|lia].
Qed.

(** Whether [parseTile] returns or throws is a matter of the payload
    alone. *)
Lemma parseTile_outcome buffer tile b box :
  (parseTile buffer tile b box).1.1 = Normal () ↔ wellFormed buffer = true.
Proof.
  unfold parseTile, wellFormed.
  destruct (DataView.getUint32 buffer 0) as [magic|e]; [|done].
  destruct (DataView.getUint32 buffer 6) as [count|e] eqn:Hcount.
  - apply getUint32_Normal_length in Hcount.
    do 2 case_bool_decide; simpl; try done.
    rewrite parsePoints_outcome.
    case_bool_decide; destruct (decide _) as [Hd|Hd]; try done; exfalso; lia.
  - by case_bool_decide; simpl; try case_bool_decide.
Qed.


Lemma runOne_cancelled points_total tiles a l :
  cancelled l = true → runOne points_total tiles a l = l.
Proof.
  intros Hc. unfold runOne, catchTileError. rewrite Hc. by destruct (fetched a).
Qed.

Lemma loadRun_cancelled points_total tiles evs l :
  cancelled l = true → loadRun points_total tiles evs l = l.
Proof.
  unfold loadRun. revert l. induction evs as [|ev evs IH]; intros l Hc; simpl; [done|].
  destruct ev as [a|]; simpl.
  - rewrite runOne_cancelled by done. by apply IH.
  - assert (cleanup l = l) as ->; [|by apply IH].
    destruct l. simpl in Hc. by subst.
Qed.

Lemma runOne_keeps_cancelled points_total tiles a l :
  cancelled (runOne points_total tiles a l) = cancelled l.
Proof.
  unfold runOne, catchTileError.
  destruct (fetched a) as [e|buffer].
  - by destruct (cancelled l) eqn:Hc.
  - destruct (cancelled l) eqn:Hc; [done|].
    destruct (parseTile buffer (ofTile a) (store l) (boundingBox l)) as [[[[]|e] b'] box'];
      simpl; rewrite ?Hc; [|done].
    case_bool_decide; simpl; destruct (poseInitialized l); simpl; rewrite ?Hc; try done;
      destruct (poseAttempt a); simpl; by rewrite ?Hc.
Qed.

(** A call of [runOne] leaves the flags, the head and the draw range, or
    it marks its tile, and that only for a payload that parsed. *)
Lemma runOne_progress points_total tiles a l :
  progress (runOne points_total tiles a l) = progress l
  ∨ (delivered a = Some (ofTile a)
     ∧ progress (runOne points_total tiles a l)
       = tileCompleted points_total tiles (progress l) (ofTile a)).
Proof.
  unfold runOne, catchTileError, delivered.
  destruct (fetched a) as [e|buffer].
  - left. by destruct (cancelled l).
  - destruct (cancelled l) eqn:Hc; [by left|].
    pose proof (parseTile_outcome buffer (ofTile a) (store l) (boundingBox l)) as Hout.
    destruct (parseTile buffer (ofTile a) (store l) (boundingBox l)) as [[[[]|e] b'] box'];
      simpl in *; rewrite ?Hc; [|by left].
    rewrite (proj1 Hout eq_refl).
    case_bool_decide; simpl; destruct (poseInitialized l); simpl; rewrite ?Hc;
      try (by right); destruct (poseAttempt a); simpl; rewrite ?Hc;
      first [by left | by right].
Qed.

Lemma loadRun_snoc points_total tiles evs ev l :
  loadRun points_total tiles (evs ++ [ev]) l
  = loadStep points_total tiles (loadRun points_total tiles evs l) ev.
Proof. unfold loadRun. by rewrite foldl_snoc. Qed.

Lemma loadRun_app points_total tiles evs1 evs2 l :
  loadRun points_total tiles (evs1 ++ evs2) l
  = loadRun points_total tiles evs2 (loadRun points_total tiles evs1 l).
Proof. unfold loadRun. by rewrite foldl_app. Qed.

(** The flags, the head and the draw range after a run are those after
    the completions of some of the tiles that were delivered. *)
Lemma loadRun_completions points_total tiles evs l :
  ∃ done,
    (∀ u, u ∈ done → ∃ a, Arrives a ∈ evs ∧ delivered a = Some u ∧ ofTile a = u)
    ∧ progress (loadRun points_total tiles evs l)
      = foldl (tileCompleted points_total tiles) (progress l) done.
Proof.
  induction evs as [|ev evs IH] using rev_ind.
  - exists []. split; [by intros u ?%elem_of_nil|done].
  - destruct IH as (done & Hdone & Hprog). rewrite loadRun_snoc.
    assert (Hold : ∀ u, u ∈ done →
              ∃ a, Arrives a ∈ evs ++ [ev] ∧ delivered a = Some u ∧ ofTile a = u).
    { intros u Hu. destruct (Hdone u Hu) as (a & Ha & Hd).
      exists a. split; [|done]. apply elem_of_app. by left. }
    destruct ev as [a|]; simpl.
    + destruct (runOne_progress points_total tiles a (loadRun points_total tiles evs l))
        as [Hsame|[Hdel Hmark]].
      * exists done. split; [done|]. by rewrite Hsame.
      * exists (done ++ [ofTile a]). split.
        -- intros u [Hu| ->%list_elem_of_singleton]%elem_of_app; [by apply Hold|].
           exists a. split; [|done]. apply elem_of_app. right. by apply list_elem_of_singleton.
        -- by rewrite Hmark, Hprog, foldl_snoc.
    + exists done. split; [done|]. by rewrite <- Hprog.
Qed.


Lemma completions_tracks points_total tiles s0 done :
  NoDup (Tile.id <$> tiles) →
  loadedFlags s0 = replicate (length (sortedTiles tiles)) false → headIdx s0 = 0%nat →
  (∀ u, u ∈ done → u ∈ tiles) →
  let s := foldl (tileCompleted points_total tiles) s0 done in
  tracks tiles done s ∧ (done ≠ [] → published points_total tiles s)
  ∧ (done = [] → s = s0)
  ∧ length (loadedFlags s) = length (sortedTiles tiles).
Proof.
  intros Hnd Hfl Hh.
  induction done as [|t done IH] using rev_ind; intros Hsub.
  - simpl. split; [|split; [done|split; [done|]]].
    + split.
      * intros k u Hk. rewrite Hfl. split; [|by intros ?%elem_of_nil].
        by intros [Hf _]%lookup_replicate.
      * intros k. rewrite Hh. lia.
    + by rewrite Hfl, length_replicate.
  - rewrite foldl_snoc.
    destruct IH as (Htr & _ & _ & Hlen).
    { intros u Hu. apply Hsub, elem_of_app. by left. }
    assert (Ht : t ∈ tiles).
    { apply Hsub, elem_of_app. right. by apply list_elem_of_singleton. }
    destruct (tileCompleted_tracks points_total tiles Hnd done _ t Ht Htr Hlen)
      as (? & ? & ?).
    split; [done|]. split; [done|]. split; [|done].
    intros Heq. by destruct done.
Qed.

(** A tile that has not completed is not below the head, so the draw
    range ends at or before its first point. *)
Lemma unloaded_tile_bounds_range points_total tiles done s u :
  tracks tiles done s → published points_total tiles s →
  u ∈ tiles → u ∉ done →
  drawStart s = 0 ∧ drawCount s ≤ Tile.base_index u.
Proof.
  intros [Hflags Hhead] (Hstop & Hstart & Hcount) Hu Hnot.
  split; [done|].
  assert (∃ k, sortedTiles tiles !! k = Some u) as [k Hk].
  { apply list_elem_of_lookup. by rewrite sortedTiles_perm. }
  assert (Hge : (headIdx s ≤ k)%nat).
  { destruct (decide (headIdx s ≤ k)%nat) as [|Hlt]; [done|].
    exfalso. apply Hnot, (Hflags _ _ Hk), Hhead. lia. }
  rewrite Hcount.
  destruct (sortedTiles tiles !! headIdx s) as [v|] eqn:Hv.
  - by apply (sortedTiles_sorted tiles (headIdx s) k).
  - apply lookup_ge_None in Hv. apply lookup_lt_Some in Hk. lia.
Qed.

Lemma indexById_nil tiles idx key :
  indexById tiles !! key = Some idx → ∃ t, t ∈ tiles.
Proof.
  unfold indexById. intros H.
  destruct (sortedTiles tiles) as [|t r] eqn:Hs; [done|].
  exists t. rewrite <- sortedTiles_perm, Hs. by left.
Qed.

(** One completion never moves the end of the draw range backwards, when
    the range was empty or ended at the head. *)
Lemma tileCompleted_grows points_total tiles s t :
  (∀ u, u ∈ tiles → 0 ≤ Tile.base_index u ≤ points_total) →
  (drawCount s = 0
   ∨ drawCount s = match sortedTiles tiles !! headIdx s with
                   | Some v => Tile.base_index v
                   | None => points_total
                   end) →
  let s' := tileCompleted points_total tiles s t in
  drawCount s ≤ drawCount s'
  ∧ (drawCount s' = 0
     ∨ drawCount s' = match sortedTiles tiles !! headIdx s' with
                      | Some v => Tile.base_index v
                      | None => points_total
                      end).
Proof.
  intros Hbounds Hinv. unfold tileCompleted.
  destruct (indexById tiles !! Tile.id t) as [idx|] eqn:Hidx; simpl; [|split; [lia|done]].
  destruct (indexById_nil _ _ _ Hidx) as [t0 Ht0].
  set (fl := <[idx:=true]> (loadedFlags s)).
  destruct (skipLoaded_spec (drop (headIdx s) fl) (headIdx s)) as (Hle & _ & _).
  simpl in Hle. set (h' := skipLoaded (drop (headIdx s) fl) (headIdx s)) in *.
  split; [|by right].
  assert (Hnew : 0 ≤ match sortedTiles tiles !! h' with
                     | Some v => Tile.base_index v
                     | None => points_total
                     end).
  { destruct (sortedTiles tiles !! h') as [v|] eqn:Hv.
    - apply Hbounds. rewrite <- sortedTiles_perm. by eapply list_elem_of_lookup_2.
    - specialize (Hbounds t0 Ht0). lia. }
  destruct Hinv as [->| ->]; [done|].
  destruct (sortedTiles tiles !! headIdx s) as [v|] eqn:Hv.
  - destruct (sortedTiles tiles !! h') as [w|] eqn:Hw.
    + by apply (sortedTiles_sorted tiles (headIdx s) h').
    + apply Hbounds. rewrite <- sortedTiles_perm. by eapply list_elem_of_lookup_2.
  - apply lookup_ge_None in Hv.
    rewrite (lookup_ge_None_2 (sortedTiles tiles) h') by lia. done.
Qed.

Lemma loadRun_grows points_total tiles evs l :
  (∀ u, u ∈ tiles → 0 ≤ Tile.base_index u ≤ points_total) →
  (drawCount (progress l) = 0
   ∨ drawCount (progress l)
     = match sortedTiles tiles !! headIdx (progress l) with
       | Some v => Tile.base_index v
       | None => points_total
       end) →
  let s' := progress (loadRun points_total tiles evs l) in
  drawCount (progress l) ≤ drawCount s'
  ∧ (drawCount s' = 0
     ∨ drawCount s' = match sortedTiles tiles !! headIdx s' with
                      | Some v => Tile.base_index v
                      | None => points_total
                      end).
Proof.
  intros Hbounds. induction evs as [|ev evs IH] using rev_ind; intros Hinv.
  - split; [simpl; lia|done].
  - destruct (IH Hinv) as [Hle Hinv']. rewrite loadRun_snoc.
    destruct ev as [a|]; simpl; [|done].
    destruct (runOne_progress points_total tiles a (loadRun points_total tiles evs l))
      as [->|[_ ->]]; [done|].
    destruct (tileCompleted_grows points_total tiles
                (progress (loadRun points_total tiles evs l)) (ofTile a) Hbounds Hinv')
      as [Hle' Hinv''].
    split; [lia|done].
Qed.

(** [X5] A tile that was never delivered (its fetch failed, or its
    payload was malformed) holds the draw range back for the rest of the
    load: whatever else arrives, and in whatever order, the range of a
    load that started on an empty range stays [[0, n)] with [n] at most
    the [base_index] of that tile, so no point from that tile on is
    drawn. *)
Theorem failed_tile_blocks_draw_range
    (points_total : Z) (tiles : list Tile.t) (b : InternalBuffers) (g : Tools.Geometry)
    (shown : Z) (pose : bool) (evs : list LoadEvent) (u : Tile.t) :
  NoDup (Tile.id <$> tiles) →
  Tools.drawRange g = (0, 0) →
  (∀ a, Arrives a ∈ evs → ofTile a ∈ tiles) →
  u ∈ tiles → 0 ≤ Tile.base_index u →
  (∀ a, Arrives a ∈ evs → ofTile a = u → delivered a = None) →
  let s := progress (loadRun points_total tiles evs (initialLoader tiles b g shown pose)) in
  drawStart s = 0 ∧ drawCount s ≤ Tile.base_index u
  ∧ ∀ i, Tile.base_index u ≤ i → ¬ (drawStart s ≤ i < drawStart s + drawCount s).
Proof.
  intros Hnd Hrange Hin Hu Hbase Hfail s.
  destruct (loadRun_completions points_total tiles evs (initialLoader tiles b g shown pose))
    as (done & Hdone & Hprog).
  fold s in Hprog.
  assert (Hsub : ∀ v, v ∈ done → v ∈ tiles).
  { intros v Hv. destruct (Hdone v Hv) as (a & Ha & _ & <-). by apply Hin. }
  assert (Hnot : u ∉ done).
  { intros Hv. destruct (Hdone u Hv) as (a & Ha & Hdel & Heq).
    rewrite (Hfail a Ha Heq) in Hdel. discriminate. }
  destruct (completions_tracks points_total tiles
              (progress (initialLoader tiles b g shown pose)) done Hnd eq_refl eq_refl Hsub)
    as (Htr & Hpub & Hnone & _).
  rewrite <- Hprog in Htr, Hpub, Hnone.
  assert (drawStart s = 0 ∧ drawCount s ≤ Tile.base_index u) as [Hs Hc].
  { destruct done as [|v done].
    - rewrite (Hnone eq_refl). simpl. rewrite Hrange. simpl. lia.
    - by apply (unloaded_tile_bounds_range points_total tiles (v :: done)); [|apply Hpub|..]. }
  split; [done|]. split; [done|]. intros i Hi. lia.
Qed.

(** [X6] The draw range never shrinks during a load: for tiles whose
    [base_index] lies between 0 and [points_total], the count of the draw
    range after more events is at least the count before them, whatever
    arrives, fails or is cancelled in between. *)
Theorem draw_range_never_shrinks
    (points_total : Z) (tiles : list Tile.t) (b : InternalBuffers) (g : Tools.Geometry)
    (shown : Z) (pose : bool) (evs more : list LoadEvent) :
  (∀ u, u ∈ tiles → 0 ≤ Tile.base_index u ≤ points_total) →
  Tools.drawRange g = (0, 0) →
  let l0 := initialLoader tiles b g shown pose in
  0 ≤ drawCount (progress (loadRun points_total tiles evs l0))
    ≤ drawCount (progress (loadRun points_total tiles (evs ++ more) l0)).
Proof.
  intros Hbounds Hrange l0.
  assert (Hinv0 : drawCount (progress l0) = 0) by (simpl; by rewrite Hrange).
  destruct (loadRun_grows points_total tiles evs l0 Hbounds (or_introl Hinv0))
    as [Hle Hinv].
  rewrite loadRun_app.
  destruct (loadRun_grows points_total tiles more (loadRun points_total tiles evs l0)
              Hbounds Hinv) as [Hle' _].
  lia.
Qed.

(** [X7] Once the cleanup of the effect has run, nothing that arrives
    changes the loader: no write to the store, no count, no draw range,
    and no error is logged. *)
Theorem cleaned_up_load_ignores_arrivals
    (points_total : Z) (tiles : list Tile.t) (before after : list LoadEvent) (l : Loader) :
  loadRun points_total tiles (before ++ Cleanup :: after) l
  = cleanup (loadRun points_total tiles before l).
Proof.
  rewrite loadRun_app. unfold loadRun at 1. simpl.
  by apply loadRun_cancelled.
Qed.


Lemma runOne_counts points_total tiles a l :
  cancelled l = false → 0 ≤ Tile.points (ofTile a) →
  (lastSetCount l = -1 ∧ totalLoaded l = 0)
  ∨ (lastSetCount l = totalLoaded l ∧ loadedPointCount l = totalLoaded l) →
  let l' := runOne points_total tiles a l in
  match delivered a with
  | Some t =>
      totalLoaded l' = totalLoaded l + Tile.points t
      ∧ lastSetCount l' = totalLoaded l' ∧ loadedPointCount l' = totalLoaded l'
  | None =>
      totalLoaded l' = totalLoaded l ∧ lastSetCount l' = lastSetCount l
      ∧ loadedPointCount l' = loadedPointCount l
  end.
Proof.
  intros Hc Hpts Hinv. unfold runOne, catchTileError, delivered.
  destruct (fetched a) as [e|buffer]; rewrite ?Hc; [done|].
  pose proof (parseTile_outcome buffer (ofTile a) (store l) (boundingBox l)) as Hout.
  destruct (parseTile buffer (ofTile a) (store l) (boundingBox l)) as [[[[]|e] b'] box'];
    simpl in *; rewrite ?Hc.
  - rewrite (proj1 Hout eq_refl).
    case_bool_decide as Hne; simpl; destruct (poseInitialized l); simpl; rewrite ?Hc;
      try destruct (poseAttempt a); simpl; rewrite ?Hc; simpl; lia.
  - destruct (wellFormed buffer); [|done].
    by specialize (proj2 Hout eq_refl).
Qed.

Lemma loadRun_counts points_total tiles evs l :
  cancelled l = false →
  (∀ a, Arrives a ∈ evs → 0 ≤ Tile.points (ofTile a)) →
  (lastSetCount l = -1 ∧ totalLoaded l = 0)
  ∨ (lastSetCount l = totalLoaded l ∧ loadedPointCount l = totalLoaded l) →
  let l' := loadRun points_total tiles evs l in
  totalLoaded l' = totalLoaded l + listedPoints (deliveries evs)
  ∧ (deliveries evs ≠ [] → loadedPointCount l' = totalLoaded l')
  ∧ (deliveries evs = [] → loadedPointCount l' = loadedPointCount l).
Proof.
  revert l. induction evs as [|ev evs IH]; intros l Hc Hpts Hinv.
  - unfold listedPoints. simpl. split; [lia|done].
  - destruct ev as [a|].
    + assert (Ha : 0 ≤ Tile.points (ofTile a)) by (apply Hpts; by left).
      pose proof (runOne_counts points_total tiles a l Hc Ha Hinv) as Hone.
      pose proof (runOne_keeps_cancelled points_total tiles a l) as Hc'.
      rewrite Hc in Hc'.
      assert (Hrest : ∀ a', Arrives a' ∈ evs → 0 ≤ Tile.points (ofTile a')).
      { intros a' Ha'. apply Hpts. by right. }
      change (loadRun points_total tiles (Arrives a :: evs) l)
        with (loadRun points_total tiles evs (runOne points_total tiles a l)).
      cbn [deliveries]. cbv zeta in Hone.
      destruct (delivered a) as [t|].
      * destruct Hone as (Ht & Hl & Hs).
        destruct (IH (runOne points_total tiles a l) Hc' Hrest) as (IH1 & IH2 & IH3).
        { right. split; [done|done]. }
        cbv zeta in *.
        unfold listedPoints in *. rewrite fmap_cons. simpl.
        split; [lia|]. split; [|done]. intros _.
        destruct (decide (deliveries evs = [])) as [Hnil|Hcons].
        -- rewrite (IH3 Hnil), IH1, Hnil. simpl. lia.
        -- by apply IH2.
      * destruct Hone as (Ht & Hl & Hs).
        destruct (IH (runOne points_total tiles a l) Hc' Hrest) as (IH1 & IH2 & IH3).
        { rewrite Ht, Hl, Hs. done. }
        cbv zeta in *. split; [lia|]. split; [done|].
        intros Hnil. by rewrite (IH3 Hnil).
    + change (loadRun points_total tiles (Cleanup :: evs) l)
        with (loadRun points_total tiles evs (cleanup l)).
      rewrite loadRun_cancelled by done. unfold listedPoints. simpl.
      split; [lia|done].
Qed.

(** [X8] The loaded count that the editor shows is the sum of the sizes
    that the tile list gives for the tiles parsed before any cleanup,
    whatever the counts in their payloads say; until the first tile has
    been parsed it is the count that was shown before the load. *)
Theorem loaded_count_is_sum_of_listed_sizes
    (points_total : Z) (tiles : list Tile.t) (b : InternalBuffers) (g : Tools.Geometry)
    (shown : Z) (pose : bool) (evs : list LoadEvent) :
  (∀ a, Arrives a ∈ evs → 0 ≤ Tile.points (ofTile a)) →
  let l := loadRun points_total tiles evs (initialLoader tiles b g shown pose) in
  totalLoaded l = listedPoints (deliveries evs)
  ∧ loadedPointCount l
    = if decide (deliveries evs = []) then shown else listedPoints (deliveries evs).
Proof.
  intros Hpts l.
  destruct (loadRun_counts points_total tiles evs (initialLoader tiles b g shown pose)
              eq_refl Hpts) as (Htot & Hset & Hkeep).
  { left. done. }
  fold l in Htot, Hset, Hkeep. simpl in Htot, Hkeep.
  split; [lia|].
  destruct (decide (deliveries evs = [])) as [Hnil|Hcons].
  - by apply Hkeep.
  - rewrite (Hset Hcons). lia.
Qed.

Lemma runOne_errors points_total tiles a l :
  ∃ new, tileErrors (runOne points_total tiles a l) = new ++ tileErrors l
    ∧ (cancelled l = false → delivered a = None →
       ∃ e, new = [mkTileLoadError (ofTile a) e]).
Proof.
  unfold runOne, catchTileError, delivered.
  destruct (fetched a) as [e|buffer].
  - destruct (cancelled l) eqn:Hc.
    + exists []. split; [done|]. intros; discriminate.
    + exists [mkTileLoadError (ofTile a) e]. split; [done|]. intros _ _. by exists e.
  - destruct (cancelled l) eqn:Hc.
    { exists []. split; [done|]. intros; discriminate. }
    pose proof (parseTile_outcome buffer (ofTile a) (store l) (boundingBox l)) as Hout.
    destruct (parseTile buffer (ofTile a) (store l) (boundingBox l)) as [[[[]|e] b'] box'];
      simpl in *; rewrite ?Hc.
    + rewrite (proj1 Hout eq_refl).
      case_bool_decide; simpl; destruct (poseInitialized l); simpl; rewrite ?Hc;
        try destruct (poseAttempt a); simpl; rewrite ?Hc; simpl;
        first [ by exists [] | by eexists [_] ].
    + exists [mkTileLoadError (ofTile a) e]. split; [done|]. intros _ _. by exists e.
Qed.

Lemma loadRun_errors points_total tiles evs l :
  ∃ new, tileErrors (loadRun points_total tiles evs l) = new ++ tileErrors l.
Proof.
  induction evs as [|ev evs IH] using rev_ind.
  - by exists [].
  - destruct IH as [new Hnew]. rewrite loadRun_snoc.
    destruct ev as [a|]; simpl.
    + destruct (runOne_errors points_total tiles a (loadRun points_total tiles evs l))
        as (new' & -> & _).
      exists (new' ++ new). by rewrite Hnew, app_assoc.
    + by exists new.
Qed.

Lemma loadRun_not_cancelled points_total tiles evs l :
  cancelled l = false → Cleanup ∉ evs →
  cancelled (loadRun points_total tiles evs l) = false.
Proof.
  induction evs as [|ev evs IH] using rev_ind; intros Hc Hno; [done|].
  rewrite loadRun_snoc.
  assert (Hc' : cancelled (loadRun points_total tiles evs l) = false).
  { apply IH; [done|]. intros Hin. apply Hno, elem_of_app. by left. }
  destruct ev as [a|]; simpl.
  - by rewrite runOne_keeps_cancelled.
  - exfalso. apply Hno, elem_of_app. right. by left.
Qed.

(** [X9] No failure is silent while the load is alive: an arrival that
    delivers nothing (failed fetch, wrong magic, payload cut short) and
    comes before any cleanup leaves a ["tile.load.error"] entry for its
    tile in the log, and later events never remove it. *)
Theorem failed_arrival_is_logged
    (points_total : Z) (tiles : list Tile.t) (l : Loader)
    (before after : list LoadEvent) (a : Arrival) :
  cancelled l = false → Cleanup ∉ before → delivered a = None →
  ∃ e, mkTileLoadError (ofTile a) e
       ∈ tileErrors (loadRun points_total tiles (before ++ Arrives a :: after) l).
Proof.
  intros Hc Hno Hdel.
  rewrite loadRun_app.
  change (loadRun points_total tiles (Arrives a :: after)
            (loadRun points_total tiles before l))
    with (loadRun points_total tiles after
            (runOne points_total tiles a (loadRun points_total tiles before l))).
  destruct (loadRun_errors points_total tiles after
              (runOne points_total tiles a (loadRun points_total tiles before l)))
    as [new ->].
  destruct (runOne_errors points_total tiles a (loadRun points_total tiles before l))
    as (new' & -> & Hlog).
  destruct Hlog as [e ->]; [by apply loadRun_not_cancelled|done|].
  exists e. apply elem_of_app. right. by left.
Qed.


Lemma elem_replicate_0 (n : nat) (i c : Z) : elem (replicate n 0) i = Some c → c = 0.
Proof.
  unfold elem. destruct (i <? 0); [done|].
  by intros [-> _]%lookup_replicate.
Qed.

(** [X10] A load that starts over (the tile list changed) sets every
    status and selection code of the store to 0, but leaves the pending
    sets, the deleted set and the two counters as they are: when a
    selection was pending, the sets and the codes no longer agree. *)
Theorem restart_clears_codes_but_keeps_pending_sets
    (tiles : list Tile.t) (e : Tools.Editor) (sig : string) (shown : Z) (pose : bool)
    (st : Started) :
  loadTilesEffect true tiles e sig shown pose = Some st →
  let e' := editorAfter st in
  Tools.pendingDeleteRef e' = Tools.pendingDeleteRef e
  ∧ Tools.pendingRestoreRef e' = Tools.pendingRestoreRef e
  ∧ Tools.deletedSetRef e' = Tools.deletedSetRef e
  ∧ Tools.selectedForDelete e' = Tools.selectedForDelete e
  ∧ Tools.selectedForRestore e' = Tools.selectedForRestore e
  ∧ (∃ b', Tools.buffersRef e' = Some b' ∧ store (loader st) = b'
       ∧ ∀ i c, elem (status b') i = Some c ∨ elem (selections b') i = Some c → c = 0)
  ∧ (Tools.pendingDeleteRef e ≠ [] ∨ Tools.pendingRestoreRef e ≠ [] →
     ¬ Tools.editor_consistent e').
Proof.
  unfold loadTilesEffect. simpl. case_bool_decide; [done|].
  destruct (Tools.buffersRef e) as [b|] eqn:Hb; [|done].
  destruct (Tools.geometryRef e) as [g|]; [|done].
  case_bool_decide; [done|]. intros [= <-]. simpl.
  do 5 (split; [done|]).
  assert (Hzero : ∀ i c, elem (status (clearCodes b)) i = Some c
                         ∨ elem (selections (clearCodes b)) i = Some c → c = 0).
  { intros i c [Hc|Hc]; by apply elem_replicate_0 in Hc. }
  split; [by exists (clearCodes b)|].
  intros Hpending Hcons. specialize (Hcons (clearCodes b) eq_refl).
  destruct Hpending as [Hne|Hne].
  - destruct (Tools.pendingDeleteRef e) as [|i pd] eqn:Hpd; [done|].
    destruct (Hcons i) as (Hdel & _ & _). simpl in Hdel. rewrite Hpd in Hdel.
    assert (Hin : i ∈ i :: pd) by (by left).
    apply Hdel in Hin. pose proof (Hzero i _ (or_intror Hin)). done.
  - destruct (Tools.pendingRestoreRef e) as [|i pr] eqn:Hpr; [done|].
    destruct (Hcons i) as (_ & Hres & _). simpl in Hres. rewrite Hpr in Hres.
    assert (Hin : i ∈ i :: pr) by (by left).
    apply Hres in Hin. pose proof (Hzero i _ (or_intror Hin)). done.
Qed.

End LoadRuns.

Section LoadRunExamples.
Import TileParser TilesLoader LoadTiles LoadScenario.

Lemma failed_tile_blocks_draw_range_witness :
  let s := progress (loadRun 4 threeTiles lossyRun freshLoader) in
  drawStart s = 0 ∧ drawCount s ≤ Tile.base_index Payloads.tileAt1
  ∧ ∀ i, Tile.base_index Payloads.tileAt1 ≤ i →
         ¬ (drawStart s ≤ i < drawStart s + drawCount s).
Proof.
  apply (failed_tile_blocks_draw_range 4 threeTiles (Tools.allocateBuffers 4)
           emptyGeometry 0 false lossyRun Payloads.tileAt1).
  - compute_done.
  - reflexivity.
  - intros a Ha. unfold lossyRun in Ha.
    repeat (apply elem_of_cons in Ha as [Ha|Ha]; [injection Ha as ->; compute_done|]).
    by apply elem_of_nil in Ha.
  - compute_done.
  - simpl. lia.
  - intros a Ha Heq. unfold lossyRun in Ha.
    repeat (apply elem_of_cons in Ha as [Ha|Ha];
            [injection Ha as ->; first [reflexivity | by vm_compute in Heq]|]).
    by apply elem_of_nil in Ha.
Defined.

Lemma draw_range_never_shrinks_witness :
  0 ≤ drawCount (progress (loadRun 4 threeTiles lossyRun freshLoader))
    ≤ drawCount (progress (loadRun 4 threeTiles fullRun freshLoader)).
Proof.
  apply (draw_range_never_shrinks 4 threeTiles (Tools.allocateBuffers 4)
           emptyGeometry 0 false lossyRun [Arrives arrival1]).
  - intros u Hu. unfold threeTiles in Hu.
    repeat (apply elem_of_cons in Hu as [->|Hu]; [simpl; lia|]).
    by apply elem_of_nil in Hu.
  - reflexivity.
Defined.

Lemma loaded_count_is_sum_of_listed_sizes_witness :
  let l := loadRun 4 threeTiles fullRun freshLoader in
  totalLoaded l = listedPoints (deliveries fullRun)
  ∧ loadedPointCount l
    = if decide (deliveries fullRun = []) then 0 else listedPoints (deliveries fullRun).
Proof.
  apply (loaded_count_is_sum_of_listed_sizes 4 threeTiles (Tools.allocateBuffers 4)
           emptyGeometry 0 false fullRun).
  intros a Ha. unfold fullRun, lossyRun in Ha. simpl in Ha.
  repeat (apply elem_of_cons in Ha as [Ha|Ha]; [injection Ha as ->; simpl; lia|]).
  by apply elem_of_nil in Ha.
Defined.

Lemma failed_arrival_is_logged_witness :
  ∃ e, mkTileLoadError Payloads.tileAt1 e
       ∈ tileErrors (loadRun 4 threeTiles lossyRun freshLoader).
Proof.
  apply (failed_arrival_is_logged 4 threeTiles freshLoader
           [Arrives arrival3] [Arrives arrival0] failure1).
  - reflexivity.
  - intros [H|H]%elem_of_cons; [discriminate|by apply elem_of_nil in H].
  - reflexivity.
Defined.

Lemma restart_clears_codes_but_keeps_pending_sets_witness :
  ∃ st, loadTilesEffect true threeTiles markedEditor "" 0 false = Some st
    ∧ Tools.pendingDeleteRef (editorAfter st) = [1]
    ∧ ¬ Tools.editor_consistent (editorAfter st).
Proof.
  eexists. split; [reflexivity|].
  destruct (restart_clears_codes_but_keeps_pending_sets
              threeTiles markedEditor "" 0 false _ eq_refl)
    as (Hpd & _ & _ & _ & _ & _ & Hbad).
  split; [exact Hpd|]. apply Hbad. left. discriminate.
Defined.

(** The load of the scenario: with the middle tile missing the range
    ends at its first point; once it is delivered, all four points are
    drawn and counted. *)
Example load_with_a_failed_tile :
  drawCount (progress (loadRun 4 threeTiles lossyRun freshLoader)) = 1
  ∧ loadedPointCount (loadRun 4 threeTiles lossyRun freshLoader) = 2
  ∧ drawCount (progress (loadRun 4 threeTiles fullRun freshLoader)) = 4
  ∧ loadedPointCount (loadRun 4 threeTiles fullRun freshLoader) = 4.
Proof. vm_compute. by repeat split. Qed.
End LoadRunExamples.

(** ** A brush update after the tile list changed *)

Section ReloadAfterBrush.
Import Tools LoadTiles.

(** [C4, evaluated] A store of four points is allocated and its load
    starts with two tiles listed; the brush marks point 1 for deletion,
    and the pending sets agree with the selection codes.  The tile list
    then changes, so the load starts over: it zero-fills the selection
    codes and leaves the pending sets.  After the next brush update, on
    point 2, point 1 is still in [pendingDelete] while its code is
    [SelNone]: the sets and the codes do not agree. *)
Theorem brush_after_reload_breaks_consistency :
  ∃ st1 st2 e1 e2 b2,
    loadTilesEffect true ReloadScenario.twoTiles (allocatedEditor 4 0) "" 0 false = Some st1
    ∧ e1 = (applyBrush [Some 1] Tool.delete (editorAfter st1)).2
    ∧ editor_consistent e1
    ∧ loadTilesEffect true LoadScenario.threeTiles e1 (signatureAfter st1) 0 false = Some st2
    ∧ e2 = (applyBrush [Some 2] Tool.delete (editorAfter st2)).2
    ∧ buffersRef e2 = Some b2
    ∧ pendingDeleteRef e2 = [1; 2]
    ∧ selections b2 = [0; 0; 1; 0]
    ∧ 1 ∈ pendingDeleteRef e2
    ∧ elem (selections b2) 1 = Some (selection_code SelNone)
    ∧ ¬ editor_consistent e2.
Proof.
  do 5 eexists.
  split; [vm_compute; reflexivity|]. split; [reflexivity|]. split.
  { intros b Hb. simpl editorAfter in *.
    apply (applyBrush_consistent [Some 1] Tool.delete _
             (allocatedEditor_consistent 4 0) b Hb). }
  split; [vm_compute; reflexivity|]. split; [reflexivity|].
  split; [vm_compute; reflexivity|].
  split; [vm_compute; reflexivity|]. split; [vm_compute; reflexivity|].
  split; [compute_done|]. split; [vm_compute; reflexivity|].
  intros Hc. specialize (Hc _ eq_refl 1) as (Hdel & _).
  assert (Hin : (1 : Z) ∈ [1; 2]) by compute_done.
  apply Hdel in Hin. vm_compute in Hin. discriminate.
Qed.

End ReloadAfterBrush.

(** ** The pointer handlers of the brush and the camera controls *)

Section BrushHandlers.
Import Tools BrushInteractions.
Context {W : Type} (dispatchEvent : WindowSignal → W → W).
Context (session : bool) (tool : Tool.t).



(** A pointer move changes the editor only while the selection is dirty. *)
Lemma move_clean ev (s : Brush W) :
  selectionDirty s = false →
  (listener dispatchEvent session tool (PointerMove ev) s).2 = s.
Proof.
  intros Hd. unfold listener, handlePointerMove. rewrite Hd.
  destruct (isMl tool); [done|]. cbn [andb].
  destruct (negb session || false); [done|].
  by destruct (negb (buttons ev =? 1) && negb (brushActive s)).
Qed.

Lemma moves_clean (moves : list PointerEvent) (s : Brush W) :
  selectionDirty s = false →
  interact dispatchEvent session tool (PointerMove <$> moves) s = s.
Proof.
  intros Hd. unfold interact. induction moves as [|ev moves IH]; [done|].
  rewrite fmap_cons. simpl. by rewrite move_clean.
Qed.

Lemma finishBrush_frame ev (s : Brush W) :
  let s' := finishBrush dispatchEvent ev (withDirty s false) in
  selectionDirty s' = false ∧ editor s' = editor s.
Proof. unfold finishBrush, withDirty. simpl. by destruct (brushActive s). Qed.

End BrushHandlers.

Section BrushTheorems.
Import Tools BrushInteractions.



(** [X12] Once the pointer is up, or the pointer event was cancelled or
    left the canvas, moving the pointer selects nothing, whatever buttons
    the move events report, until the next pointer down. *)
Theorem released_brush_does_not_paint
    {W : Type} (dispatchEvent : WindowSignal → W → W) (session : bool) (tool : Tool.t)
    (ev : PointerEvent) (moves : list PointerEvent) (s : Brush W) :
  editor (interact dispatchEvent session tool (PointerUp ev :: (PointerMove <$> moves)) s)
  = editor s
  ∧ editor (interact dispatchEvent session tool
              (PointerCancel ev :: (PointerMove <$> moves)) s)
    = editor s
  ∧ editor (interact dispatchEvent session tool
              (PointerLeave ev :: (PointerMove <$> moves)) s)
    = editor s.
Proof.
  assert (Hrel : ∀ p, (p = PointerUp ev ∨ p = PointerCancel ev ∨ p = PointerLeave ev) →
    editor (interact dispatchEvent session tool (p :: (PointerMove <$> moves)) s)
    = editor s).
  { intros p Hp.
    change (interact dispatchEvent session tool (p :: (PointerMove <$> moves)) s)
      with (interact dispatchEvent session tool (PointerMove <$> moves)
              (listener dispatchEvent session tool p s).2).
    unfold listener. destruct (isMl tool) eqn:Hml.
    - simpl. clear Hp. unfold interact.
      induction moves as [|m moves IH]; [done|].
      rewrite fmap_cons. simpl. unfold listener at 2. by rewrite Hml.
    - destruct (finishBrush_frame dispatchEvent ev s) as [Hd He].
      destruct Hp as [->|[->| ->]]; simpl; by rewrite moves_clean. }
  split; [|split]; apply Hrel; auto.
Qed.

(** [X13] Without an edit session no pointer event changes anything: the
    editor, the closure and the window stay as the setup left them; and
    with the tool [ml] no listener is added at all. *)
Theorem brush_needs_session_and_tool
    {W : Type} (dispatchEvent : WindowSignal → W → W) (session : bool) (tool : Tool.t)
    (ps : list Pointer) (w : W) (e : Editor) (s : Brush W) :
  interact dispatchEvent false tool ps (idle w e) = idle w e
  ∧ interact dispatchEvent session Tool.ml ps s = s.
Proof.
  unfold interact. split.
  - induction ps as [|p ps IH] using rev_ind; [done|].
    rewrite foldl_snoc, IH. unfold listener.
    destruct (isMl tool); [done|]. by destruct p.
  - induction ps as [|p ps IH] using rev_ind; [done|].
    by rewrite foldl_snoc, IH.
Qed.





End BrushTheorems.

(** ** The counters of the selection *)

Section Counters.
Import Rendering Tools SelectionCounts.

Lemma JsSet_add_NoDup s v : NoDup s → NoDup (JsSet.add s v).
Proof.
  intros Hnd. unfold JsSet.add, JsSet.has. case_bool_decide as Hin; [done|].
  apply NoDup_app. split; [done|]. split; [|apply NoDup_singleton].
  intros x Hx ->%list_elem_of_singleton. done.
Qed.

Lemma JsSet_remove_NoDup s v : NoDup s → NoDup (JsSet.remove s v).
Proof. intros Hnd. unfold JsSet.remove. by apply NoDup_filter. Qed.

Lemma updateSelection_NoDup index toolCode pd pr b :
  NoDup pd → NoDup pr →
  let '(pd', pr', _) := updateSelection index toolCode pd pr b in
  NoDup pd' ∧ NoDup pr'.
Proof.
  intros Hd Hr. unfold updateSelection.
  destruct toolCode as [code|]; [|done].
  destruct ((index <? 0) || (Z.of_nat (length (selections b)) <=? index)); [done|].
  repeat case_bool_decide; try done;
    split; auto using JsSet_add_NoDup, JsSet_remove_NoDup.
Qed.

Lemma brushEach_NoDup indices toolCode pd pr b :
  NoDup pd → NoDup pr →
  let '(_, (pd', pr', _)) := brushEach indices toolCode pd pr b in
  NoDup pd' ∧ NoDup pr'.
Proof.
  revert pd pr b. induction indices as [|index rest IH]; intros pd pr b Hd Hr; simpl; [done|].
  pose proof (updateSelection_NoDup index toolCode pd pr b Hd Hr) as H1.
  destruct (updateSelection index toolCode pd pr b) as [[pd1 pr1] b1].
  destruct H1 as [Hd1 Hr1].
  destruct (colorPoint index b1) as [[[]|err] b2]; [|done].
  by apply IH.
Qed.

(** The indices at which a list holds [v] are as many as its elements
    equal to [v]. *)
Lemma filter_indices_length (v : Z) (pre l : list Z) :
  length (filter (λ k, (pre ++ l) !! k = Some v) (seq (length pre) (length l)))
  = length (filter (λ c, c = v) l).
Proof.
  revert pre. induction l as [|c l IH]; intros pre; [done|].
  cbn [length seq]. rewrite !filter_cons.
  assert (Hhere : (pre ++ c :: l) !! length pre = Some c).
  { by rewrite lookup_app_r, Nat.sub_diag by lia. }
  assert (Hrest :
    length (filter (λ k, (pre ++ c :: l) !! k = Some v) (seq (S (length pre)) (length l)))
    = length (filter (λ c, c = v) l)).
  { specialize (IH (pre ++ [c])). rewrite length_app in IH. simpl in IH.
    rewrite <- (assoc_L (++) pre [c] l) in IH. simpl in IH.
    by replace (length pre + 1)%nat with (S (length pre)) in IH by lia. }
  destruct (decide (c = v)) as [->|Hne].
  - rewrite decide_True by done. simpl. by rewrite Hrest.
  - rewrite decide_False by (rewrite Hhere; congruence). done.
Qed.

(** A duplicate-free pending set that agrees with the codes has as many
    elements as there are points with its code. *)
Lemma set_size_is_marked_count (s : list Z) (sel : list Z) (v : Z) :
  NoDup s → (∀ i, i ∈ s ↔ elem sel i = Some v) →
  length s = length (filter (λ c, c = v) sel).
Proof.
  intros Hnd Hiff.
  rewrite <- (filter_indices_length v [] sel). simpl.
  set (L := filter (λ k, sel !! k = Some v) (seq 0 (length sel))).
  assert (Hperm : s ≡ₚ Z.of_nat <$> L).
  { apply NoDup_Permutation; [done| |].
    - apply NoDup_fmap_2; [apply _|]. apply NoDup_filter, NoDup_seq.
    - intros i. rewrite Hiff. unfold elem.
      rewrite list_elem_of_fmap. split.
      + destruct (i <? 0) eqn:Hneg; [done|]. intros Hi.
        apply Z.ltb_ge in Hneg.
        exists (Z.to_nat i). split; [lia|].
        apply list_elem_of_filter. split; [done|].
        apply elem_of_seq. apply lookup_lt_Some in Hi. lia.
      + intros (k & -> & Hk). apply list_elem_of_filter in Hk as [Hk _].
        assert ((Z.of_nat k <? 0) = false) as -> by (apply Z.ltb_ge; lia).
        by rewrite Nat2Z.id. }
  by rewrite Hperm, length_fmap.
Qed.

Lemma consistent_counts pd pr b :
  consistent pd pr b → NoDup pd → NoDup pr →
  Z.of_nat (length pd) = marked MarkedDelete b
  ∧ Z.of_nat (length pr) = marked MarkedRestore b.
Proof.
  intros Hc Hd Hr. unfold marked. split; f_equal.
  - apply set_size_is_marked_count; [done|]. intros i. apply (Hc i).
  - apply set_size_is_marked_count; [done|]. intros i. apply (Hc i).
Qed.

Lemma allocatedEditor_wellKept n v : wellKept (allocatedEditor n v).
Proof.
  split; [apply allocatedEditor_consistent|].
  split; [apply NoDup_nil_2|]. split; [apply NoDup_nil_2|].
  intros b [= <-].
  destruct (consistent_counts [] [] (allocateBuffers n)) as [Hd Hr];
    [apply (allocatedEditor_consistent n v (allocateBuffers n) eq_refl)|apply NoDup_nil_2..|].
  simpl in *. by rewrite <- Hd, <- Hr.
Qed.

(** [X15] The counters that the brush sets count the marked points: from
    a selection in order, an application of the brush that returns leaves
    the selection in order, so that the counter of deletions is the number
    of points shown as marked for deletion, and likewise for
    restorations. *)
Theorem brush_counters_count_marked_points
    (intersections : list (option Z)) (activeTool : Tool.t) (e : Editor) :
  wellKept e →
  (applyBrush intersections activeTool e).1 = Normal () →
  wellKept (applyBrush intersections activeTool e).2.
Proof.
  intros (Hc & Hd & Hr & Hn) Hret.
  pose proof (applyBrush_consistent intersections activeTool e Hc) as Hc'.
  unfold applyBrush in *.
  destruct (buffersRef e) as [b|] eqn:Hb; [|done].
  destruct (bool_decide (intersections = [])
            || bool_decide (JsSet.of_list (omap id intersections) = [])); [done|].
  destruct (TOOL_CODE activeTool) as [code|]; [|done].
  pose proof (brushEach_NoDup (JsSet.of_list (omap id intersections)) (Some code)
                (pendingDeleteRef e) (pendingRestoreRef e) b Hd Hr) as Hnd.
  destruct (brushEach _ _ _ _ b) as [[[]|err] [[pd pr] b']]; [|done].
  destruct Hnd as [Hd' Hr']. simpl in *.
  split; [done|]. split; [done|]. split; [done|].
  intros b0. destruct (geometryRef e); simpl; intros [= <-];
    apply (consistent_counts pd pr b'); try done; by apply (Hc' b').
Qed.

Lemma brush_counters_count_marked_points_witness :
  wellKept (applyBrush [Some 1; None; Some 3; Some 1] Tool.delete (allocatedEditor 5 0)).2.
Proof.
  apply (brush_counters_count_marked_points
           [Some 1; None; Some 3; Some 1] Tool.delete (allocatedEditor 5 0)).
  - apply allocatedEditor_wellKept.
  - reflexivity.
Defined.

(** [X16] After [resetSelection] on a selection whose sets and codes
    agree, nothing is marked: both pending sets are empty, both counters
    are 0, and no point has the code of a deletion or of a restoration. *)
Theorem resetSelection_leaves_no_marks (e : Editor) :
  editor_consistent e →
  let e' := resetSelection e in
  wellKept e'
  ∧ pendingDeleteRef e' = [] ∧ pendingRestoreRef e' = []
  ∧ selectedForDelete e' = 0 ∧ selectedForRestore e' = 0
  ∧ ∀ b', buffersRef e' = Some b' →
      marked MarkedDelete b' = 0 ∧ marked MarkedRestore b' = 0.
Proof.
  intros Hc e'.
  pose proof (resetSelection_consistent e Hc) as Hc'. fold e' in Hc'.
  assert (Hfields : pendingDeleteRef e' = [] ∧ pendingRestoreRef e' = []
                    ∧ selectedForDelete e' = 0 ∧ selectedForRestore e' = 0).
  { unfold e', resetSelection. destruct (buffersRef e); [|done].
    unfold markColorsDirty. by destruct (geometryRef _). }
  destruct Hfields as (Hpd & Hpr & Hsd & Hsr).
  assert (Hzero : ∀ b', buffersRef e' = Some b' →
            marked MarkedDelete b' = 0 ∧ marked MarkedRestore b' = 0).
  { intros b' Hb'. specialize (Hc' b' Hb'). rewrite Hpd, Hpr in Hc'.
    destruct (consistent_counts [] [] b' Hc') as [Hd Hr]; [apply NoDup_nil_2..|].
    by rewrite <- Hd, <- Hr. }
  split; [|done].
  split; [done|]. rewrite Hpd, Hpr.
  split; [apply NoDup_nil_2|]. split; [apply NoDup_nil_2|].
  intros b' Hb'. rewrite Hsd, Hsr. destruct (Hzero b' Hb') as [-> ->]. done.
Qed.

Lemma resetSelection_leaves_no_marks_witness :
  let e' := resetSelection LoadScenario.markedEditor in
  wellKept e'
  ∧ pendingDeleteRef e' = [] ∧ pendingRestoreRef e' = []
  ∧ selectedForDelete e' = 0 ∧ selectedForRestore e' = 0
  ∧ ∀ b', buffersRef e' = Some b' →
      marked MarkedDelete b' = 0 ∧ marked MarkedRestore b' = 0.
Proof.
  apply (resetSelection_leaves_no_marks LoadScenario.markedEditor).
  apply applyBrush_consistent, allocatedEditor_consistent.
Defined.


Lemma compactBuffersAfterApply_counters e :
  let e' := (compactBuffersAfterApply e).2 in
  selectedForDelete e' = selectedForDelete e
  ∧ selectedForRestore e' = selectedForRestore e.
Proof.
  unfold compactBuffersAfterApply.
  destruct (buffersRef e), (geometryRef e); try done.
  by case_bool_decide.
Qed.

Lemma applyLocally_counters e :
  selectedForDelete (applyLocally e) = 0 ∧ selectedForRestore (applyLocally e) = 0.
Proof.
  unfold applyLocally.
  match goal with
  | |- context [compactBuffersAfterApply ?x] =>
      pose proof (compactBuffersAfterApply_counters x) as (Hd & Hr);
      destruct (compactBuffersAfterApply x) as [removed e3]
  end.
  simpl in *.
  assert (selectedForDelete e3 = 0 ∧ selectedForRestore e3 = 0) as [Hd' Hr'].
  { rewrite Hd, Hr. unfold markColorsDirty. simpl.
    by destruct (buffersRef e). }
  by destruct (0 <? removed).
Qed.

Lemma applyLocally_wellKept e : editor_consistent e → wellKept (applyLocally e).
Proof.
  intros Hc.
  pose proof (applyLocally_consistent e Hc) as Hc'.
  destruct (applyLocally_keeps e) as (_ & _ & Hpd & Hpr).
  destruct (applyLocally_counters e) as [Hsd Hsr].
  split; [done|]. rewrite Hpd, Hpr.
  split; [apply NoDup_nil_2|]. split; [apply NoDup_nil_2|].
  intros b' Hb'. specialize (Hc' b' Hb'). rewrite Hpd, Hpr in Hc'.
  destruct (consistent_counts [] [] b' Hc') as [Hd Hr]; [apply NoDup_nil_2..|].
  by rewrite Hsd, Hsr, <- Hd, <- Hr.
Qed.

(** [X17] A commit keeps the selection in order, whether it is accepted
    or rejected: after [applySelection] the pending sets still agree with
    the selection codes and the counters still count the marked points;
    an accepted commit leaves nothing marked, a rejected one leaves the
    marks as they were. *)
Theorem applySelection_keeps_selection_in_order {Srv : Type}
    (appendOps : Srv → AppendRequest → Completion unit * Srv)
    (session : option string) (srv : Srv) (e : Editor) (c : Commit) :
  wellKept e →
  applySelection appendOps session srv e = Some c →
  wellKept (editor c)
  ∧ ((pendingDeleteRef (editor c) = [] ∧ pendingRestoreRef (editor c) = [])
     ∨ (pendingDeleteRef (editor c) = pendingDeleteRef e
        ∧ pendingRestoreRef (editor c) = pendingRestoreRef e
        ∧ buffersRef (editor c) = buffersRef e)).
Proof.
  intros Hk Hrun. destruct session as [sid|]; [|injection Hrun as <-; split; [done|by right]].
  destruct (applySelection_runs appendOps sid srv e) as (c' & Hrun' & _ & _ & _ & Hed).
  rewrite Hrun in Hrun'. injection Hrun' as <-.
  destruct Hk as (Hc & Hd & Hr & Hn).
  destruct (outcome _) as [[]|err].
  - destruct Hed as [(_ & _ & Heq)|Heq]; rewrite Heq; [split; [done|by right]|].
    split; [by apply applyLocally_wellKept|]. left.
    match goal with |- context [applyLocally ?x] =>
      by destruct (applyLocally_keeps x) as (_ & _ & ? & ?) end.
  - rewrite Hed. split; [done|by right].
Qed.

Lemma applySelection_keeps_selection_in_order_witness :
  ∃ c, applySelection versionedLog (Some "s1") 0 LoadScenario.markedEditor = Some c
    ∧ wellKept (editor c)
    ∧ ((pendingDeleteRef (editor c) = [] ∧ pendingRestoreRef (editor c) = [])
       ∨ (pendingDeleteRef (editor c) = pendingDeleteRef LoadScenario.markedEditor
          ∧ pendingRestoreRef (editor c) = pendingRestoreRef LoadScenario.markedEditor
          ∧ buffersRef (editor c) = buffersRef LoadScenario.markedEditor)).
Proof.
  eexists. split; [vm_compute; reflexivity|].
  apply (applySelection_keeps_selection_in_order versionedLog (Some "s1") 0
           LoadScenario.markedEditor).
  - split; [apply applyBrush_consistent, allocatedEditor_consistent|].
    split; [compute_done|]. split; [compute_done|].
    intros b [= <-]. by vm_compute.
  - vm_compute. reflexivity.
Defined.

End Counters.

(** ** Compaction and the accepted commit *)

Section CompactionResult.
Import Rendering Tools SelectionCounts.

Lemma filter_all_length {A} (P : A → Prop) `{!∀ x, Decision (P x)} (l : list A) :
  (∀ k x, l !! k = Some x → P x) → length (filter P l) = length l.
Proof.
  induction l as [|x l IH]; intros Hall; [done|].
  rewrite filter_cons, decide_True by (by apply (Hall 0%nat)).
  simpl. f_equal. apply IH. intros k y Hk. by apply (Hall (S k)).
Qed.

Lemma filter_full_all {A} (P : A → Prop) `{!∀ x, Decision (P x)} (l : list A) :
  length (filter P l) = length l → ∀ k x, l !! k = Some x → P x.
Proof.
  induction l as [|y l IH]; intros Hlen k x Hk; [done|].
  rewrite filter_cons in Hlen.
  pose proof (length_filter P l) as Hle.
  destruct (decide (P y)) as [Hy|Hy]; simpl in Hlen; [|lia].
  destruct k as [|k]; simpl in Hk; [by simplify_eq|].
  apply (IH ltac:(lia) k x Hk).
Qed.

Lemma keepIdx_length b n :
  length (status b) = n →
  length (keepIdx b n) = length (filter (λ c, c = 0) (status b)).
Proof.
  intros <-. unfold keepIdx. apply (filter_indices_length 0 [] (status b)).
Qed.

(** What a compaction leaves: the number removed is the number of points
    that were not alive, the store holds the others, all of them alive,
    and, if a point was removed, the draw range covers them all. *)
Lemma compaction_result e b g n :
  buffersRef e = Some b → geometryRef e = Some g → holds_points b n →
  let m := length (filter (λ c, c = 0) (status b)) in
  let r := compactBuffersAfterApply e in
  (m ≤ n)%nat
  ∧ r.1 = Z.of_nat n - Z.of_nat m
  ∧ ∃ b', buffersRef r.2 = Some b'
      ∧ holds_points b' m
      ∧ (∀ k c, status b' !! k = Some c → c = 0)
      ∧ geometryRef r.2
        = Some (if decide (m = n) then g else mkGeometry (0, Z.of_nat m) true)
      ∧ dispatched r.2 = dispatched e.
Proof.
  intros Hb Hg Hh m r.
  pose proof Hh as (Hpos & Hcol & Hst & Hsel & Hint & Hlod).
  assert (Hm : length (keepIdx b n) = m) by (by apply keepIdx_length).
  assert (Hle : (m ≤ n)%nat).
  { unfold m. rewrite <- Hst. apply length_filter. }
  split; [done|].
  unfold r, compactBuffersAfterApply. rewrite Hb, Hg, Hpos, Nat.div_mul, Hm by lia.
  case_bool_decide as Hall; simpl.
  - split; [lia|]. exists b. rewrite decide_True by done.
    split; [done|]. rewrite Hall. split; [done|]. split; [|done].
    apply (filter_full_all (λ c, c = 0)). fold m. lia.
  - split; [done|].
    eexists. split; [done|]. rewrite decide_False by done. split; [|split; [|done]].
    + unfold holds_points.
      rewrite copyLoop_positions, copyLoop_colors, copyLoop_status, copyLoop_selections,
        copyLoop_intensities, copyLoop_lodIndex.
      rewrite !copy3_length, !copy1_length. simpl. rewrite !length_replicate.
      repeat split; try done.
      * intros ints. destruct (intensities b); simpl; [|done].
        intros [= <-]. by rewrite copy1_length, length_replicate.
      * intros lod. destruct (lodIndex b); simpl; [|done].
        intros [= <-]. by rewrite copy1_length, length_replicate.
    + intros k c. rewrite copyLoop_status. apply copy1_zero_lookup.
      simpl. by intros k' w [-> _]%lookup_replicate.
Qed.

(** [X18] After a compaction no deleted point is left in the store, and
    compacting again changes nothing: every status is alive, and a second
    call returns 0 and leaves the editor as the first call left it. *)
Theorem compaction_is_idempotent (e : Editor) (b : InternalBuffers) (g : Geometry) (n : nat) :
  buffersRef e = Some b → geometryRef e = Some g → holds_points b n →
  let e' := (compactBuffersAfterApply e).2 in
  0 ≤ (compactBuffersAfterApply e).1
  ∧ (∀ b', buffersRef e' = Some b' → ∀ k c, status b' !! k = Some c → c = status_code Alive)
  ∧ compactBuffersAfterApply e' = (0, e').
Proof.
  intros Hb Hg Hh e'.
  destruct (compaction_result e b g n Hb Hg Hh) as (Hle & Hrem & b' & Hb' & Hh' & Hzero & Hg' & _).
  fold e' in Hb', Hg'.
  split; [lia|]. split.
  { intros b0. rewrite Hb'. intros [= <-]. exact Hzero. }
  pose proof Hh' as (Hpos' & _ & Hst' & _).
  unfold compactBuffersAfterApply at 1. rewrite Hb', Hg', Hpos', Nat.div_mul by lia.
  rewrite bool_decide_eq_true_2; [done|].
  rewrite (keepIdx_length b' _ Hst').
  rewrite (filter_all_length (λ c, c = 0)); [done|exact Hzero].
Qed.

Lemma compaction_is_idempotent_witness :
  let e' := (compactBuffersAfterApply Examples.fivePoints).2 in
  0 ≤ (compactBuffersAfterApply Examples.fivePoints).1
  ∧ (∀ b', buffersRef e' = Some b' → ∀ k c, status b' !! k = Some c → c = status_code Alive)
  ∧ compactBuffersAfterApply e' = (0, e').
Proof.
  eapply (compaction_is_idempotent Examples.fivePoints).
  - reflexivity.
  - reflexivity.
  - repeat split; try reflexivity.
    + by intros ints [= <-].
    + by intros lod [= <-].
Defined.


Lemma setAll_length (v : Z) (st : list Z) (l : list Z) :
  length (foldl (λ s idx, setElem s idx v) st l) = length st.
Proof.
  revert st. induction l as [|idx l IH]; intros st; simpl; [done|].
  by rewrite IH, length_setElem.
Qed.

Lemma setAll_elem_other (v : Z) (st : list Z) (l : list Z) (i : Z) :
  i ∉ l → elem (foldl (λ s idx, setElem s idx v) st l) i = elem st i.
Proof.
  revert st. induction l as [|idx l IH]; intros st Hnot; simpl; [done|].
  apply not_elem_of_cons in Hnot as [Hne Hnot].
  rewrite IH by done. by rewrite elem_setElem_ne.
Qed.

Lemma setAll_elem_in (v : Z) (st : list Z) (l : list Z) (i : Z) :
  i ∈ l → 0 ≤ i < Z.of_nat (length st) →
  elem (foldl (λ s idx, setElem s idx v) st l) i = Some v.
Proof.
  revert st. induction l as [|idx l IH]; intros st Hin Hr; simpl.
  - by apply elem_of_nil in Hin.
  - destruct (decide (i ∈ l)) as [Hl|Hl].
    + apply IH; [done|]. by rewrite length_setElem.
    + apply elem_of_cons in Hin as [->|?]; [|done].
      rewrite setAll_elem_other by done. by apply elem_setElem_eq.
Qed.

Lemma foldl_markDeleted_status ds b l :
  status (foldl markDeleted (ds, b) l).2
  = foldl (λ s idx, setElem s idx 1) (status b) l.
Proof.
  revert ds b. induction l as [|idx l IH]; intros ds b; simpl; [done|].
  by rewrite IH.
Qed.

Lemma foldl_markRestored_status st l :
  status (foldl markRestored st l).2
  = foldl (λ s idx, setElem s idx 0) (status st.2) l.
Proof.
  revert st. induction l as [|idx l IH]; intros [ds b]; simpl; [done|].
  by rewrite IH.
Qed.

Lemma foldl_markDeleted_holds_points ds b l n :
  holds_points b n → holds_points (foldl markDeleted (ds, b) l).2 n.
Proof.
  revert ds b. induction l as [|idx l IH]; intros ds b Hh; simpl; [done|].
  apply IH.
  destruct Hh as (Hpos & Hcol & Hst & Hsel & Hint & Hlod).
  unfold holds_points. simpl. by rewrite !length_setElem.
Qed.

Lemma foldl_markRestored_holds_points st l n :
  holds_points st.2 n → holds_points (foldl markRestored st l).2 n.
Proof.
  revert st. induction l as [|idx l IH]; intros [ds b] Hh; simpl in *; [done|].
  apply IH.
  destruct Hh as (Hpos & Hcol & Hst & Hsel & Hint & Hlod).
  unfold holds_points. simpl. by rewrite !length_setElem.
Qed.

Lemma filter_two_values (l : list Z) :
  (∀ k c, l !! k = Some c → c = 0 ∨ c = 1) →
  (length (filter (λ c, (c = 0)%Z) l) + length (filter (λ c, (c = 1)%Z) l)
   = length l)%nat.
Proof.
  induction l as [|x l IH]; intros Hall; [done|].
  rewrite !filter_cons. specialize (IH (λ k c Hk, Hall (S k) c Hk)).
  destruct (Hall 0%nat x eq_refl) as [->| ->]; simpl; lia.
Qed.

(** The status codes after the two loops of an accepted commit, on a
    store in which every point was alive: deleted are exactly the points
    that were pending for deletion. *)
Lemma marked_status pd pr b ds n :
  holds_points b n → (∀ k c, status b !! k = Some c → c = 0) →
  consistent pd pr b →
  let b2 := (foldl markRestored (foldl markDeleted (ds, b) pd) pr).2 in
  holds_points b2 n
  ∧ (∀ i, i ∈ pd ↔ elem (status b2) i = Some 1)
  ∧ (∀ k c, status b2 !! k = Some c → c = 0 ∨ c = 1).
Proof.
  intros Hh Halive Hc b2.
  pose proof Hh as (_ & _ & Hst & Hsel & _).
  assert (Hst2 : status b2
    = foldl (λ s idx, setElem s idx 0) (foldl (λ s idx, setElem s idx 1) (status b) pd) pr).
  { unfold b2. by rewrite foldl_markRestored_status, foldl_markDeleted_status. }
  assert (Hrange : ∀ i, i ∈ pd → 0 ≤ i < Z.of_nat (length (status b))).
  { intros i Hi. apply (Hc i) in Hi. apply elem_Some_range in Hi. lia. }
  assert (Hin : ∀ i, i ∈ pd ↔ elem (status b2) i = Some 1).
  { intros i. rewrite Hst2. split.
    - intros Hi. rewrite setAll_elem_other.
      + apply setAll_elem_in; [done|by apply Hrange].
      + intros Hr. by apply (Hc i).
    - intros Hv. destruct (decide (i ∈ pd)) as [|Hnot]; [done|]. exfalso.
      destruct (decide (i ∈ pr)) as [Hr|Hr].
      + apply elem_Some_range in Hv as Hlen. rewrite !setAll_length in Hlen.
        rewrite setAll_elem_in in Hv; [done|done|by rewrite setAll_length].
      + rewrite !setAll_elem_other in Hv by done.
        unfold elem in Hv. destruct (i <? 0); [done|].
        by apply Halive in Hv. }
  split; [by apply foldl_markRestored_holds_points, foldl_markDeleted_holds_points|].
  split; [done|].
  intros k c Hk.
  destruct (decide (Z.of_nat k ∈ pd)) as [Hd|Hd].
  - right. apply Hin in Hd. unfold elem in Hd.
    assert ((Z.of_nat k <? 0) = false) as Hneg by (apply Z.ltb_ge; lia).
    rewrite Hneg, Nat2Z.id in Hd. congruence.
  - left. assert (Hv : elem (status b2) (Z.of_nat k) = Some c).
    { unfold elem.
      assert ((Z.of_nat k <? 0) = false) as -> by (apply Z.ltb_ge; lia).
      by rewrite Nat2Z.id. }
    rewrite Hst2 in Hv.
    destruct (decide (Z.of_nat k ∈ pr)) as [Hr|Hr].
    + apply elem_Some_range in Hv as Hlen. rewrite !setAll_length in Hlen.
      rewrite setAll_elem_in in Hv; [congruence|done|by rewrite setAll_length].
    + rewrite !setAll_elem_other in Hv by done.
      unfold elem in Hv. destruct (Z.of_nat k <? 0); [done|].
      by apply Halive in Hv.
Qed.

Lemma applyLocally_removes e b g n :
  buffersRef e = Some b → geometryRef e = Some g → holds_points b n →
  (∀ k c, status b !! k = Some c → c = 0) →
  consistent (pendingDeleteRef e) (pendingRestoreRef e) b → NoDup (pendingDeleteRef e) →
  let d := length (pendingDeleteRef e) in
  (d ≤ n)%nat
  ∧ ∃ b', buffersRef (applyLocally e) = Some b'
      ∧ holds_points b' (n - d)
      ∧ (∀ k c, status b' !! k = Some c → c = 0)
      ∧ geometryRef (applyLocally e)
        = Some (mkGeometry (if decide (d = 0%nat) then drawRange g else (0, Z.of_nat (n - d)))
                  true)
      ∧ dispatched (applyLocally e)
        = (if decide (d = 0%nat) then [] else [GeometryCompacted (Z.of_nat d)])
          ++ dispatched e.
Proof.
  intros Hb Hg Hh Halive Hc Hnd d.
  destruct (marked_status _ _ b (deletedSetRef e) n Hh Halive Hc) as (Hh2 & Hin & Hvals).
  set (b2 := (foldl markRestored (foldl markDeleted (deletedSetRef e, b) (pendingDeleteRef e))
                (pendingRestoreRef e)).2) in *.
  pose proof Hh2 as (_ & _ & Hst2 & _).
  assert (Hones : length (filter (λ c, c = 1) (status b2)) = d).
  { symmetry. by apply set_size_is_marked_count. }
  pose proof (filter_two_values (status b2) Hvals) as Hsum.
  rewrite Hones, Hst2 in Hsum.
  assert (Hzeros : length (filter (λ c, c = 0) (status b2)) = (n - d)%nat) by lia.
  split; [lia|].
  unfold applyLocally. rewrite Hb.
  match goal with
  | |- context [compactBuffersAfterApply ?x] =>
      destruct (compaction_result x b2 (mkGeometry (drawRange g) true) n)
        as (_ & Hrem & b' & Hb' & Hh' & Hzero & Hg' & Hdisp);
      [done|by simpl; rewrite Hg|done|];
      destruct (compactBuffersAfterApply x) as [removed e3]
  end.
  simpl in Hrem, Hb', Hg', Hdisp. rewrite Hzeros in Hrem, Hh', Hg'.
  assert (Hremoved : removed = Z.of_nat d) by lia.
  exists b'. destruct (decide (d = 0%nat)) as [Hd0|Hd0].
  - assert ((0 <? removed) = false) as -> by (apply Z.ltb_ge; lia).
    rewrite Hb', Hg', Hdisp. do 3 (split; [done|]).
    rewrite decide_True by lia. done.
  - assert ((0 <? removed) = true) as -> by (apply Z.ltb_lt; lia).
    simpl. rewrite Hb', Hg', Hdisp, Hremoved. do 3 (split; [done|]).
    rewrite decide_False by lia. done.
Qed.

Lemma elem_of_nat {A} (arr : list A) (k : nat) : elem arr (Z.of_nat k) = arr !! k.
Proof.
  unfold elem. destruct (Z.ltb_spec (Z.of_nat k) 0); [lia|]. by rewrite Nat2Z.id.
Qed.

(** The colour of a point, read off its three components. *)
Lemma colorAt_pointData b (i : nat) :
  (λ l, match l with
        | [Some r; Some g; Some bl] => Some (r, g, bl)
        | _ => None
        end) (pointData b i).1.2
  = colorAt b (Z.of_nat i).
Proof.
  unfold colorAt, pointData. simpl.
  replace (Z.of_nat i * 3) with (Z.of_nat (i * 3)) by lia.
  replace (Z.of_nat (i * 3) + 1) with (Z.of_nat (i * 3 + 1)) by lia.
  replace (Z.of_nat (i * 3) + 2) with (Z.of_nat (i * 3 + 2)) by lia.
  rewrite !elem_of_nat.
  by destruct (colors b !! (i * 3)%nat), (colors b !! (i * 3 + 1)%nat),
    (colors b !! (i * 3 + 2)%nat).
Qed.

Lemma baseShade_intensities b' b i :
  intensities b' = intensities b → baseShade b' i = baseShade b i.
Proof. intros Hi. unfold baseShade. by rewrite Hi. Qed.

Lemma writeColor_frame b idx c :
  positions (writeColor b idx c) = positions b
  ∧ intensities (writeColor b idx c) = intensities b
  ∧ length (colors (writeColor b idx c)) = length (colors b).
Proof.
  destruct c as [[r g] bl]. unfold writeColor. simpl. by rewrite !length_setElem.
Qed.

Lemma markDeleted_frame ds b idx :
  let b' := (markDeleted (ds, b) idx).2 in
  positions b' = positions b ∧ intensities b' = intensities b
  ∧ length (colors b') = length (colors b)
  ∧ ∀ i, i ≠ idx → colorAt b' i = colorAt b i.
Proof.
  unfold markDeleted. cbv zeta. cbn [snd].
  set (b2 := withSelections _ _).
  destruct (writeColor_frame b2 idx deletedGray) as (-> & -> & ->).
  do 3 (split; [done|]).
  intros i Hne. by rewrite colorAt_writeColor_ne.
Qed.

Lemma markRestored_frame ds b idx :
  let b' := (markRestored (ds, b) idx).2 in
  positions b' = positions b ∧ intensities b' = intensities b
  ∧ length (colors b') = length (colors b)
  ∧ (∀ i, i ≠ idx → colorAt b' i = colorAt b i)
  ∧ (0 ≤ idx → idx * 3 + 2 < Z.of_nat (length (colors b)) →
     colorAt b' idx = Some (gray (baseShade b idx))).
Proof.
  unfold markRestored. cbv zeta.
  set (b2 := withSelections _ _).
  assert (Hshade : baseShade b2 idx = baseShade b idx) by done.
  rewrite Hshade. cbn [snd].
  destruct (writeColor_frame b2 idx (gray (baseShade b idx))) as (-> & -> & ->).
  do 3 (split; [done|]). split.
  - intros i Hne. by rewrite colorAt_writeColor_ne.
  - intros H0 Hlen. by apply colorAt_writeColor.
Qed.

Lemma foldl_markDeleted_frame ds b l :
  let b' := (foldl markDeleted (ds, b) l).2 in
  positions b' = positions b ∧ intensities b' = intensities b
  ∧ length (colors b') = length (colors b)
  ∧ ∀ i, i ∉ l → colorAt b' i = colorAt b i.
Proof.
  revert ds b. induction l as [|idx l IH]; intros ds b; [done|].
  cbn [foldl]. destruct (markDeleted (ds, b) idx) as [ds1 b1] eqn:Hstep.
  pose proof (markDeleted_frame ds b idx) as Hf. rewrite Hstep in Hf.
  cbv zeta in Hf. simpl in Hf. destruct Hf as (Hp & Hi & Hl & Hc).
  specialize (IH ds1 b1). cbv zeta in IH. destruct IH as (Hp' & Hi' & Hl' & Hc').
  cbv zeta. rewrite Hp', Hi', Hl'. do 3 (split; [done|]).
  intros i [Hne Hnot]%not_elem_of_cons. rewrite Hc' by done. by apply Hc.
Qed.

Lemma foldl_markRestored_frame st l :
  let b' := (foldl markRestored st l).2 in
  positions b' = positions st.2 ∧ intensities b' = intensities st.2
  ∧ length (colors b') = length (colors st.2)
  ∧ ∀ i, 0 ≤ i → i * 3 + 2 < Z.of_nat (length (colors st.2)) →
      colorAt b' i
      = if decide (i ∈ l) then Some (gray (baseShade st.2 i)) else colorAt st.2 i.
Proof.
  revert st. induction l as [|idx l IH]; intros [ds b].
  { cbn [foldl snd]. do 3 (split; [done|]). intros i _ _.
    destruct (decide (i ∈ [])) as [Hin|]; [by apply elem_of_nil in Hin|done]. }
  cbn [foldl]. destruct (markRestored (ds, b) idx) as [ds1 b1] eqn:Hstep.
  pose proof (markRestored_frame ds b idx) as Hf. rewrite Hstep in Hf.
  cbv zeta in Hf. simpl in Hf. destruct Hf as (Hp & Hi & Hl & Hc & Hsame).
  specialize (IH (ds1, b1)). cbv zeta in IH. simpl in IH.
  destruct IH as (Hp' & Hi' & Hl' & Hc').
  cbv zeta. simpl. rewrite Hp', Hi', Hl'. do 3 (split; [done|]).
  intros i H0 Hlen. rewrite Hc' by lia.
  rewrite (baseShade_intensities b1 b i Hi).
  destruct (decide (i ∈ l)) as [Hin|Hnot].
  - rewrite decide_True; [done|by right].
  - destruct (decide (i = idx)) as [->|Hne].
    + rewrite decide_True by (by left). by apply Hsame.
    + rewrite decide_False; [by apply Hc|].
      by intros [?|?]%elem_of_cons.
Qed.

(** The two loops of an accepted commit leave the coordinates and the
    intensities of every point; a point that is not pending for deletion
    keeps its colour unless it is pending for restoration, in which case
    it gets its base shade. *)
Lemma marks_keep_points pd pr b ds n :
  holds_points b n →
  let b2 := (foldl markRestored (foldl markDeleted (ds, b) pd) pr).2 in
  positions b2 = positions b ∧ intensities b2 = intensities b
  ∧ ∀ i, (i < n)%nat → Z.of_nat i ∉ pd →
      colorAt b2 (Z.of_nat i)
      = if decide (Z.of_nat i ∈ pr) then Some (gray (baseShade b (Z.of_nat i)))
        else colorAt b (Z.of_nat i).
Proof.
  intros (_ & Hcol & _) b2.
  pose proof (foldl_markDeleted_frame ds b pd) as Hd. cbv zeta in Hd.
  destruct Hd as (Hp1 & Hi1 & Hl1 & Hc1).
  pose proof (foldl_markRestored_frame (foldl markDeleted (ds, b) pd) pr) as Hr.
  cbv zeta in Hr. fold b2 in Hr. destruct Hr as (Hp2 & Hi2 & Hl2 & Hc2).
  split; [congruence|]. split; [congruence|].
  intros i Hi Hnot. rewrite Hc2 by lia.
  rewrite (baseShade_intensities _ b _ Hi1). by rewrite Hc1.
Qed.

(** What the local part of an accepted commit keeps: the points that
    were not pending for deletion, in their order. *)
Lemma applyLocally_survivors e b g n :
  buffersRef e = Some b → geometryRef e = Some g → holds_points b n →
  (∀ k c, status b !! k = Some c → c = 0) →
  consistent (pendingDeleteRef e) (pendingRestoreRef e) b →
  ∃ kept : list nat,
    (∀ i, i ∈ kept ↔ (i < n)%nat ∧ Z.of_nat i ∉ pendingDeleteRef e)
    ∧ (∀ k1 k2 i1 i2, kept !! k1 = Some i1 → kept !! k2 = Some i2 →
                      (k1 < k2)%nat → (i1 < i2)%nat)
    ∧ ∃ b', buffersRef (applyLocally e) = Some b'
        ∧ holds_points b' (length kept)
        ∧ ∀ k i, kept !! k = Some i →
            (pointData b' k).1.1 = (pointData b i).1.1
            ∧ (pointData b' k).2 = (pointData b i).2
            ∧ colorAt b' (Z.of_nat k)
              = (if decide (Z.of_nat i ∈ pendingRestoreRef e)
                 then Some (gray (baseShade b (Z.of_nat i)))
                 else colorAt b (Z.of_nat i)).
Proof.
  intros Hb Hg Hh Halive Hc.
  destruct (marked_status _ _ b (deletedSetRef e) n Hh Halive Hc) as (Hh2 & Hin & Hvals).
  destruct (marks_keep_points (pendingDeleteRef e) (pendingRestoreRef e) b
              (deletedSetRef e) n Hh) as (Hpos2 & Hint2 & Hcol2).
  set (b2 := (foldl markRestored (foldl markDeleted (deletedSetRef e, b) (pendingDeleteRef e))
                (pendingRestoreRef e)).2) in *.
  pose proof Hh2 as (_ & _ & Hst2 & _).
  unfold applyLocally. rewrite Hb.
  match goal with
  | |- context [compactBuffersAfterApply ?x] =>
      destruct (compaction_alive_points x b2 (mkGeometry (drawRange g) true) n)
        as (alive & Hmem & Hincr & _ & b' & Hb' & Hh' & Hdata);
      [done|by simpl; rewrite Hg|done|];
      destruct (compactBuffersAfterApply x) as [removed e3]
  end.
  simpl in Hb'.
  assert (Hkept : ∀ i, i ∈ alive ↔ (i < n)%nat ∧ Z.of_nat i ∉ pendingDeleteRef e).
  { intros i. rewrite Hmem. split; intros [Hi Hs]; (split; [done|]).
    - intros Hd. apply Hin in Hd. rewrite elem_of_nat in Hd. simpl in Hs. congruence.
    - destruct (status b2 !! i) as [c|] eqn:Hlk.
      + destruct (Hvals i c Hlk) as [->| ->]; [done|].
        exfalso. apply Hs, Hin. by rewrite elem_of_nat.
      + apply lookup_ge_None in Hlk. lia. }
  exists alive. split; [done|]. split; [done|].
  exists b'. split.
  { by destruct (0 <? removed). }
  split; [done|].
  intros k i Hk. destruct (Hdata k i Hk) as [Hpd _].
  assert (Hi : (i < n)%nat ∧ Z.of_nat i ∉ pendingDeleteRef e).
  { apply Hkept. by eapply list_elem_of_lookup_2. }
  destruct Hi as [Hi Hnot].
  split; [|split].
  - rewrite Hpd. unfold pointData. simpl. by rewrite Hpos2.
  - rewrite Hpd. unfold pointData. simpl. by rewrite Hint2.
  - rewrite <- (colorAt_pointData b' k), Hpd, (colorAt_pointData b2 i).
    by apply Hcol2.
Qed.

End CompactionResult.

Section AcceptedCommit.
Import Rendering Tools SelectionCounts.
Context {Srv : Type} (appendOps : Srv → AppendRequest → Completion unit * Srv).

(** [X19] An accepted commit removes exactly the points that were marked
    for deletion: on a store of [n] alive points whose pending sets agree
    with the selection codes, when every request of the commit is
    accepted, the store holds afterwards the points that were not pending
    for deletion, and no other, in their order: the point in slot [k] is
    the [k]-th of them, with its coordinates and its intensity, and with
    its colour unless it was pending for restoration, when it has its
    base shade.  They are [n - d] points, [d] being the number of pending
    deletions, all of them alive; the draw range covers them, and
    ["pcd-geometry-compacted"] is dispatched once, with [removed = d],
    unless [d = 0]. *)
Theorem accepted_commit_removes_exactly_the_marked_points
    (sid : string) (srv : Srv) (e : Editor) (b : InternalBuffers) (g : Geometry) (n : nat) :
  let M := Z.to_nat MAX_INDICES_PER_OP in
  let plan :=
    commitPlan M sid (sessionVersionRef e) (pendingDeleteRef e) (pendingRestoreRef e) in
  let d := length (pendingDeleteRef e) in
  buffersRef e = Some b → geometryRef e = Some g → holds_points b n →
  (∀ k c, status b !! k = Some c → c = status_code Alive) →
  consistent (pendingDeleteRef e) (pendingRestoreRef e) b → NoDup (pendingDeleteRef e) →
  outcome (serve appendOps plan (sessionVersionRef e) srv []) = Normal () →
  ∃ c b' (kept : list nat), applySelection appendOps (Some sid) srv e = Some c
    ∧ (∀ i, i ∈ kept ↔ (i < n)%nat ∧ Z.of_nat i ∉ pendingDeleteRef e)
    ∧ (∀ k1 k2 i1 i2, kept !! k1 = Some i1 → kept !! k2 = Some i2 →
                      (k1 < k2)%nat → (i1 < i2)%nat)
    ∧ length kept = (n - d)%nat
    ∧ (d ≤ n)%nat
    ∧ buffersRef (editor c) = Some b'
    ∧ holds_points b' (n - d)
    ∧ (∀ k i, kept !! k = Some i →
         (pointData b' k).1.1 = (pointData b i).1.1
         ∧ (pointData b' k).2 = (pointData b i).2
         ∧ colorAt b' (Z.of_nat k)
           = (if decide (Z.of_nat i ∈ pendingRestoreRef e)
              then Some (gray (baseShade b (Z.of_nat i)))
              else colorAt b (Z.of_nat i)))
    ∧ (∀ k c0, status b' !! k = Some c0 → c0 = status_code Alive)
    ∧ (d ≠ 0%nat →
       geometryRef (editor c) = Some (mkGeometry (0, Z.of_nat (n - d)) true))
    ∧ dispatched (editor c)
      = (if decide (d = 0%nat) then [] else [GeometryCompacted (Z.of_nat d)])
        ++ dispatched e.
Proof.
  intros M plan d Hb Hg Hh Halive Hc Hnd Hout.
  destruct (applySelection_runs appendOps sid srv e) as (c & Hrun & _ & _ & _ & Hed).
  fold M plan in Hed. rewrite Hout in Hed.
  set (e1 := withSessionVersion e
               (currentVersion (serve appendOps plan (sessionVersionRef e) srv []))) in *.
  destruct (applyLocally_removes e1 b g n Hb Hg Hh Halive Hc Hnd)
    as (Hle & b' & Hb' & Hh' & Hzero & Hg' & Hdisp).
  destruct (applyLocally_survivors e1 b g n Hb Hg Hh Halive Hc)
    as (kept & Hkept & Hincr & b'' & Hb'' & Hh'' & Hdata).
  rewrite Hb' in Hb''. injection Hb'' as <-.
  fold d in Hle, Hh', Hg', Hdisp. simpl in Hdisp, Hkept, Hdata.
  assert (Hlen : length kept = (n - d)%nat).
  { destruct Hh' as (_ & _ & Hs1 & _), Hh'' as (_ & _ & Hs2 & _).
    rewrite <- Hs2. exact Hs1. }
  destruct Hed as [(Hpd & Hpr & Heq)|Heq].
  - assert (Hd0 : d = 0%nat) by (unfold d; by rewrite Hpd).
    exists c, b, (seq 0 n). rewrite Heq, Hd0, Nat.sub_0_r. rewrite decide_True by done.
    split; [done|]. split.
    { intros i. rewrite elem_of_seq, Hpd.
      split; [intros [_ ?]; split; [lia|apply not_elem_of_nil]|intros [? _]; lia]. }
    split.
    { intros k1 k2 i1 i2 [-> _]%lookup_seq [-> _]%lookup_seq. lia. }
    split; [apply length_seq|]. split; [lia|]. do 2 (split; [done|]). split.
    { intros k i [-> _]%lookup_seq. simpl. rewrite Hpr.
      by rewrite decide_False by apply not_elem_of_nil. }
    split; [done|]. split; [done|done].
  - exists c, b', kept. rewrite Heq. split; [done|].
    do 6 (split; [done|]). split; [done|]. split; [done|]. split; [|done].
    intros Hd0. rewrite Hg'. by rewrite decide_False by done.
Qed.

End AcceptedCommit.

Section AcceptedCommitExamples.
Import Rendering Tools SelectionCounts.

Lemma accepted_commit_removes_exactly_the_marked_points_witness :
  let e := LoadScenario.markedEditor in
  let d := length (pendingDeleteRef e) in
  ∃ b c b' (kept : list nat),
    buffersRef e = Some b
    ∧ applySelection versionedLog (Some "s1") 0 e = Some c
    ∧ (∀ i, i ∈ kept ↔ (i < 4)%nat ∧ Z.of_nat i ∉ pendingDeleteRef e)
    ∧ (∀ k1 k2 i1 i2, kept !! k1 = Some i1 → kept !! k2 = Some i2 →
                      (k1 < k2)%nat → (i1 < i2)%nat)
    ∧ length kept = (4 - d)%nat
    ∧ (d ≤ 4)%nat
    ∧ buffersRef (editor c) = Some b'
    ∧ holds_points b' (4 - d)
    ∧ (∀ k i, kept !! k = Some i →
         (pointData b' k).1.1 = (pointData b i).1.1
         ∧ (pointData b' k).2 = (pointData b i).2
         ∧ colorAt b' (Z.of_nat k)
           = (if decide (Z.of_nat i ∈ pendingRestoreRef e)
              then Some (gray (baseShade b (Z.of_nat i)))
              else colorAt b (Z.of_nat i)))
    ∧ (∀ k c0, status b' !! k = Some c0 → c0 = status_code Alive)
    ∧ (d ≠ 0%nat →
       geometryRef (editor c) = Some (mkGeometry (0, Z.of_nat (4 - d)) true))
    ∧ dispatched (editor c)
      = (if decide (d = 0%nat) then [] else [GeometryCompacted (Z.of_nat d)])
        ++ dispatched e.
Proof.
  eexists. 
  refine ((λ H, match H with
                | ex_intro _ c (ex_intro _ b' (ex_intro _ kept P)) =>
                    ex_intro _ c (ex_intro _ b' (ex_intro _ kept (conj eq_refl P)))
                end) _).
  eapply (accepted_commit_removes_exactly_the_marked_points versionedLog "s1" 0
            LoadScenario.markedEditor _ _ 4).
  - reflexivity.
  - reflexivity.
  - repeat split; try reflexivity.
    + by intros ints [=].
    + by intros lod [= <-].
  - intros k c Hk. vm_compute in Hk.
    repeat (destruct k as [|k]; [by injection Hk|]). done.
  - apply (applyBrush_consistent [Some 1] Tool.delete (allocatedEditor 4 0)
             (allocatedEditor_consistent 4 0) _ eq_refl).
  - compute_done.
  - vm_compute. reflexivity.
Defined.

(** Point 1 of four marked and committed: one request, three points
    left, the event reports one point removed. *)
Example commit_of_one_marked_point :
  ∃ c, applySelection versionedLog (Some "s1") 0 LoadScenario.markedEditor = Some c
    ∧ length (requests c) = 1%nat
    ∧ (status <$> buffersRef (editor c)) = Some [0; 0; 0]
    ∧ dispatched (editor c) = [GeometryCompacted 1]
    ∧ sessionVersionRef (editor c) = 1.
Proof. eexists. split; [vm_compute; reflexivity|]. by vm_compute. Qed.
End AcceptedCommitExamples.

(** ** The render helpers and the overlay *)

Section RenderHelpers.
Import Rendering RenderLoop.

Lemma flushColorUpdates_frame r :
  let r' := (flushColorUpdates r).2 in
  renderPendingRef r' = renderPendingRef r ∧ frameRequests r' = frameRequests r
  ∧ rendered r' = rendered r ∧ prevOverlayRef r' = prevOverlayRef r
  ∧ sceneReady r' = sceneReady r ∧ geometryRef r' = geometryRef r.
Proof.
  unfold flushColorUpdates. destruct (buffersRef r) as [b|]; [|done].
  case_bool_decide; [done|].
  by destruct (applyColorForAll (dirtyColorIndicesRef r) b) as [[[]|e] b'].
Qed.

Lemma renderScene_frame r :
  let r' := (renderScene r).2 in
  renderPendingRef r' = renderPendingRef r ∧ frameRequests r' = frameRequests r
  ∧ prevOverlayRef r' = prevOverlayRef r ∧ sceneReady r' = sceneReady r.
Proof.
  unfold renderScene. destruct (sceneReady r) eqn:Hs; simpl; [|done].
  pose proof (flushColorUpdates_frame r) as (Hp & Hf & _ & Ho & Hr & _).
  destruct (flushColorUpdates r) as [[[]|e] r1]; simpl in *;
    [|repeat split; congruence].
  destruct (colorAttrNeedsSyncRef r1); simpl; repeat split; congruence.
Qed.

Lemma markAll_frame l r :
  let r' := foldl (λ acc idx, markColorDirty idx acc) r l in
  renderPendingRef r' = renderPendingRef r ∧ frameRequests r' = frameRequests r.
Proof.
  revert r. induction l as [|idx l IH]; intros r; simpl; [done|].
  by destruct (IH (markColorDirty idx r)) as [-> ->].
Qed.

Lemma scheduleRender_pending r :
  frameRequests r = (if renderPendingRef r then 1 else 0)%nat →
  let r' := scheduleRender r in
  frameRequests r' = (if renderPendingRef r' then 1 else 0)%nat.
Proof.
  intros Hinv. unfold scheduleRender.
  destruct (renderPendingRef r) eqn:Hp; simpl; rewrite ?Hp; lia.
Qed.

Lemma renderStep_pending r ev :
  frameRequests r = (if renderPendingRef r then 1 else 0)%nat →
  frameRequests (renderStep r ev) = (if renderPendingRef (renderStep r ev) then 1 else 0)%nat.
Proof.
  intros Hinv. destruct ev as [| |index|visible indices]; simpl.
  - by apply scheduleRender_pending.
  - unfold animationFrame. destruct (frameRequests r) as [|n] eqn:Hn;
      [simpl; congruence|].
    match goal with |- context [renderScene ?x] =>
      destruct (renderScene_frame x) as (-> & -> & _) end.
    simpl. destruct (renderPendingRef r); simpl in *; lia.
  - done.
  - unfold overlayEffect.
    destruct (buffersRef r) as [b|]; [|done]. destruct (geometryRef r); [|done].
    set (r1 := if bool_decide (prevOverlayRef r = []) then r else _).
    assert (Hr1 : frameRequests r1 = (if renderPendingRef r1 then 1 else 0)%nat).
    { unfold r1. case_bool_decide; [done|]. simpl.
      by destruct (markAll_frame (prevOverlayRef r) r) as [-> ->]. }
    destruct indices as [[|idx0 rest]|]; try by apply scheduleRender_pending.
    destruct visible; cbn [negb]; [|by apply scheduleRender_pending].
    destruct (foldl tintOne (b, []) (idx0 :: rest)) as [b' setLocal].
    by apply scheduleRender_pending.
Qed.

(** [X20] The helpers never have more than one animation frame
    requested: whatever is scheduled, marked, overlaid and rendered, at
    most one callback of [requestAnimationFrame] is outstanding, and one
    is outstanding exactly when [renderPendingRef] is set. *)
Theorem at_most_one_frame_outstanding
    (evs : list RenderEvent) (b : option InternalBuffers) (g : option Tools.Geometry)
    (ready : bool) :
  let r := renderRun evs (fresh b g ready) in
  (frameRequests r ≤ 1)%nat
  ∧ (renderPendingRef r = true ↔ frameRequests r = 1%nat).
Proof.
  cbv zeta.
  assert (Hinv : frameRequests (renderRun evs (fresh b g ready))
                 = (if renderPendingRef (renderRun evs (fresh b g ready)) then 1 else 0)%nat).
  { unfold renderRun. induction evs as [|ev evs IH] using rev_ind; [done|].
    rewrite foldl_snoc. by apply renderStep_pending. }
  rewrite Hinv. destruct (renderPendingRef _); split; try lia; split; done.
Qed.

Lemma applyBaseColor_bad idx b :
  elem (selections b) idx ≫= selectionColorMap = None →
  applyBaseColor idx b true = (Throw TypeError, b).
Proof.
  intros Hbad. unfold applyBaseColor.
  assert (Hne : elem (selections b) idx ≠ Some 0).
  { intros Heq. rewrite Heq in Hbad. discriminate Hbad. }
  rewrite (bool_decide_eq_false_2 _ Hne). cbn [andb negb]. by rewrite Hbad.
Qed.

Lemma applyBaseColor_throws idx b use e b' :
  applyBaseColor idx b use = (Throw e, b') → e = TypeError.
Proof.
  unfold applyBaseColor.
  destruct (use && _); [|by destruct (if bool_decide _ then _ else _) as [[? ?] ?]].
  destruct (elem (selections b) idx ≫= selectionColorMap) as [[[? ?] ?]|]; congruence.
Qed.

Lemma applyColorForAll_bad dirty b idx :
  idx ∈ dirty → elem (selections b) idx ≫= selectionColorMap = None →
  ∃ b', applyColorForAll dirty b = (Throw TypeError, b') ∧ selections b' = selections b.
Proof.
  revert b. induction dirty as [|idx0 rest IH]; intros b Hin Hbad.
  - by apply elem_of_nil in Hin.
  - simpl. pose proof (applyBaseColor_selections idx0 b true) as Hsel.
    destruct (applyBaseColor idx0 b true) as [[[]|e] b1] eqn:Hone; simpl in Hsel.
    + apply elem_of_cons in Hin as [->|Hin].
      * by rewrite applyBaseColor_bad in Hone.
      * destruct (IH b1 Hin) as (b' & Hrun & Hsel'); [by rewrite Hsel|].
        exists b'. split; [done|]. by rewrite Hsel'.
    + exists b1. split; [|done]. by rewrite (applyBaseColor_throws _ _ _ _ _ Hone).
Qed.

(** [X21] A dirty index that lies outside the store, or whose selection
    code is none of 0, 1 and 2, stops the rendering for good:
    [flushColorUpdates] throws a [TypeError] before it clears the dirty
    set, so [renderScene] throws before it renders, and it does so again
    at every later attempt. *)
Theorem bad_dirty_index_stops_rendering
    (r : Renderer) (b : InternalBuffers) (idx : Z) (attempts : nat) :
  sceneReady r = true → buffersRef r = Some b →
  idx ∈ dirtyColorIndicesRef r →
  elem (selections b) idx ≫= selectionColorMap = None →
  let r' := Nat.iter attempts (λ x, (renderScene x).2) r in
  (renderScene r').1 = Throw TypeError
  ∧ rendered (renderScene r').2 = rendered r
  ∧ dirtyColorIndicesRef (renderScene r').2 = dirtyColorIndicesRef r.
Proof.
  intros Hready Hb Hin Hbad.
  assert (Hone : ∀ x bx, sceneReady x = true → buffersRef x = Some bx →
            idx ∈ dirtyColorIndicesRef x → selections bx = selections b →
            ∃ bx', renderScene x
                   = (Throw TypeError,
                      withColors x (Some bx') (dirtyColorIndicesRef x)
                        (colorAttrNeedsSyncRef x))
                   ∧ selections bx' = selections b).
  { intros x bx Hrx Hbx Hinx Hselx.
    unfold renderScene, flushColorUpdates. rewrite Hrx, Hbx. simpl.
    rewrite bool_decide_eq_false_2 by (intros Heq; rewrite Heq in Hinx; by apply elem_of_nil in Hinx).
    destruct (applyColorForAll_bad (dirtyColorIndicesRef x) bx idx Hinx) as (bx' & -> & Hsel').
    { by rewrite Hselx. }
    exists bx'. split; [done|]. by rewrite Hsel', Hselx. }
  assert (Hiter : ∀ n, let x := Nat.iter n (λ x, (renderScene x).2) r in
            sceneReady x = true ∧ (∃ bx, buffersRef x = Some bx ∧ selections bx = selections b)
            ∧ dirtyColorIndicesRef x = dirtyColorIndicesRef r ∧ rendered x = rendered r).
  { induction n as [|n IH]; simpl.
    - split; [done|]. split; [by exists b|done].
    - destruct IH as (Hrx & (bx & Hbx & Hselx) & Hdx & Hnx).
      destruct (Hone _ bx Hrx Hbx) as (bx' & -> & Hsel'); [by rewrite Hdx|done|].
      simpl. split; [done|]. split; [by exists bx'|done]. }
  intros r'. destruct (Hiter attempts) as (Hrx & (bx & Hbx & Hselx) & Hdx & Hnx).
  fold r' in Hrx, Hbx, Hdx, Hnx.
  destruct (Hone r' bx Hrx Hbx) as (bx' & -> & _); [by rewrite Hdx|done|].
  simpl. by rewrite Hdx, Hnx.
Qed.


Lemma bad_dirty_index_stops_rendering_witness :
  let r' := Nat.iter 2 (λ x, (renderScene x).2) LoadScenario.staleRenderer in
  (renderScene r').1 = Throw TypeError
  ∧ rendered (renderScene r').2 = rendered LoadScenario.staleRenderer
  ∧ dirtyColorIndicesRef (renderScene r').2 = dirtyColorIndicesRef LoadScenario.staleRenderer.
Proof.
  apply (bad_dirty_index_stops_rendering LoadScenario.staleRenderer
           (Tools.allocateBuffers 3) 4 2).
  - reflexivity.
  - reflexivity.
  - compute_done.
  - reflexivity.
Defined.

Lemma writeColor_sameButColors b idx c : sameButColors (writeColor b idx c) b.
Proof.
  destruct c as [[r g] bl]. unfold sameButColors, writeColor. simpl.
  by rewrite !length_setElem.
Qed.

Lemma sameButColors_trans b1 b2 b3 :
  sameButColors b1 b2 → sameButColors b2 b3 → sameButColors b1 b3.
Proof.
  intros (? & ? & ? & ? & ? & ?) (? & ? & ? & ? & ? & ?).
  repeat split; congruence.
Qed.

Lemma paintable_same b' b idx : sameButColors b' b → paintable b idx → paintable b' idx.
Proof.
  intros (_ & Hst & Hsel & _ & _ & Hlen) (H0 & Hr & Hs & Hc).
  unfold paintable. by rewrite Hst, Hsel, Hlen.
Qed.

(** The colour that [applyBaseColor] gives a point depends on its status,
    its selection code and its intensity alone. *)
Lemma applyBaseColor_paintable b idx :
  paintable b idx →
  ∃ c, ∀ b2, sameButColors b2 b →
    applyBaseColor idx b2 true = (Normal (), writeColor b2 idx c).
Proof.
  intros (_ & _ & [st Hst] & [sel Hsel]).
  exists (match sel with
          | SelNone =>
              if bool_decide (elem (status b) idx = Some 1) then deletedGray
              else gray (baseShade b idx)
          | MarkedDelete => (Num 1, Num (1 # 4), Num (1 # 4))
          | MarkedRestore => (Num (1 # 5), Num 1, Num (1 # 5))
          end).
  intros b2 (_ & H1 & H2 & H3 & _).
  assert (Hbase : baseShade b2 idx = baseShade b idx) by (unfold baseShade; by rewrite H3).
  unfold applyBaseColor. rewrite Hbase, H1, H2, Hsel. by destruct sel.
Qed.

Lemma sameButColors_refl b : sameButColors b b.
Proof. by repeat split. Qed.

Lemma applyColorForAll_paint dirty b :
  (∀ idx, idx ∈ dirty → paintable b idx) →
  ∃ b', applyColorForAll dirty b = (Normal (), b')
    ∧ sameButColors b' b
    ∧ (∀ idx, idx ∈ dirty → colorAt b' idx = colorAt (applyBaseColor idx b true).2 idx)
    ∧ (∀ idx, idx ∉ dirty → colorAt b' idx = colorAt b idx).
Proof.
  revert b. induction dirty as [|idx0 rest IH]; intros b Hp.
  - exists b. split; [done|]. split; [apply sameButColors_refl|].
    split; [by intros idx ?%elem_of_nil|done].
  - assert (Hp0 : paintable b idx0) by (apply Hp; by left).
    destruct (applyBaseColor_paintable b idx0 Hp0) as [c0 Hc0].
    pose proof (Hc0 b (sameButColors_refl b)) as Hrun.
    pose proof (writeColor_sameButColors b idx0 c0) as Hsame.
    simpl. rewrite Hrun.
    destruct (IH (writeColor b idx0 c0)) as (b' & Hrest & Hsame' & Hin & Hout).
    { intros idx Hidx. apply (paintable_same _ b); [done|]. apply Hp. by right. }
    exists b'. split; [done|]. split; [by eapply sameButColors_trans|]. split.
    + intros idx Hidx. destruct (decide (idx ∈ rest)) as [Hr|Hr].
      * rewrite (Hin idx Hr).
        assert (Hpi : paintable b idx) by (apply Hp; by right).
        destruct (applyBaseColor_paintable b idx Hpi) as [c Hc].
        rewrite (Hc _ Hsame), (Hc b (sameButColors_refl b)). simpl.
        destruct Hpi as (H0 & Hlen & _).
        rewrite !colorAt_writeColor; try done.
        destruct Hsame as (_ & _ & _ & _ & _ & ->). done.
      * apply elem_of_cons in Hidx as [->|?]; [|done].
        rewrite (Hout idx0 Hr). by rewrite Hrun.
    + intros idx Hidx. apply not_elem_of_cons in Hidx as [Hne Hr].
      rewrite (Hout idx Hr). by apply colorAt_writeColor_ne.
Qed.

(** [X22] When every dirty index is a point of the store with known
    codes, [flushColorUpdates] returns, empties the dirty set and asks for
    a sync of the colour attribute; each dirty point then has the colour
    that [applyBaseColor] computes for it from the store as it was, in
    whatever order the indices were marked, and no other point and no
    other array is changed. *)
Theorem flush_recolours_exactly_the_dirty_points (r : Renderer) (b : InternalBuffers) :
  buffersRef r = Some b → dirtyColorIndicesRef r ≠ [] →
  (∀ idx, idx ∈ dirtyColorIndicesRef r → paintable b idx) →
  ∃ b', flushColorUpdates r = (Normal (), withColors r (Some b') [] true)
    ∧ sameButColors b' b
    ∧ (∀ idx, idx ∈ dirtyColorIndicesRef r →
         colorAt b' idx = colorAt (applyBaseColor idx b true).2 idx)
    ∧ (∀ idx, idx ∉ dirtyColorIndicesRef r → colorAt b' idx = colorAt b idx).
Proof.
  intros Hb Hne Hp.
  destruct (applyColorForAll_paint (dirtyColorIndicesRef r) b Hp)
    as (b' & Hrun & Hsame & Hin & Hout).
  exists b'. unfold flushColorUpdates. rewrite Hb, Hrun.
  by rewrite bool_decide_eq_false_2 by done.
Qed.


Lemma allocateBuffers_paintable n idx :
  0 ≤ idx < Z.of_nat n → paintable (Tools.allocateBuffers n) idx.
Proof.
  intros Hr. unfold paintable, Tools.allocateBuffers. simpl.
  rewrite length_replicate. split; [lia|]. split; [lia|].
  unfold elem. assert ((idx <? 0) = false) as -> by (apply Z.ltb_ge; lia).
  split.
  - exists 0. apply lookup_replicate. split; [done|lia].
  - exists SelNone. apply lookup_replicate. split; [done|lia].
Qed.

Lemma flush_recolours_exactly_the_dirty_points_witness :
  ∃ b', flushColorUpdates LoadScenario.tidyRenderer
        = (Normal (), withColors LoadScenario.tidyRenderer (Some b') [] true)
    ∧ sameButColors b' (Tools.allocateBuffers 3)
    ∧ (∀ idx, idx ∈ dirtyColorIndicesRef LoadScenario.tidyRenderer →
         colorAt b' idx = colorAt (applyBaseColor idx (Tools.allocateBuffers 3) true).2 idx)
    ∧ (∀ idx, idx ∉ dirtyColorIndicesRef LoadScenario.tidyRenderer →
         colorAt b' idx = colorAt (Tools.allocateBuffers 3) idx).
Proof.
  apply (flush_recolours_exactly_the_dirty_points LoadScenario.tidyRenderer
           (Tools.allocateBuffers 3)).
  - reflexivity.
  - discriminate.
  - intros idx Hidx. apply allocateBuffers_paintable.
    simpl in Hidx.
    repeat (apply elem_of_cons in Hidx as [->|Hidx]; [lia|]).
    by apply elem_of_nil in Hidx.
Defined.

Lemma writeColor_holds_points b idx c n :
  Tools.holds_points b n → Tools.holds_points (writeColor b idx c) n.
Proof.
  intros (Hpos & Hcol & Hst & Hsel & Hint & Hlod).
  destruct c as [[r g] bl]. unfold Tools.holds_points, writeColor. simpl.
  by rewrite !length_setElem.
Qed.

(** What the loop of the overlay effect leaves: the points of the list
    that lie in the store are tinted and collected, nothing else is
    touched. *)
Lemma tint_result idxs b acc n :
  Tools.holds_points b n →
  let st := foldl tintOne (b, acc) idxs in
  sameButColors st.1 b
  ∧ Tools.holds_points st.1 n
  ∧ (∀ idx, idx ∈ st.2 ↔ idx ∈ acc ∨ (idx ∈ idxs ∧ 0 ≤ idx < Z.of_nat n))
  ∧ (∀ idx, idx ∈ idxs → 0 ≤ idx < Z.of_nat n → colorAt st.1 idx = Some overlayColor)
  ∧ (∀ idx, ¬ (idx ∈ idxs ∧ 0 ≤ idx < Z.of_nat n) → colorAt st.1 idx = colorAt b idx).
Proof.
  revert b acc. induction idxs as [|idx0 rest IH]; intros b acc Hh.
  - simpl. split; [apply sameButColors_refl|]. split; [done|]. split.
    + intros idx. split; [by left|]. by intros [?|[?%elem_of_nil _]].
    + split; [by intros idx ?%elem_of_nil|done].
  - pose proof Hh as (Hpos & Hcol & _).
    cbn [foldl]. cbv zeta.
    destruct ((idx0 <? 0) || (Z.of_nat (length (positions b)) <=? idx0 * 3)) eqn:Hout.
    + assert (Hstep : tintOne (b, acc) idx0 = (b, acc)).
      { unfold tintOne. by rewrite Hout. }
      rewrite Hstep.
      assert (Hno : ¬ 0 ≤ idx0 < Z.of_nat n).
      { apply orb_true_iff in Hout as [?%Z.ltb_lt|?%Z.leb_le]; lia. }
      pose proof (IH b acc Hh) as IHb. cbv zeta in IHb.
      destruct IHb as (Hsame & Hh' & Hset & Hin & Hother).
      split; [done|]. split; [done|]. split; [|split].
      * intros idx. rewrite Hset, elem_of_cons.
        split; [intros [?|[? ?]]; auto|].
        intros [?|[[->|?] ?]]; auto. lia.
      * intros idx [->|Hr]%elem_of_cons Hrange; [lia|by apply Hin].
      * intros idx Hnot. apply Hother. intros [Hr Hrange]. apply Hnot.
        split; [by right|done].
    + assert (Hstep : tintOne (b, acc) idx0
                      = (writeColor b idx0 overlayColor, JsSet.add acc idx0)).
      { unfold tintOne. by rewrite Hout. }
      rewrite Hstep.
      assert (Hyes : 0 ≤ idx0 < Z.of_nat n).
      { apply orb_false_iff in Hout as [?%Z.ltb_ge ?%Z.leb_gt]. lia. }
      pose proof (IH (writeColor b idx0 overlayColor) (JsSet.add acc idx0)
                    (writeColor_holds_points b idx0 overlayColor n Hh)) as IHb.
      cbv zeta in IHb. destruct IHb as (Hsame & Hh' & Hset & Hin & Hother).
      split; [eapply sameButColors_trans; [done|apply writeColor_sameButColors]|].
      split; [done|]. split; [|split].
      * intros idx. rewrite Hset, JsSet_elem_of_add, elem_of_cons.
        split; [intros [[->|?]|[? ?]]; auto|].
        intros [?|[[->|?] ?]]; auto.
      * intros idx Hidx Hrange. destruct (decide (idx ∈ rest)) as [Hr|Hr].
        -- by apply Hin.
        -- apply elem_of_cons in Hidx as [->|?]; [|done].
           rewrite Hother by (intros [? _]; done).
           apply colorAt_writeColor; lia.
      * intros idx Hnot. rewrite Hother.
        -- apply colorAt_writeColor_ne. intros ->. apply Hnot. split; [by left|done].
        -- intros [Hr Hrange]. apply Hnot. split; [by right|done].
Qed.

Lemma markAll_dirty l r :
  let r' := foldl (λ acc idx, markColorDirty idx acc) r l in
  buffersRef r' = buffersRef r ∧ geometryRef r' = geometryRef r
  ∧ sceneReady r' = sceneReady r ∧ colorAttrNeedsSyncRef r' = colorAttrNeedsSyncRef r
  ∧ rendered r' = rendered r
  ∧ ∀ idx, idx ∈ dirtyColorIndicesRef r' ↔ idx ∈ dirtyColorIndicesRef r ∨ idx ∈ l.
Proof.
  revert r. induction l as [|idx0 l IH]; intros r; simpl.
  - do 5 (split; [done|]). intros idx. split; [by left|]. by intros [?|?%elem_of_nil].
  - destruct (IH (markColorDirty idx0 r)) as (-> & -> & -> & -> & -> & Hd).
    do 5 (split; [done|]). intros idx. rewrite Hd. simpl.
    rewrite JsSet_elem_of_add, elem_of_cons. tauto.
Qed.

(** [X23] Showing the overlay tints exactly the listed points that lie
    in the store, with the overlay colour, and remembers them; no status,
    no selection code and no other colour is touched, and the points of
    the overlay shown before are marked dirty. *)
Theorem overlay_tints_only_listed_points
    (r : Renderer) (b : InternalBuffers) (g : Tools.Geometry) (n : nat)
    (idx0 : Z) (rest : list Z) :
  buffersRef r = Some b → geometryRef r = Some g → Tools.holds_points b n →
  let indices := idx0 :: rest in
  let r' := overlayEffect true (Some indices) r in
  ∃ b', buffersRef r' = Some b'
    ∧ sameButColors b' b
    ∧ (∀ idx, idx ∈ prevOverlayRef r' ↔ idx ∈ indices ∧ 0 ≤ idx < Z.of_nat n)
    ∧ (∀ idx, idx ∈ prevOverlayRef r' → colorAt b' idx = Some overlayColor)
    ∧ (∀ idx, idx ∉ prevOverlayRef r' → colorAt b' idx = colorAt b idx)
    ∧ (∀ idx, idx ∈ prevOverlayRef r → idx ∈ dirtyColorIndicesRef r')
    ∧ colorAttrNeedsSyncRef r' = true
    ∧ renderPendingRef r' = true.
Proof.
  intros Hb Hg Hh indices r'.
  pose proof (tint_result indices b [] n Hh) as Ht. cbv zeta in Ht.
  unfold r', overlayEffect. subst indices. rewrite Hb, Hg. cbn [negb].
  set (indices := idx0 :: rest) in *. clearbody indices.
  destruct (foldl tintOne (b, []) indices) as [b' setLocal] eqn:Htint.
  simpl in Ht. destruct Ht as (Hsame & _ & Hset & Hin & Hother).
  set (r1 := if bool_decide (prevOverlayRef r = []) then r else _).
  assert (Hdirty : ∀ idx, idx ∈ prevOverlayRef r → idx ∈ dirtyColorIndicesRef r1).
  { intros idx Hidx. unfold r1. case_bool_decide as Hnil.
    - rewrite Hnil in Hidx. by apply elem_of_nil in Hidx.
    - simpl. destruct (markAll_dirty (prevOverlayRef r) r) as (_ & _ & _ & _ & _ & Hd).
      apply Hd. by right. }
  assert (Hmem : ∀ idx, idx ∈ setLocal ↔ idx ∈ indices ∧ 0 ≤ idx < Z.of_nat n).
  { intros idx. rewrite Hset. split; [by intros [?%elem_of_nil|?]|by right]. }
  exists b'. unfold scheduleRender. simpl.
  destruct (renderPendingRef r1); simpl.
  - split; [done|]. split; [done|]. split; [done|]. split.
    { intros idx [? ?]%Hmem. by apply Hin. }
    split; [|done].
    intros idx Hnot. apply Hother. intros Hyes. by apply Hnot, Hmem.
  - split; [done|]. split; [done|]. split; [done|]. split.
    { intros idx [? ?]%Hmem. by apply Hin. }
    split; [|done].
    intros idx Hnot. apply Hother. intros Hyes. by apply Hnot, Hmem.
Qed.


Lemma overlay_tints_only_listed_points_witness :
  let indices := [1; 7; -2] in
  let r' := overlayEffect true (Some indices)
              (fresh (Some (Tools.allocateBuffers 3)) (Some LoadScenario.emptyGeometry) true) in
  ∃ b', buffersRef r' = Some b'
    ∧ sameButColors b' (Tools.allocateBuffers 3)
    ∧ (∀ idx, idx ∈ prevOverlayRef r' ↔ idx ∈ indices ∧ 0 ≤ idx < Z.of_nat 3)
    ∧ (∀ idx, idx ∈ prevOverlayRef r' → colorAt b' idx = Some overlayColor)
    ∧ (∀ idx, idx ∉ prevOverlayRef r' → colorAt b' idx = colorAt (Tools.allocateBuffers 3) idx)
    ∧ (∀ idx, idx ∈ prevOverlayRef
                      (fresh (Some (Tools.allocateBuffers 3))
                         (Some LoadScenario.emptyGeometry) true) →
              idx ∈ dirtyColorIndicesRef r')
    ∧ colorAttrNeedsSyncRef r' = true
    ∧ renderPendingRef r' = true.
Proof.
  apply (overlay_tints_only_listed_points
           (fresh (Some (Tools.allocateBuffers 3)) (Some LoadScenario.emptyGeometry) true)
           (Tools.allocateBuffers 3) LoadScenario.emptyGeometry 3 1 [7; -2]).
  - reflexivity.
  - reflexivity.
  - repeat split; try reflexivity.
    + by intros ints [=].
    + by intros lod [= <-].
Defined.

Lemma overlayEffect_show r b g idx0 rest :
  buffersRef r = Some b → geometryRef r = Some g → prevOverlayRef r = [] →
  overlayEffect true (Some (idx0 :: rest)) r
  = scheduleRender
      (mkRenderer (Some (foldl tintOne (b, []) (idx0 :: rest)).1) (geometryRef r)
         (sceneReady r) (dirtyColorIndicesRef r) true (renderPendingRef r)
         (frameRequests r) (rendered r) (foldl tintOne (b, []) (idx0 :: rest)).2).
Proof.
  intros Hb Hg Hp. unfold overlayEffect.
  rewrite Hb, Hg, (bool_decide_eq_true_2 _ Hp). cbn [negb].
  destruct (foldl tintOne (b, []) (idx0 :: rest)). simpl. by rewrite ?Hg.
Qed.

Lemma overlayEffect_hide r b g hidden :
  buffersRef r = Some b → geometryRef r = Some g → renderPendingRef r = true →
  ∃ D, overlayEffect false hidden r
       = mkRenderer (Some b) (Some g) (sceneReady r) D (colorAttrNeedsSyncRef r) true
           (frameRequests r) (rendered r) []
     ∧ (∀ idx, idx ∈ D ↔ idx ∈ dirtyColorIndicesRef r ∨ idx ∈ prevOverlayRef r).
Proof.
  intros Hb Hg Hp. unfold overlayEffect. rewrite Hb, Hg.
  set (r1 := if bool_decide (prevOverlayRef r = []) then r else _).
  assert (Hr1 : ∃ D, r1 = mkRenderer (Some b) (Some g) (sceneReady r) D
                            (colorAttrNeedsSyncRef r) true (frameRequests r) (rendered r) []
                ∧ (∀ idx, idx ∈ D ↔ idx ∈ dirtyColorIndicesRef r ∨ idx ∈ prevOverlayRef r)).
  { unfold r1. case_bool_decide as Hnil.
    - exists (dirtyColorIndicesRef r). split.
      + destruct r. simpl in *. by subst.
      + intros idx. rewrite Hnil. split; [by left|]. by intros [?|?%elem_of_nil].
    - destruct (markAll_dirty (prevOverlayRef r) r) as (Hb' & Hg' & Hs' & Hc' & Hn' & Hd).
      destruct (markAll_frame (prevOverlayRef r) r) as (Hp' & Hf').
      eexists. split; [|exact Hd].
      by rewrite Hb', Hg', Hs', Hc', Hn', Hp', Hf', Hb, Hg, Hp. }
  destruct Hr1 as (D & Hr1 & HD). exists D. split; [|done].
  assert (Hs : scheduleRender r1 = r1) by (rewrite Hr1; done).
  destruct hidden as [[|i l]|]; cbn [negb]; by rewrite Hs.
Qed.

(** [X24] Hiding the overlay repaints the tinted points with their base
    colour: after the overlay was shown on a fresh store, then hidden, and
    the pending frame has run, each point that was tinted has the colour
    that [applyBaseColor] computes for it, which is the colour it had
    before the overlay only if it had that colour then; every other
    colour and every other array is what it was before the overlay, the
    dirty set and the remembered overlay are empty, and the scene was
    rendered once. *)
Theorem hiding_overlay_repaints_base_colours
    (b : InternalBuffers) (g : Tools.Geometry) (n : nat)
    (idx0 : Z) (rest : list Z) (hidden : option (list Z)) :
  Tools.holds_points b n →
  (∀ idx, idx ∈ idx0 :: rest → 0 ≤ idx < Z.of_nat n → paintable b idx) →
  let indices := idx0 :: rest in
  let r1 := overlayEffect true (Some indices) (fresh (Some b) (Some g) true) in
  let r2 := overlayEffect false hidden r1 in
  let r3 := (animationFrame r2).2 in
  ∃ b3, buffersRef r3 = Some b3
    ∧ sameButColors b3 b
    ∧ (∀ idx, idx ∈ indices → 0 ≤ idx < Z.of_nat n →
         colorAt b3 idx = colorAt (applyBaseColor idx b true).2 idx
         ∧ (colorAt b3 idx = colorAt b idx
            ↔ colorAt b idx = colorAt (applyBaseColor idx b true).2 idx))
    ∧ (∀ idx, ¬ (idx ∈ indices ∧ 0 ≤ idx < Z.of_nat n) → colorAt b3 idx = colorAt b idx)
    ∧ dirtyColorIndicesRef r3 = [] ∧ prevOverlayRef r3 = []
    ∧ rendered r3 = 1%nat.
Proof.
  intros Hh Hp indices r1 r2 r3.
  pose proof (tint_result indices b [] n Hh) as Ht. cbv zeta in Ht.
  destruct Ht as (Hsame1 & _ & Hset & Hin & Hother).
  assert (Hr1 : r1 = mkRenderer (Some (foldl tintOne (b, []) indices).1) (Some g) true []
                       true true 1 0 (foldl tintOne (b, []) indices).2).
  { unfold r1, indices. by rewrite (overlayEffect_show _ b g). }
  set (b1 := (foldl tintOne (b, []) indices).1) in *.
  set (setLocal := (foldl tintOne (b, []) indices).2) in *.
  destruct (overlayEffect_hide r1 b1 g hidden) as (D & Hr2 & HD);
    [by rewrite Hr1..|].
  fold r2 in Hr2. rewrite Hr1 in Hr2, HD. simpl in Hr2, HD.
  assert (HDmem : ∀ idx, idx ∈ D ↔ idx ∈ indices ∧ 0 ≤ idx < Z.of_nat n).
  { intros idx. rewrite HD, Hset.
    split; [by intros [?%elem_of_nil|[?%elem_of_nil|?]]|by right; right]. }
  assert (Hpaint : ∀ idx, idx ∈ D → paintable b1 idx).
  { intros idx [Hidx Hr]%HDmem. apply (paintable_same _ b); [done|by apply Hp]. }
  destruct (applyColorForAll_paint D b1 Hpaint) as (b3 & Hrun & Hsame3 & Hcin & Hcout).
  assert (Hcolours :
    (∀ idx, idx ∈ indices → 0 ≤ idx < Z.of_nat n →
       colorAt b3 idx = colorAt (applyBaseColor idx b true).2 idx
       ∧ (colorAt b3 idx = colorAt b idx
          ↔ colorAt b idx = colorAt (applyBaseColor idx b true).2 idx))
    ∧ (∀ idx, ¬ (idx ∈ indices ∧ 0 ≤ idx < Z.of_nat n) → colorAt b3 idx = colorAt b idx)).
  { split.
    - intros idx Hidx Hr.
      assert (colorAt b3 idx = colorAt (applyBaseColor idx b true).2 idx) as Heq;
        [|split; [done|rewrite Heq; by split]].
      rewrite Hcin by (by apply HDmem).
      assert (Hpi : paintable b idx) by (by apply Hp).
      destruct (applyBaseColor_paintable b idx Hpi) as [c Hc].
      rewrite (Hc _ Hsame1), (Hc b (sameButColors_refl b)). simpl.
      destruct Hpi as (H0 & Hlen & _).
      rewrite !colorAt_writeColor; try done.
      destruct Hsame1 as (_ & _ & _ & _ & _ & ->). done.
    - intros idx Hnot. rewrite Hcout by (by rewrite HDmem). by apply Hother. }
  destruct Hcolours as [Hc1 Hc2].
  unfold r3. rewrite Hr2. unfold animationFrame, renderScene, flushColorUpdates. simpl.
  case_bool_decide as HDnil.
  - exists b1. simpl. split; [done|]. split; [done|].
    assert (Hb3 : b3 = b1) by (rewrite HDnil in Hrun; simpl in Hrun; congruence).
    rewrite <- Hb3. split; [exact Hc1|]. split; [exact Hc2|]. by repeat split.
  - rewrite Hrun. exists b3. simpl. split; [done|].
    split; [by eapply sameButColors_trans|].
    split; [exact Hc1|]. split; [exact Hc2|]. by repeat split.
Qed.

Lemma hiding_overlay_repaints_base_colours_witness :
  let b := Tools.allocateBuffers 3 in
  let indices := [1; 7; -2] in
  let r1 := overlayEffect true (Some indices)
              (fresh (Some b) (Some LoadScenario.emptyGeometry) true) in
  let r2 := overlayEffect false None r1 in
  let r3 := (animationFrame r2).2 in
  ∃ b3, buffersRef r3 = Some b3
    ∧ sameButColors b3 b
    ∧ (∀ idx, idx ∈ indices → 0 ≤ idx < Z.of_nat 3 →
         colorAt b3 idx = colorAt (applyBaseColor idx b true).2 idx
         ∧ (colorAt b3 idx = colorAt b idx
            ↔ colorAt b idx = colorAt (applyBaseColor idx b true).2 idx))
    ∧ (∀ idx, ¬ (idx ∈ indices ∧ 0 ≤ idx < Z.of_nat 3) → colorAt b3 idx = colorAt b idx)
    ∧ dirtyColorIndicesRef r3 = [] ∧ prevOverlayRef r3 = []
    ∧ rendered r3 = 1%nat.
Proof.
  apply (hiding_overlay_repaints_base_colours (Tools.allocateBuffers 3)
           LoadScenario.emptyGeometry 3 1 [7; -2] None).
  - repeat split; try reflexivity.
    + by intros ints [=].
    + by intros lod [= <-].
  - intros idx _ Hr. by apply allocateBuffers_paintable.
Defined.

(** A colour that came with a tile is not brought back: the second point
    of the complete tile has the components (255, 255, 255) and is stored
    as white; tinted by the overlay and repainted when the overlay is
    hidden, it shows the gray 0.35 of a store without intensities. *)
Example overlay_loses_parsed_colour :
  let b := (TileParser.parseTile Payloads.twoPoints Payloads.tileAt1
              (Tools.allocateBuffers 4) []).1.2 in
  let r1 := overlayEffect true (Some [2])
              (fresh (Some b) (Some LoadScenario.emptyGeometry) true) in
  let r3 := (animationFrame (overlayEffect false None r1)).2 in
  colorAt b 2 = Some (gray (Num (255 # 255)))
  ∧ ((λ b1, colorAt b1 2) <$> buffersRef r1) = Some (Some overlayColor)
  ∧ ((λ b3, colorAt b3 2) <$> buffersRef r3) = Some (Some (gray (Num (7 # 20)))).
Proof. by vm_compute. Qed.

End RenderHelpers.

(** ** The classes and the mask of the ML preview *)

Section MlPreview.
Import Tools DatasetDetail.

Lemma filter_ext_elem {A} (P Q : A → Prop) `{!∀ x, Decision (P x)} `{!∀ x, Decision (Q x)}
    (l : list A) :
  (∀ x, x ∈ l → (P x ↔ Q x)) → filter P l = filter Q l.
Proof.
  induction l as [|x l IH]; intros Hext; [done|].
  rewrite !filter_cons.
  assert (Htl : filter P l = filter Q l).
  { apply IH. intros y Hy. apply Hext. by right. }
  destruct (decide (P x)) as [HP|HP], (decide (Q x)) as [HQ|HQ]; try by rewrite Htl.
  - exfalso. apply HQ, (Hext x); [by left|done].
  - exfalso. apply HP, (Hext x); [by left|done].
Qed.

Lemma normaliseClasses_elem values c :
  c ∈ normaliseClasses values ↔ c ∈ values ∧ c ∈ CLASS_ORDER.
Proof. unfold normaliseClasses. by rewrite list_elem_of_filter. Qed.

Lemma normaliseClasses_ext values other :
  (∀ c, c ∈ CLASS_ORDER → (c ∈ values ↔ c ∈ other)) →
  normaliseClasses values = normaliseClasses other.
Proof. intros Hext. unfold normaliseClasses. by apply filter_ext_elem. Qed.

(** [X25] [normaliseClasses] gives the canonical form of a selection of
    classes: the known classes among the values, each once, in the order
    of [CLASS_ORDER]; unknown names, repetitions and the order of the
    values play no part, and a canonical selection is left as it is. *)
Theorem normaliseClasses_canonical (values other : list string) :
  (∀ c, c ∈ normaliseClasses values ↔ c ∈ values ∧ c ∈ CLASS_ORDER)
  ∧ sublist (normaliseClasses values) CLASS_ORDER
  ∧ NoDup (normaliseClasses values)
  ∧ normaliseClasses (normaliseClasses values) = normaliseClasses values
  ∧ ((∀ c, c ∈ values ↔ c ∈ other) → normaliseClasses values = normaliseClasses other).
Proof.
  split; [apply normaliseClasses_elem|].
  split; [apply sublist_filter|].
  split; [apply NoDup_filter; compute_done|].
  split.
  - apply normaliseClasses_ext. intros c Hc. rewrite normaliseClasses_elem. tauto.
  - intros Hext. apply normaliseClasses_ext. intros c _. apply Hext.
Qed.

(** [X26] Ticking and unticking a class in the detection list: the new
    selection is canonical, it holds the class exactly when the box was
    ticked and the class is a known one, the other classes stay as they
    were, and unticking a class right after ticking it gives back the
    selection without that class. *)
Theorem toggleDetectClass_sets_one_class (value : string) (checked : bool) (prev : list string) :
  let next := toggleDetectClass value checked prev in
  (value ∈ next ↔ checked = true ∧ value ∈ CLASS_ORDER)
  ∧ (∀ c, c ≠ value → (c ∈ next ↔ c ∈ prev ∧ c ∈ CLASS_ORDER))
  ∧ sublist next CLASS_ORDER ∧ NoDup next
  ∧ toggleDetectClass value false (toggleDetectClass value true prev)
    = toggleDetectClass value false prev.
Proof.
  assert (Hmem : ∀ v ck pv c,
    c ∈ toggleDetectClass v ck pv
    ↔ (if ck then c = v ∨ c ∈ pv else c ≠ v ∧ c ∈ pv) ∧ c ∈ CLASS_ORDER).
  { intros v ck pv c. unfold toggleDetectClass. rewrite normaliseClasses_elem.
    destruct ck.
    - case_bool_decide as Hin.
      + rewrite elem_of_remove_dups in *. split; [intros [? ?]; auto|].
        intros [[->|?] ?]; auto.
      + rewrite elem_of_app, list_elem_of_singleton, elem_of_remove_dups. tauto.
    - by rewrite list_elem_of_filter, elem_of_remove_dups. }
  cbv zeta. split; [|split; [|split; [|split]]].
  - rewrite Hmem. destruct checked; [|by split; [intros [[? _] _]|intros [? _]]].
    split; [intros [_ ?]; auto|]. intros [_ ?]. auto.
  - intros c Hne. rewrite Hmem. destruct checked; tauto.
  - apply sublist_filter.
  - apply NoDup_filter. compute_done.
  - unfold toggleDetectClass at 1 3. apply normaliseClasses_ext. intros c Hc.
    rewrite !list_elem_of_filter, !elem_of_remove_dups, Hmem. tauto.
Qed.

Lemma arraysEqualFrom_spec a b i rounds :
  arraysEqualFrom a b i rounds = true
  ↔ ∀ k, (i ≤ k < i + rounds)%nat → a !! k = b !! k.
Proof.
  revert i. induction rounds as [|rounds IH]; intros i; simpl.
  - split; [|done]. intros _ k Hk. lia.
  - case_bool_decide as Hne.
    + split; [done|]. intros Hall. exfalso. apply Hne, Hall. lia.
    + rewrite IH. split.
      * intros Hall k Hk. destruct (decide (k = i)) as [->|?]; [|apply Hall; lia].
        by destruct (decide (a !! i = b !! i)).
      * intros Hall k Hk. apply Hall. lia.
Qed.

(** [arraysEqual] decides the equality of two lists of classes:
    it answers [true] exactly when they have the same elements at the same
    places. *)
Theorem arraysEqual_reflects_equality (a b : list string) :
  arraysEqual a b = true ↔ a = b.
Proof.
  unfold arraysEqual. case_bool_decide as Hlen.
  - split; [done|]. intros ->. done.
  - rewrite arraysEqualFrom_spec. split.
    + intros Hall. apply list_eq. intros k.
      destruct (decide (k < length a)%nat) as [Hlt|Hge]; [apply Hall; lia|].
      rewrite !lookup_ge_None_2; [done|lia..].
    + by intros -> k _.
Qed.


Lemma foldl_add_elem acc l v : v ∈ foldl JsSet.add acc l ↔ v ∈ acc ∨ v ∈ l.
Proof.
  revert acc. induction l as [|x l IH]; intros acc; simpl.
  - split; [by left|]. by intros [?|?%elem_of_nil].
  - rewrite IH, JsSet_elem_of_add, elem_of_cons. tauto.
Qed.

Lemma foldl_add_NoDup acc l : NoDup acc → NoDup (foldl JsSet.add acc l).
Proof.
  revert acc. induction l as [|x l IH]; intros acc Hnd; simpl; [done|].
  by apply IH, JsSet_add_NoDup.
Qed.

Lemma aggregateFrom_elem ls i cs allowed acc idx :
  idx ∈ aggregateFrom ls i cs allowed acc
  ↔ idx ∈ acc
    ∨ ∃ k label cluster, ls !! k = Some label ∧ label ∈ allowed
                         ∧ cs !! (i + k)%nat = Some cluster ∧ idx ∈ cluster.
Proof.
  revert i acc. induction ls as [|label rest IH]; intros i acc; simpl.
  - split; [by left|]. by intros [?|(k & ? & ? & ? & _)].
  - rewrite IH. split.
    + intros [Hacc|(k & l' & cl & Hk & Hl & Hc & Hin)].
      * case_bool_decide as Hal; [|by left].
        apply foldl_add_elem in Hacc as [?|Hin]; [by left|]. right.
        destruct (cs !! i) as [cl|] eqn:Hcl; [|by apply elem_of_nil in Hin].
        exists 0%nat, label, cl. by rewrite Nat.add_0_r.
      * right. exists (S k), l', cl.
        by replace (i + S k)%nat with (S i + k)%nat by lia.
    + intros [Hacc|(k & l' & cl & Hk & Hl & Hc & Hin)].
      * left. case_bool_decide; [|done]. apply foldl_add_elem. by left.
      * destruct k as [|k]; simpl in Hk.
        -- injection Hk as ->. left. rewrite bool_decide_eq_true_2 by done.
           apply foldl_add_elem. right. rewrite Nat.add_0_r in Hc. by rewrite Hc.
        -- right. exists k, l', cl.
           by replace (S i + k)%nat with (i + S k)%nat by lia.
Qed.

Lemma aggregateFrom_NoDup ls i cs allowed acc :
  NoDup acc → NoDup (aggregateFrom ls i cs allowed acc).
Proof.
  revert i acc. induction ls as [|label rest IH]; intros i acc Hnd; simpl; [done|].
  apply IH. case_bool_decide; [by apply foldl_add_NoDup|done].
Qed.

(** [X28] The indices of the ML overlay are the points of the clusters
    whose label is among the classes shown, each once, in strictly
    increasing order; a cluster that is missing for a label counts as
    empty, and with no class to show there is no index. *)
Theorem mlOverlayIndices_sorted_members (detail : PreviewDetail) (classes : list string) :
  let l := mlOverlayIndices (Some detail) classes in
  (∀ i j a b, l !! i = Some a → l !! j = Some b → (i < j)%nat → a < b)
  ∧ (∀ idx, idx ∈ l
       ↔ ∃ k label cluster, labels detail !! k = Some label ∧ label ∈ classes
                            ∧ clusters detail !! k = Some cluster ∧ idx ∈ cluster)
  ∧ mlOverlayIndices None classes = []
  ∧ mlOverlayIndices (Some detail) [] = [].
Proof.
  cbv zeta. unfold mlOverlayIndices. split; [|split; [|done]].
  - case_bool_decide; [by intros i j a b ?|].
    set (agg := aggregateFrom _ _ _ _ _).
    assert (Hnd : NoDup (js_sort (λ a b, a - b) agg)).
    { rewrite (js_sort_perm (λ x : Z, x)). apply aggregateFrom_NoDup, NoDup_nil_2. }
    pose proof (js_sort_sorted (λ x : Z, x) agg) as Hsorted.
    intros i j a b Hi Hj Hij.
    assert (a ≤ b) by (apply (Hsorted i j a b); [lia|done|done]).
    assert (a ≠ b).
    { intros ->. assert (i = j) by (by eapply NoDup_lookup). lia. }
    lia.
  - intros idx. case_bool_decide as Hnil.
    + subst classes. split; [by intros ?%elem_of_nil|].
      by intros (k & label & cl & _ & ?%elem_of_nil & _).
    + rewrite (js_sort_perm (λ x : Z, x)), aggregateFrom_elem. simpl.
      split; [by intros [?%elem_of_nil|?]|by right].
Qed.

Lemma ceilDiv_covers n L : (0 < n)%nat → (L ≤ ceilDiv L n * n)%nat.
Proof.
  intros Hn. unfold ceilDiv.
  pose proof (Nat.div_mod (L + n - 1) n ltac:(lia)) as Hdm.
  pose proof (Nat.mod_upper_bound (L + n - 1) n ltac:(lia)) as Hub.
  nia.
Qed.

Lemma chunkRequestsFrom_concat n sid act l k count v :
  concat ((λ req, concat (indices <$> ops req)) <$> chunkRequestsFrom n sid act l k count v)
  = take (count * n) (drop (k * n) l).
Proof.
  revert k v. induction count as [|count IH]; intros k v; simpl; [done|].
  rewrite IH, app_nil_r.
  replace (S k * n)%nat with (k * n + n)%nat by lia.
  rewrite <- drop_drop. apply take_take_drop.
Qed.

End MlPreview.

Section ApplyMask.
Import Tools DatasetDetail.
Context {Srv : Type} (appendOps : Srv → AppendRequest → Completion unit * Srv).
Context (createSession : Srv → Completion Session * Srv).

(** [X29] Deleting by the ML mask submits the overlay indices to the
    active session in chunks of at most 20,000, in their order, the
    [k]-th request with the [baseVersion] of the session plus [k]; the
    requests stop at the first one that is rejected, whose error is
    logged and not thrown; when all are accepted, the chunks put end to
    end are the overlay indices. *)
Theorem apply_mask_submits_the_overlay_in_chunks
    (detail : PreviewDetail) (classes : list string) (s : Session) (srv : Srv) :
  let M := Z.to_nat MAX_INDICES_PER_OP in
  let sortedIndices := mlOverlayIndices (Some detail) classes in
  let plan := chunkRequests M (session_id s) (version s) "delete" sortedIndices in
  let served := serve appendOps plan (version s) srv [] in
  ∃ run,
    handleApplyMask appendOps createSession (Some detail) classes (Some s) srv = Some run
    ∧ sent run = calls served
    ∧ backendAfter run = server served
    ∧ logged run = match outcome served with
                   | Throw error => [MaskError error]
                   | Normal _ => []
                   end
    ∧ (∃ j, (j ≤ length plan)%nat ∧ sent run = take j plan)
    ∧ length plan = ceilDiv (length sortedIndices) M
    ∧ (∀ k req, plan !! k = Some req →
         sessionId req = session_id s
         ∧ baseVersion req = version s + Z.of_nat k
         ∧ ops req = [mkOp "delete" (take M (drop (k * M) sortedIndices))])
    ∧ (outcome served = Normal () →
       concat ((λ req, concat (indices <$> ops req)) <$> sent run) = sortedIndices).
Proof.
  intros M sortedIndices plan served.
  assert (HM : (0 < M)%nat) by exact MAX_INDICES_PER_OP_pos.
  unfold handleApplyMask. fold M. fold sortedIndices. clearbody M.
  assert (Hlen : length plan = ceilDiv (length sortedIndices) M).
  { unfold plan, chunkRequests. by rewrite length_chunkRequestsFrom. }
  destruct (serve_calls appendOps plan (version s) srv []) as (j & Hj & Hcalls & Hok & _).
  fold served in Hcalls, Hok. simpl in Hcalls.
  assert (Hplan : ∀ k req, plan !! k = Some req →
            sessionId req = session_id s
            ∧ baseVersion req = version s + Z.of_nat k
            ∧ ops req = [mkOp "delete" (take M (drop (k * M) sortedIndices))]).
  { intros k req Hk.
    assert (Hkl : (k < ceilDiv (length sortedIndices) M)%nat).
    { rewrite <- Hlen. by eapply lookup_lt_Some. }
    unfold plan, chunkRequests in Hk.
    rewrite (lookup_chunkRequestsFrom M) in Hk by done.
    injection Hk as <-. done. }
  assert (Hall : outcome served = Normal () →
            concat ((λ req, concat (indices <$> ops req)) <$> calls served) = sortedIndices).
  { intros Hout. destruct (Hok Hout) as [-> _]. rewrite Hcalls, firstn_all.
    unfold plan, chunkRequests. rewrite chunkRequestsFrom_concat. simpl.
    apply take_ge. by apply ceilDiv_covers. }
  destruct (bool_decide (classes = []) || bool_decide (sortedIndices = [])) eqn:Hguard.
  - assert (Hnil : sortedIndices = []).
    { apply orb_true_iff in Hguard as [Hc|Hi].
      - apply bool_decide_eq_true in Hc. unfold sortedIndices, mlOverlayIndices.
        by rewrite bool_decide_eq_true_2.
      - by apply bool_decide_eq_true in Hi. }
    assert (Hp : plan = []).
    { unfold plan, chunkRequests. rewrite Hnil. simpl. by rewrite (ceilDiv_0 M HM). }
    unfold served in *. rewrite Hp in *. simpl in *.
    eexists. split; [done|]. simpl. repeat split; try done.
    exists 0%nat. by split.
  - rewrite (submitOp_serve appendOps M HM (session_id s) (mkOp "delete" sortedIndices)).
    simpl. fold plan served.
    eexists. split; [done|]. simpl.
    split; [done|]. split; [done|]. split; [done|]. split; [by exists j|].
    split; [done|]. split; [done|done].
Qed.

End ApplyMask.

(** ** The sample of the camera-pose initializer, continued *)

Section CameraSamplePoints.
Import CameraInit.

Lemma sampleLoop_lookup fuel i count stride positions points k s :
  sampleLoop fuel i count stride positions = Some points →
  points !! k = Some s →
  s = sampleAt positions (i + Z.of_nat k * stride)
  ∧ (0 < stride → i + Z.of_nat k * stride < count).
Proof.
  revert i points k. induction fuel as [|fuel IH]; intros i points k;
    cbn [sampleLoop]; destruct (Z.ltb_spec i count) as [Hlt|Hge]; try done.
  - by intros [= <-].
  - destruct (sampleLoop fuel (i + stride) count stride positions) as [rest|] eqn:Hrest;
      [|done].
    simpl. intros [= <-] Hk. destruct k as [|k]; simpl in Hk.
    + injection Hk as <-. split; [f_equal; lia|lia].
    + destruct (IH _ _ _ Hrest Hk) as [-> Hb].
      split; [f_equal; lia|]. intros Hs. specialize (Hb Hs). lia.
  - by intros [= <-].
Qed.

(** [X30] With at least 20,000 points in the draw range the sampling of
    [tryInitializeCameraPose] ends; it takes the points 0, [stride],
    [2 * stride], ... of the draw range and no other, at least 20,000 and
    fewer than 240,000 of them. *)
Theorem camera_sample_is_every_stride_th_point
    (b : InternalBuffers) (geom : Tools.Geometry) :
  let count := toInt32 (Tools.drawRange geom).2 in
  let stride := strideFor count in
  20000 ≤ count →
  ∃ points,
    cameraSamples false (Some b) (Some geom) true = Some (Sampled points)
    ∧ Z.of_nat (length points) = (count + stride - 1) / stride
    ∧ 20000 ≤ Z.of_nat (length points) < 2 * maxSamples
    ∧ ∀ k s, points !! k = Some s →
        s = sampleAt (positions b) (Z.of_nat k * stride)
        ∧ 0 ≤ Z.of_nat k * stride < count.
Proof.
  intros count stride Hcount.
  destruct (cameraSamples_count b geom Hcount) as (points & Hrun & Hlen).
  fold count stride in Hlen.
  pose proof (camera_sample_below_twice_maxSamples b geom points Hrun) as Hupper.
  pose proof (strideFor_pos count) as Hs. fold stride in Hs.
  exists points. split; [done|]. split; [done|]. split.
  - split; [|done]. rewrite Hlen.
    assert (Hq : stride = Z.max 1 (count / 120000)) by done.
    apply Z.div_le_lower_bound; [lia|].
    destruct (Z.max_spec 1 (count / 120000)) as [[Hlt Hm]|[Hge Hm]]; rewrite Hm in Hq.
    + pose proof (Z.div_mod count 120000 ltac:(lia)) as Hdm.
      pose proof (Z.mod_pos_bound count 120000 ltac:(lia)) as Hmod.
      nia.
    + lia.
  - intros k s Hk.
    unfold cameraSamples in Hrun. simpl in Hrun. fold count stride in Hrun.
    destruct (Z.ltb_spec count 20000); [lia|].
    destruct (sampleLoop (Z.to_nat count) 0 count stride (positions b)) as [pts|] eqn:Hloop;
      [|done].
    injection Hrun as <-.
    destruct (sampleLoop_lookup _ _ _ _ _ _ _ _ Hloop Hk) as [-> Hb].
    split; [done|]. specialize (Hb Hs). lia.
Qed.

Lemma camera_sample_is_every_stride_th_point_witness :
  let b := Tools.allocateBuffers 0 in
  let geom := Tools.mkGeometry (0, 250000) true in
  let count := toInt32 (Tools.drawRange geom).2 in
  let stride := strideFor count in
  ∃ points,
    cameraSamples false (Some b) (Some geom) true = Some (Sampled points)
    ∧ Z.of_nat (length points) = (count + stride - 1) / stride
    ∧ 20000 ≤ Z.of_nat (length points) < 2 * maxSamples
    ∧ ∀ k s, points !! k = Some s →
        s = sampleAt (positions b) (Z.of_nat k * stride)
        ∧ 0 ≤ Z.of_nat k * stride < count.
Proof.
  apply (camera_sample_is_every_stride_th_point
           (Tools.allocateBuffers 0) (Tools.mkGeometry (0, 250000) true)).
  vm_compute. discriminate.
Defined.

End CameraSamplePoints.

(** ** A stroke of the brush *)

Section BrushStroke.
Import Rendering Tools BrushInteractions Stroke.

Lemma applyBaseColor_selected idx b c :
  elem (selections b) idx = Some c → c = 1 ∨ c = 2 →
  ∃ col, applyBaseColor idx b true = (Normal (), writeColor b idx col).
Proof.
  intros Hsel Hc. unfold applyBaseColor. rewrite Hsel.
  destruct Hc as [-> | ->].
  - by exists (Num 1, Num (1 # 4), Num (1 # 4)).
  - by exists (Num (1 # 5), Num 1, Num (1 # 5)).
Qed.

Lemma writeColor_selections b idx col : selections (writeColor b idx col) = selections b.
Proof. by destruct col as [[? ?] ?]. Qed.

(** The loop of [applyBrush] over indices of the store: it ends, each
    index joins the set of the tool and leaves the other set. *)
Lemma brushEach_sets tool code indices pd pr b :
  TOOL_CODE tool = Some code →
  (∀ idx, idx ∈ indices → 0 ≤ idx < Z.of_nat (length (selections b))) →
  ∃ pd' pr' b',
    brushEach indices (Some code) pd pr b = (Normal (), (pd', pr', b'))
    ∧ length (selections b') = length (selections b)
    ∧ (∀ i, i ∈ (match tool with Tool.restore => pr' | _ => pd' end)
            ↔ i ∈ (match tool with Tool.restore => pr | _ => pd end) ∨ i ∈ indices)
    ∧ (∀ i, i ∈ (match tool with Tool.restore => pd' | _ => pr' end)
            ↔ i ∈ (match tool with Tool.restore => pd | _ => pr end) ∧ i ∉ indices).
Proof.
  intros Hcode. revert pd pr b.
  induction indices as [|idx rest IH]; intros pd pr b Hrange.
  - exists pd, pr, b. split; [done|]. split; [done|]. split.
    + intros i. split; [by left|]. by intros [?|?%elem_of_nil].
    + intros i. split; [intros ?; split; [done|apply not_elem_of_nil]|by intros [? _]].
  - assert (Hidx : 0 ≤ idx < Z.of_nat (length (selections b))) by (apply Hrange; by left).
    assert (Hrest : ∀ b1, length (selections b1) = length (selections b) →
              ∀ i, i ∈ rest → 0 ≤ i < Z.of_nat (length (selections b1))).
    { intros b1 Hlen i Hi. rewrite Hlen. apply Hrange. by right. }
    cbn [brushEach]. unfold updateSelection.
    assert (Hguard : (idx <? 0) || (Z.of_nat (length (selections b)) <=? idx) = false).
    { apply orb_false_iff. split; [apply Z.ltb_ge|apply Z.leb_gt]; lia. }
    rewrite Hguard.
    destruct tool; simpl in Hcode; [| |done]; injection Hcode as <-.
    + rewrite bool_decide_eq_true_2 by done.
      destruct (applyBaseColor_selected idx
                  (withSelections b (setElem (selections b) idx 1)) 1) as [col Hcol];
        [simpl; by apply elem_setElem_eq|by left|].
      unfold colorPoint. rewrite Hcol.
      destruct (IH (JsSet.add pd idx) (JsSet.remove pr idx)
                  (writeColor (withSelections b (setElem (selections b) idx 1)) idx col))
        as (pd' & pr' & b' & Hrun & Hlen & Hin & Hout).
      { apply Hrest. by rewrite writeColor_selections; simpl; rewrite length_setElem. }
      exists pd', pr', b'. split; [done|]. split.
      { rewrite Hlen, writeColor_selections. simpl. by rewrite length_setElem. }
      split.
      * intros i. rewrite Hin, JsSet_elem_of_add, elem_of_cons. tauto.
      * intros i. rewrite Hout, JsSet_elem_of_remove, not_elem_of_cons. tauto.
    + rewrite bool_decide_eq_false_2 by done. rewrite bool_decide_eq_true_2 by done.
      destruct (applyBaseColor_selected idx
                  (withSelections b (setElem (selections b) idx 2)) 2) as [col Hcol];
        [simpl; by apply elem_setElem_eq|by right|].
      unfold colorPoint. rewrite Hcol.
      destruct (IH (JsSet.remove pd idx) (JsSet.add pr idx)
                  (writeColor (withSelections b (setElem (selections b) idx 2)) idx col))
        as (pd' & pr' & b' & Hrun & Hlen & Hin & Hout).
      { apply Hrest. by rewrite writeColor_selections; simpl; rewrite length_setElem. }
      exists pd', pr', b'. split; [done|]. split.
      { rewrite Hlen, writeColor_selections. simpl. by rewrite length_setElem. }
      split.
      * intros i. rewrite Hin, JsSet_elem_of_add, elem_of_cons. tauto.
      * intros i. rewrite Hout, JsSet_elem_of_remove, not_elem_of_cons. tauto.
Qed.

Lemma of_list_hits (intersections : list (option Z)) idx :
  idx ∈ JsSet.of_list (omap id intersections) ↔ Some idx ∈ intersections.
Proof.
  unfold JsSet.of_list. rewrite foldl_add_elem, list_elem_of_omap.
  split.
  - intros [?%elem_of_nil|(y & Hy & Heq)]; [done|]. unfold id in Heq. by subst y.
  - intros Hin. right. by exists (Some idx).
Qed.

(** One application of the brush whose hits lie in the store. *)
Lemma applyBrush_sets intersections tool e b :
  tool ≠ Tool.ml → buffersRef e = Some b →
  (∀ idx, Some idx ∈ intersections → 0 ≤ idx < Z.of_nat (length (selections b))) →
  ∃ e' b',
    applyBrush intersections tool e = (Normal (), e')
    ∧ buffersRef e' = Some b' ∧ length (selections b') = length (selections b)
    ∧ (∀ i, i ∈ marks tool e' ↔ i ∈ marks tool e ∨ Some i ∈ intersections)
    ∧ (∀ i, i ∈ unmarks tool e' ↔ i ∈ unmarks tool e ∧ Some i ∉ intersections).
Proof.
  intros Htool Hb Hrange. unfold applyBrush. rewrite Hb.
  destruct (bool_decide (intersections = [])
            || bool_decide (JsSet.of_list (omap id intersections) = [])) eqn:Hguard.
  - assert (Hnone : ∀ i, Some i ∉ intersections).
    { intros i Hi. apply orb_true_iff in Hguard as [Hg|Hg]; apply bool_decide_eq_true in Hg.
      - rewrite Hg in Hi. by apply elem_of_nil in Hi.
      - apply of_list_hits in Hi. rewrite Hg in Hi. by apply elem_of_nil in Hi. }
    exists e, b. split; [done|]. split; [done|]. split; [done|]. split.
    + intros i. split; [by left|]. intros [?|Hi]; [done|]. by apply Hnone in Hi.
    + intros i. split; [intros ?; split; [done|apply Hnone]|by intros [? _]].
  - assert (∃ code, TOOL_CODE tool = Some code) as [code Hcode].
    { destruct tool; [by eexists..|done]. }
    rewrite Hcode.
    destruct (brushEach_sets tool code (JsSet.of_list (omap id intersections))
                (pendingDeleteRef e) (pendingRestoreRef e) b Hcode)
      as (pd' & pr' & b' & Hrun & Hlen & Hin & Hout).
    { intros idx Hidx. apply Hrange. by apply of_list_hits. }
    rewrite Hrun. eexists _, b'. split; [done|].
    split; [unfold markColorsDirty; by destruct (geometryRef e)|].
    split; [done|].
    assert (Hm : marks tool (markColorsDirty
                   (withCounters (withBuffers (withPending e pd' pr') (Some b'))
                      (JsSet.size pd') (JsSet.size pr')))
                 = match tool with Tool.restore => pr' | _ => pd' end).
    { unfold marks, markColorsDirty. by destruct tool, (geometryRef e). }
    assert (Hu : unmarks tool (markColorsDirty
                   (withCounters (withBuffers (withPending e pd' pr') (Some b'))
                      (JsSet.size pd') (JsSet.size pr')))
                 = match tool with Tool.restore => pd' | _ => pr' end).
    { unfold unmarks, markColorsDirty. by destruct tool, (geometryRef e). }
    rewrite Hm, Hu. split.
    + intros i. rewrite Hin, of_list_hits. unfold marks. by destruct tool.
    + intros i. rewrite Hout, of_list_hits. unfold unmarks. by destruct tool.
Qed.


Lemma isMl_false tool : tool ≠ Tool.ml → isMl tool = false.
Proof. by destruct tool. Qed.

Lemma move_paints {W : Type} (dispatchEvent : WindowSignal → W → W) tool m (s : Brush W) b :
  tool ≠ Tool.ml → selectionDirty s = true → brushActive s = true →
  buffersRef (editor s) = Some b → buttons m = 1 →
  (∀ idx, Some idx ∈ hits m → 0 ≤ idx < Z.of_nat (length (selections b))) →
  ∃ e' b',
    (listener dispatchEvent true tool (PointerMove m) s).2 = withEditor s e'
    ∧ buffersRef e' = Some b' ∧ length (selections b') = length (selections b)
    ∧ (∀ i, i ∈ marks tool e' ↔ i ∈ marks tool (editor s) ∨ Some i ∈ hits m)
    ∧ (∀ i, i ∈ unmarks tool e' ↔ i ∈ unmarks tool (editor s) ∧ Some i ∉ hits m).
Proof.
  intros Htool Hd Ha Hb Hbtn Hrange.
  destruct (applyBrush_sets (hits m) tool (editor s) b Htool Hb Hrange)
    as (e' & b' & Hrun & Hb' & Hlen & Hin & Hout).
  exists e', b'. split; [|done].
  unfold listener, handlePointerMove, brushWith.
  rewrite (isMl_false tool Htool), Hd, Ha, Hbtn, Hrun. done.
Qed.

Lemma moves_paint {W : Type} (dispatchEvent : WindowSignal → W → W) tool moves
    (s : Brush W) b :
  tool ≠ Tool.ml → selectionDirty s = true → brushActive s = true →
  buffersRef (editor s) = Some b →
  (∀ m, m ∈ moves → buttons m = 1) →
  (∀ m idx, m ∈ moves → Some idx ∈ hits m → 0 ≤ idx < Z.of_nat (length (selections b))) →
  let s' := interact dispatchEvent true tool (PointerMove <$> moves) s in
  selectionDirty s' = true ∧ brushActive s' = true ∧ window s' = window s
  ∧ (∀ i, i ∈ marks tool (editor s')
          ↔ i ∈ marks tool (editor s) ∨ ∃ m, m ∈ moves ∧ Some i ∈ hits m)
  ∧ (∀ i, i ∈ unmarks tool (editor s')
          ↔ i ∈ unmarks tool (editor s) ∧ ¬ ∃ m, m ∈ moves ∧ Some i ∈ hits m).
Proof.
  intros Htool. revert s b.
  induction moves as [|m moves IH]; intros s b Hd Ha Hb Hbtn Hrange.
  - simpl. do 3 (split; [done|]). split.
    + intros i. split; [by left|]. by intros [?|(m & ?%elem_of_nil & _)].
    + intros i. split; [|by intros [? _]].
      intros ?. split; [done|]. by intros (m & ?%elem_of_nil & _).
  - destruct (move_paints dispatchEvent tool m s b Htool Hd Ha Hb)
      as (e' & b' & Hstep & Hb' & Hlen & Hin & Hout).
    { apply Hbtn. by left. }
    { intros idx Hidx. apply (Hrange m); [by left|done]. }
    rewrite fmap_cons.
    change (interact dispatchEvent true tool (PointerMove m :: (PointerMove <$> moves)) s)
      with (interact dispatchEvent true tool (PointerMove <$> moves)
              (listener dispatchEvent true tool (PointerMove m) s).2).
    rewrite Hstep.
    destruct (IH (withEditor s e') b') as (Hd' & Ha' & Hw' & Hin' & Hout'); try done.
    { intros m' Hm'. apply Hbtn. by right. }
    { intros m' idx Hm' Hidx. rewrite Hlen. apply (Hrange m'); [by right|done]. }
    cbv zeta. split; [done|]. split; [done|]. split; [done|]. split.
    + intros i. rewrite Hin'. simpl. rewrite Hin. split.
      * intros [[?|?]|(m' & ? & ?)]; [by left|right; exists m; split; [by left|done]|].
        right. exists m'. split; [by right|done].
      * intros [?|(m' & [->|?]%elem_of_cons & ?)]; [by left; left|by left; right|].
        right. by exists m'.
    + intros i. rewrite Hout'. simpl. rewrite Hout. split.
      * intros [[? Hn] Hn']. split; [done|].
        intros (m' & [->|?]%elem_of_cons & ?); [done|]. apply Hn'. by exists m'.
      * intros [? Hn]. split; [split; [done|]|].
        -- intros ?. apply Hn. exists m. split; [by left|done].
        -- intros (m' & ? & ?). apply Hn. exists m'. split; [by right|done].
Qed.

(** [X27] A stroke of the brush marks exactly the points it hits: after a
    pointer down with the left button and no modifier key, moves with
    that button held, and a pointer up, all hits lying in the store, an
    index is in the pending set of the tool if and only if it was there
    before or was hit during the stroke, and it is in the other pending
    set if and only if it was there before and was not hit; the stroke is
    over, and the window has seen one start and one end. *)
Theorem stroke_marks_exactly_the_hit_points
    {W : Type} (dispatchEvent : WindowSignal → W → W) (tool : Tool.t)
    (down up : PointerEvent) (moves : list PointerEvent)
    (w : W) (e : Editor) (b : InternalBuffers) :
  tool ≠ Tool.ml →
  buffersRef e = Some b →
  button down = 0 →
  shiftKey down || ctrlKey down || metaKey down || altKey down = false →
  (∀ m, m ∈ moves → buttons m = 1) →
  (∀ ev idx, ev ∈ down :: moves → Some idx ∈ hits ev →
     0 ≤ idx < Z.of_nat (length (selections b))) →
  let s := interact dispatchEvent true tool
             (PointerDown down :: (PointerMove <$> moves) ++ [PointerUp up]) (idle w e) in
  (∀ i, i ∈ marks tool (editor s)
        ↔ i ∈ marks tool e ∨ ∃ ev, ev ∈ down :: moves ∧ Some i ∈ hits ev)
  ∧ (∀ i, i ∈ unmarks tool (editor s)
          ↔ i ∈ unmarks tool e ∧ ¬ ∃ ev, ev ∈ down :: moves ∧ Some i ∈ hits ev)
  ∧ brushActive s = false ∧ selectionDirty s = false
  ∧ window s = dispatchEvent BrushEnd (dispatchEvent BrushStart w).
Proof.
  intros Htool Hb Hbtn Hmod Hmoves Hrange s.
  destruct (applyBrush_sets (hits down) tool e b Htool Hb) as
    (e1 & b1 & Hrun & Hb1 & Hlen1 & Hin1 & Hout1).
  { intros idx Hidx. apply (Hrange down); [by left|done]. }
  set (s1 := mkBrush true true (Some (pointerId down)) (JsSet.add [] (pointerId down))
               (dispatchEvent BrushStart w) e1).
  assert (Hdown : (listener dispatchEvent true tool (PointerDown down) (idle w e)).2 = s1).
  { unfold listener, handlePointerDown, brushWith, idle.
    rewrite (isMl_false tool Htool), Hbtn, Hmod. simpl. by rewrite Hrun. }
  destruct (moves_paint dispatchEvent tool moves s1 b1 Htool eq_refl eq_refl Hb1)
    as (Hd2 & Ha2 & Hw2 & Hin2 & Hout2).
  { done. }
  { intros m idx Hm Hidx. rewrite Hlen1. apply (Hrange m); [by right|done]. }
  set (s2 := interact dispatchEvent true tool (PointerMove <$> moves) s1) in *.
  assert (Hs : s = (listener dispatchEvent true tool (PointerUp up) s2).2).
  { unfold s, interact. cbn [foldl]. rewrite Hdown, foldl_app. done. }
  assert (Hup : (listener dispatchEvent true tool (PointerUp up) s2).2
                = mkBrush false false None (JsSet.remove (captured s2) (pointerId up))
                    (dispatchEvent BrushEnd (window s2)) (editor s2)).
  { unfold listener, handlePointerUp, finishBrush, withDirty.
    rewrite (isMl_false tool Htool). simpl. by rewrite Ha2. }
  rewrite Hs, Hup. simpl. rewrite Hw2. simpl.
  split; [|split; [|done]].
  - intros i. rewrite Hin2. simpl. rewrite Hin1. split.
    + intros [[?|?]|(m & ? & ?)]; [by left|right; exists down; split; [by left|done]|].
      right. exists m. split; [by right|done].
    + intros [?|(ev & [->|?]%elem_of_cons & ?)]; [by left; left|by left; right|].
      right. by exists ev.
  - intros i. rewrite Hout2. simpl. rewrite Hout1. split.
    + intros [[? Hn] Hn']. split; [done|].
      intros (ev & [->|?]%elem_of_cons & ?); [done|]. apply Hn'. by exists ev.
    + intros [? Hn]. split; [split; [done|]|].
      * intros ?. apply Hn. exists down. split; [by left|done].
      * intros (m & ? & ?). apply Hn. exists m. split; [by right|done].
Qed.


Lemma stroke_marks_exactly_the_hit_points_witness :
  let e := allocatedEditor 4 0 in
  let s := interact record true Tool.delete BrushScenario.stroke (idle [] e) in
  (∀ i, i ∈ marks Tool.delete (editor s)
        ↔ i ∈ marks Tool.delete e
          ∨ ∃ ev, ev ∈ [BrushScenario.press; BrushScenario.drag] ∧ Some i ∈ hits ev)
  ∧ (∀ i, i ∈ unmarks Tool.delete (editor s)
          ↔ i ∈ unmarks Tool.delete e
            ∧ ¬ ∃ ev, ev ∈ [BrushScenario.press; BrushScenario.drag] ∧ Some i ∈ hits ev)
  ∧ brushActive s = false ∧ selectionDirty s = false
  ∧ window s = record BrushEnd (record BrushStart []).
Proof.
  apply (stroke_marks_exactly_the_hit_points record Tool.delete
           BrushScenario.press BrushScenario.release [BrushScenario.drag] []
           (allocatedEditor 4 0) (allocateBuffers 4)).
  - discriminate.
  - reflexivity.
  - reflexivity.
  - reflexivity.
  - intros m Hm. apply list_elem_of_singleton in Hm as ->. reflexivity.
  - intros ev idx Hev Hidx.
    assert (idx = 1 ∨ idx = 2) as [-> | ->]; [|simpl; lia..].
    apply elem_of_cons in Hev as [->|Hev].
    + simpl in Hidx. apply elem_of_cons in Hidx as [[= ->]|Hidx]; [by left|].
      apply list_elem_of_singleton in Hidx. discriminate.
    + apply list_elem_of_singleton in Hev as ->. simpl in Hidx.
      apply elem_of_cons in Hidx as [[= ->]|Hidx]; [by right|].
      apply list_elem_of_singleton in Hidx as [= ->]. by left.
Defined.

(** The stroke of the scenario on a store of four points: the points 1
    and 2 are pending for deletion, in the order in which they were hit,
    and the counter shows 2. *)
Example stroke_over_two_points :
  let s := interact record true Tool.delete BrushScenario.stroke
             (idle [] (allocatedEditor 4 0)) in
  pendingDeleteRef (editor s) = [1; 2]
  ∧ selectedForDelete (editor s) = 2
  ∧ (selections <$> buffersRef (editor s)) = Some [0; 1; 1; 0]
  ∧ window s = [BrushEnd; BrushStart]
  ∧ captured s = [].
Proof. vm_compute. by repeat split. Qed.

End BrushStroke.
